(** * Morse code audio generator (pavelanni/morse-go)

    A shallow embedding of the two versions of the generator found in the
    repository: [main.go], which pre-generates one sample table per
    character ([morseAudio.charSamples]), and the earlier version of the
    same file, which synthesises every tone inline over a zero-initialised
    buffer.  Both share [calculateMorseTiming], [morseCodeMap] and
    [writeWavHeader].

    Conventions.
    - Go's [int] is the 64-bit two's-complement integer of the amd64 and
      arm64 ports: a [Z] with the wrap-around written out ([wrap64]).
    - [float64] is IEEE-754 binary64, taken from the specification of
      floating-point arithmetic of the Standard Library ([SpecFloat]).
    - A Go [string] is a sequence of bytes: Rocq's [string]; a [rune] is
      a [Z].
    - A run-time panic (division by zero, index or slice bound out of
      range, [make] with a negative length) is [None]. *)

From Stdlib Require Import ZArith Lia String Ascii SpecFloat.
From stdpp Require Import base option list list_numbers gmap.

Local Open Scope Z_scope.

(** ** Go's [int] *)

Definition intMin : Z := - 2 ^ 63.
Definition intMax : Z := 2 ^ 63 - 1.

Definition is_int (z : Z) : Prop := intMin <= z <= intMax.

Definition wrap64 (z : Z) : Z := (z + 2 ^ 63) mod 2 ^ 64 - 2 ^ 63.

Definition int_add (a b : Z) : Z := wrap64 (a + b).
Definition int_mul (a b : Z) : Z := wrap64 (a * b).

(** [a / b] on [int]: truncated division, panics when [b] is zero. *)
Definition int_quot (a b : Z) : option Z :=
  if b =? 0 then None else Some (wrap64 (Z.quot a b)).

Definition uint32 (z : Z) : Z := z mod 2 ^ 32.
Definition uint16 (z : Z) : Z := z mod 2 ^ 16.
Definition wrap16 (z : Z) : Z := (z + 2 ^ 15) mod 2 ^ 16 - 2 ^ 15.

(** [len] of a slice and of a string. *)
Definition len {A} (l : list A) : Z := Z.of_nat (length l).
Definition slen (s : string) : Z := Z.of_nat (String.length s).

(** ** [float64] *)

Definition float64 : Type := spec_float.

Definition f64_of_int (z : Z) : float64 := binary_normalize 53 1024 z 0 false.
Definition f64_mul : float64 -> float64 -> float64 := SFmul 53 1024.
Definition f64_div : float64 -> float64 -> float64 := SFdiv 53 1024.

(** The integer part of a finite float (the fraction is discarded). *)
Definition f64_trunc (x : float64) : option Z :=
  match x with
  | S754_zero _ => Some 0
  | S754_finite s m e =>
      let a := match e with
               | Zneg p => Z.shiftr (Zpos m) (Zpos p)
               | _ => Z.shiftl (Zpos m) e
               end in
      Some (if s then - a else a)
  | S754_infinity _ | S754_nan => None
  end.

(** [int(x)]: truncation towards zero.  For a NaN, an infinity or a value
    out of range the result is the one of the amd64 port (the "integer
    indefinite" value). *)
Definition int_of_f64 (x : float64) : Z :=
  match f64_trunc x with
  | Some z => if (intMin <=? z) && (z <=? intMax) then z else intMin
  | None => intMin
  end.

(** [int16(x)]: the conversion to [int] followed by the truncation to the
    low 16 bits. *)
Definition int16_of_f64 (x : float64) : Z := wrap16 (int_of_f64 x).

(** [math.Pi] as a [float64] is 0x400921FB54442D18; the constant
    expression [2*math.Pi] is exact before it is converted, which doubles
    that value. *)
Definition twoPi : float64 := S754_finite false 7074237752028440 (-50).

(** ** Bytes, runes and UTF-8 (packages [unicode/utf8] and [strings]) *)

Definition byteVal (c : ascii) : Z := Z.of_N (N_of_ascii c).
Definition byteChar (b : Z) : ascii := ascii_of_N (Z.to_N b).

Definition bytes (s : string) : list Z := byteVal <$> list_ascii_of_string s.
Definition string_of_bytes (l : list Z) : string :=
  string_of_list_ascii (byteChar <$> l).

(** [s[i]]: panics out of range. *)
Definition index (s : string) (i : Z) : option Z :=
  if i <? 0 then None else bytes s !! Z.to_nat i.

Definition RuneError : Z := 65533.

Definition isCont (b : Z) : bool := (128 <=? b) && (b <=? 191).

(** [utf8.DecodeRuneInString]: the rune at the front of [p] and its width
    in bytes; an invalid or truncated encoding is [RuneError] of width 1. *)
Definition decodeRune (p : list Z) : Z * nat :=
  match p with
  | [] => (RuneError, 0%nat)
  | b0 :: p1 =>
      if b0 <? 128 then (b0, 1%nat)
      else if (194 <=? b0) && (b0 <=? 223) then
        match p1 with
        | b1 :: _ =>
            if isCont b1
            then (Z.lor (Z.shiftl (Z.land b0 31) 6) (Z.land b1 63), 2%nat)
            else (RuneError, 1%nat)
        | _ => (RuneError, 1%nat)
        end
      else if (224 <=? b0) && (b0 <=? 239) then
        match p1 with
        | b1 :: b2 :: _ =>
            let lo := if b0 =? 224 then 160 else 128 in
            let hi := if b0 =? 237 then 159 else 191 in
            if (lo <=? b1) && (b1 <=? hi) && isCont b2
            then (Z.lor (Z.lor (Z.shiftl (Z.land b0 15) 12)
                               (Z.shiftl (Z.land b1 63) 6))
                        (Z.land b2 63), 3%nat)
            else (RuneError, 1%nat)
        | _ => (RuneError, 1%nat)
        end
      else if (240 <=? b0) && (b0 <=? 244) then
        match p1 with
        | b1 :: b2 :: b3 :: _ =>
            let lo := if b0 =? 240 then 144 else 128 in
            let hi := if b0 =? 244 then 143 else 191 in
            if (lo <=? b1) && (b1 <=? hi) && isCont b2 && isCont b3
            then (Z.lor (Z.lor (Z.lor (Z.shiftl (Z.land b0 7) 18)
                                      (Z.shiftl (Z.land b1 63) 12))
                               (Z.shiftl (Z.land b2 63) 6))
                        (Z.land b3 63), 4%nat)
            else (RuneError, 1%nat)
        | _ => (RuneError, 1%nat)
        end
      else (RuneError, 1%nat)
  end.

(** [for i, c := range s]: the pairs (byte offset, rune) of the string.
    [skip] counts the bytes of the current rune still to be passed. *)
Fixpoint rangeFrom (skip : nat) (i : Z) (p : list Z) : list (Z * Z) :=
  match p with
  | [] => []
  | _ :: p' =>
      match skip with
      | S k => rangeFrom k (i + 1) p'
      | O => let '(r, w) := decodeRune p in
             (i, r) :: rangeFrom (w - 1) (i + 1) p'
      end
  end.

Definition rangeString (s : string) : list (Z * Z) := rangeFrom 0 0 (bytes s).

(** [utf8.AppendRune]: the UTF-8 encoding of a rune; a surrogate or a
    value out of range is encoded as [RuneError]. *)
Definition encodeRune (r : Z) : list Z :=
  if (0 <=? r) && (r <=? 127) then [r]
  else if (0 <=? r) && (r <=? 2047) then
    [Z.lor 192 (Z.shiftr r 6); Z.lor 128 (Z.land r 63)]
  else if (r <? 0) || (1114111 <? r) || ((55296 <=? r) && (r <=? 57343)) then
    [239; 191; 189]
  else if r <=? 65535 then
    [Z.lor 224 (Z.shiftr r 12); Z.lor 128 (Z.land (Z.shiftr r 6) 63);
     Z.lor 128 (Z.land r 63)]
  else
    [Z.lor 240 (Z.shiftr r 18); Z.lor 128 (Z.land (Z.shiftr r 12) 63);
     Z.lor 128 (Z.land (Z.shiftr r 6) 63); Z.lor 128 (Z.land r 63)].

(** [strings.Map]: every rune of the string is replaced by its image,
    a negative image is dropped. *)
Definition strings_Map (mapping : Z -> Z) (p : list Z) : list Z :=
  mjoin ((fun ic : Z * Z => let r := mapping ic.2 in
                            if r <? 0 then [] else encodeRune r)
           <$> rangeFrom 0 0 p).

Definition isASCII (s : string) : bool :=
  forallb (fun b => b <? 128) (bytes s).

Definition asciiUpper (b : Z) : Z :=
  if (97 <=? b) && (b <=? 122) then b - 32 else b.

(** ** What the program takes from Go's library and cannot be read from
    the repository: the sine of package [math] and the Unicode case
    tables of package [unicode]. *)
Class GoRuntime : Type := {
  math_Sin : float64 -> float64;
  (** [unicode.To(unicode.UpperCase, r)] for a rune above [MaxASCII] *)
  unicode_upperCase : Z -> Z
}.

Section Library.
Context `{GoRuntime}.

(** [unicode.ToUpper] *)
Definition unicode_ToUpper (r : Z) : Z :=
  if r <=? 127 then asciiUpper r else unicode_upperCase r.

(** [strings.ToUpper]: ASCII-only strings are mapped byte by byte, the
    others rune by rune through [strings.Map]. *)
Definition strings_ToUpper (s : string) : string :=
  if isASCII s then string_of_bytes (asciiUpper <$> bytes s)
  else string_of_bytes (strings_Map unicode_ToUpper (bytes s)).

End Library.

(** ** Shared by the two versions *)

Definition sampleRate : Z := 44100.

Definition rune (c : ascii) : Z := byteVal c.

(** Morse code table *)
Definition morseCodeMap : gmap Z string :=
  list_to_map
    [(rune "A", ".-"); (rune "B", "-..."); (rune "C", "-.-."); (rune "D", "-..");
     (rune "E", "."); (rune "F", "..-.");
     (rune "G", "--."); (rune "H", "...."); (rune "I", ".."); (rune "J", ".---");
     (rune "K", "-.-"); (rune "L", ".-..");
     (rune "M", "--"); (rune "N", "-."); (rune "O", "---"); (rune "P", ".--.");
     (rune "Q", "--.-"); (rune "R", ".-.");
     (rune "S", "..."); (rune "T", "-"); (rune "U", "..-"); (rune "V", "...-");
     (rune "W", ".--"); (rune "X", "-..-");
     (rune "Y", "-.--"); (rune "Z", "--..");
     (rune "0", "-----"); (rune "1", ".----"); (rune "2", "..---");
     (rune "3", "...--"); (rune "4", "....-");
     (rune "5", "....."); (rune "6", "-...."); (rune "7", "--...");
     (rune "8", "---.."); (rune "9", "----.");
     (rune "/", "-..-."); (rune "?", "..--.."); (rune ".", ".-.-.-");
     (rune ",", "--..--")]%string.

(** [calculateMorseTiming] calculates timing from WPM using the PARIS
    standard; the five results are [dotDuration], [dashDuration],
    [elementGap], [charGap] and [wordGap]. *)
Definition calculateMorseTiming (wpm : Z) : option (Z * Z * Z * Z * Z) :=
  let wpm := if wpm <=? 0 then 20 else wpm in
  timeUnit ← int_quot 60000 (int_mul wpm 50);
  let dotDuration := timeUnit in
  let dashDuration := int_mul timeUnit 3 in
  let elementGap := timeUnit in
  let charGap := int_mul timeUnit 3 in
  let wordGap := int_mul timeUnit 7 in
  Some (dotDuration, dashDuration, elementGap, charGap, wordGap).

(** [int(float64(d) * sampleRate / 1000)] *)
Definition msToSamples (d : Z) : Z :=
  int_of_f64 (f64_div (f64_mul (f64_of_int d) (f64_of_int sampleRate))
                      (f64_of_int 1000)).

(** [make([]int16, n)] *)
Definition make (n : Z) : option (list Z) :=
  if n <? 0 then None else Some (replicate (Z.to_nat n) 0).

(** [s[i] = v] *)
Definition store (s : list Z) (i v : Z) : option (list Z) :=
  if (0 <=? i) && (i <? len s) then Some (<[Z.to_nat i := v]> s) else None.

(** A [for ... range] loop whose body may panic. *)
Fixpoint forEach {A S : Type} (body : S -> A -> option S) (l : list A) (st : S)
  : option S :=
  match l with
  | [] => Some st
  | x :: l' => st' ← body st x; forEach body l' st'
  end.

Section Tone.
Context `{GoRuntime}.

(** [int16(math.Sin(2*math.Pi*float64(freq)*float64(i)/float64(sampleRate)) * 32767)] *)
Definition toneSample (freq i : Z) : Z :=
  int16_of_f64
    (f64_mul
       (math_Sin
          (f64_div (f64_mul (f64_mul twoPi (f64_of_int freq)) (f64_of_int i))
                   (f64_of_int sampleRate)))
       (f64_of_int 32767)).

(** [text[i+1] != ' '] behind its guard [i < len(text)-1] *)
Definition charGapFollows (text : string) (i : Z) : option bool :=
  if i <? slen text - 1
  then (b ← index text (i + 1); Some (negb (b =? rune " ")))
  else Some false.

End Tone.

(** ** [main.go]: the version with pre-generated samples *)

Module Pregen.

(** Pre-generated audio samples for each character *)
Record morseAudio : Type := {
  dotSamples : list Z;
  dashSamples : list Z;
  elementGap : list Z;
  charGap : list Z;
  wordGap : list Z;
  charSamples : gmap Z (list Z)
}.

Section Code.
Context `{GoRuntime}.

(** [for i := 0; i < n; i++ { tone[i] = ... }] *)
Definition fillTone (freq n : Z) (tone : list Z) : option (list Z) :=
  forEach (fun tone i => store tone i (toneSample freq i)) (seqZ 0 n) tone.

(** The body of [for i, element := range morse]. *)
Definition appendElement (dot dash elementGapAudio : list Z) (morse : string)
    (samples : list Z) (ie : Z * Z) : list Z :=
  let '(i, element) := ie in
  let samples :=
    if element =? rune "." then samples ++ dot
    else if element =? rune "-" then samples ++ dash
    else samples in
  if i <? slen morse - 1 then samples ++ elementGapAudio else samples.

(** [newMorseAudio] creates a new [morseAudio] instance with
    pre-generated samples. *)
Definition newMorseAudio (wpm freq : Z) : option morseAudio :=
  '(dotDuration, dashDuration, elementGap, charGap, wordGap) ←
    calculateMorseTiming wpm;
  let dotSamples := msToSamples dotDuration in
  let dashSamples := msToSamples dashDuration in
  let elementGapSamples := msToSamples elementGap in
  let charGapSamples := msToSamples charGap in
  let wordGapSamples := msToSamples wordGap in
  dot ← make dotSamples;
  dash ← make dashSamples;
  elementGapAudio ← make elementGapSamples;
  charGapAudio ← make charGapSamples;
  wordGapAudio ← make wordGapSamples;
  dot ← fillTone freq dotSamples dot;
  dash ← fillTone freq dashSamples dash;
  let charSamples :=
    (fun morse : string =>
       foldl (appendElement dot dash elementGapAudio morse) []
             (rangeString morse)) <$> morseCodeMap in
  Some {| dotSamples := dot; dashSamples := dash;
          elementGap := elementGapAudio; charGap := charGapAudio;
          wordGap := wordGapAudio; charSamples := charSamples |}.

(** The body of the first loop of [generateMorseAudio]. *)
Definition sizeStep (morse : morseAudio) (text : string) (totalSamples : Z)
    (ic : Z * Z) : option Z :=
  let '(i, char) := ic in
  if char =? rune " " then Some (int_add totalSamples (len (wordGap morse)))
  else
    match charSamples morse !! char with
    | Some samples =>
        let totalSamples := int_add totalSamples (len samples) in
        g ← charGapFollows text i;
        Some (if g : bool then int_add totalSamples (len (charGap morse))
              else totalSamples)
    | None => Some totalSamples
    end.

(** [copy(samples[currentSample:], src)]: the slice expression panics
    when [currentSample] is out of range; [copy] stops at the end of
    the shorter slice. *)
Definition copyAt (samples : list Z) (currentSample : Z) (src : list Z)
  : option (list Z) :=
  if (0 <=? currentSample) && (currentSample <=? len samples)
  then Some (list_inserts (Z.to_nat currentSample) src samples)
  else None.

(** The body of the second loop; the state is [(samples, currentSample)]. *)
Definition fillStep (morse : morseAudio) (text : string) (st : list Z * Z)
    (ic : Z * Z) : option (list Z * Z) :=
  let '(samples, currentSample) := st in
  let '(i, char) := ic in
  if char =? rune " " then
    samples ← copyAt samples currentSample (wordGap morse);
    Some (samples, int_add currentSample (len (wordGap morse)))
  else
    match charSamples morse !! char with
    | Some charSamples =>
        samples ← copyAt samples currentSample charSamples;
        let currentSample := int_add currentSample (len charSamples) in
        g ← charGapFollows text i;
        if g : bool then
          samples ← copyAt samples currentSample (charGap morse);
          Some (samples, int_add currentSample (len (charGap morse)))
        else Some (samples, currentSample)
    | None => Some (samples, currentSample)
    end.

(** [generateMorseAudio] up to its [return]: the result is
    [(samples, totalSamples, currentSample)]. *)
Definition run (text : string) (wpm freq : Z) : option (list Z * Z * Z) :=
  morse ← newMorseAudio wpm freq;
  let upper := rangeString (strings_ToUpper text) in
  totalSamples ← forEach (sizeStep morse text) upper 0;
  samples ← make totalSamples;
  '(samples, currentSample) ← forEach (fillStep morse text) upper (samples, 0);
  Some (samples, totalSamples, currentSample).

(** [generateMorseAudio] generates audio for a given text in Morse code. *)
Definition generateMorseAudio (text : string) (wpm freq : Z)
  : option (list Z * Z) :=
  '(samples, totalSamples, _) ← run text wpm freq;
  Some (samples, totalSamples).

End Code.

End Pregen.

(** ** The earlier version: tones generated inline *)

Module Inline.

(** The state of the generation pass.  [suppressed] is not a variable
    of the program: it counts the assignments that the bounds guard
    [currentSample+k < len(samples)] has skipped. *)
Record cursor : Type := {
  samples : list Z;
  currentSample : Z;
  suppressed : Z
}.

Section Code.
Context `{GoRuntime}.

(** The body of [for j, element := range morse] in the first loop. *)
Definition sizeElement (dotSamples dashSamples elementGapSamples : Z)
    (morse : string) (totalSamples : Z) (je : Z * Z) : Z :=
  let '(j, element) := je in
  let totalSamples :=
    if element =? rune "." then int_add totalSamples dotSamples
    else if element =? rune "-" then int_add totalSamples dashSamples
    else totalSamples in
  if j <? slen morse - 1 then int_add totalSamples elementGapSamples
  else totalSamples.

(** The body of the first loop of [generateMorseAudio]. *)
Definition sizeStep (dotSamples dashSamples elementGapSamples charGapSamples
    wordGapSamples : Z) (text : string) (totalSamples : Z) (ic : Z * Z)
  : option Z :=
  let '(i, char) := ic in
  if char =? rune " " then Some (int_add totalSamples wordGapSamples)
  else
    match morseCodeMap !! char with
    | Some morse =>
        let totalSamples :=
          foldl (sizeElement dotSamples dashSamples elementGapSamples morse)
                totalSamples (rangeString morse) in
        g ← charGapFollows text i;
        Some (if g : bool then int_add totalSamples charGapSamples
              else totalSamples)
    | None => Some totalSamples
    end.

(** The body of [for k := 0; k < duration; k++]. *)
Definition toneStep (freq : Z) (st : cursor) (k : Z) : option cursor :=
  let at_ := int_add (currentSample st) k in
  if at_ <? len (samples st) then
    s ← store (samples st) at_ (toneSample freq k);
    Some {| samples := s; currentSample := currentSample st;
            suppressed := suppressed st |}
  else
    Some {| samples := samples st; currentSample := currentSample st;
            suppressed := suppressed st + 1 |}.

Definition advance (st : cursor) (n : Z) : cursor :=
  {| samples := samples st; currentSample := int_add (currentSample st) n;
     suppressed := suppressed st |}.

(** The body of [for j, element := range morse] in the second loop. *)
Definition fillElement (dotSamples dashSamples elementGapSamples freq : Z)
    (morse : string) (st : cursor) (je : Z * Z) : option cursor :=
  let '(j, element) := je in
  let duration := if element =? rune "-" then dashSamples else dotSamples in
  st ← forEach (toneStep freq) (seqZ 0 duration) st;
  let st := advance st duration in
  Some (if j <? slen morse - 1 then advance st elementGapSamples else st).

(** The body of the second loop. *)
Definition fillStep (dotSamples dashSamples elementGapSamples charGapSamples
    wordGapSamples freq : Z) (text : string) (st : cursor) (ic : Z * Z)
  : option cursor :=
  let '(i, char) := ic in
  if char =? rune " " then Some (advance st wordGapSamples)
  else
    match morseCodeMap !! char with
    | Some morse =>
        st ← forEach
               (fillElement dotSamples dashSamples elementGapSamples freq morse)
               (rangeString morse) st;
        g ← charGapFollows text i;
        Some (if g : bool then advance st charGapSamples else st)
    | None => Some st
    end.

(** [generateMorseAudio] up to its [return]: [totalSamples] and the
    final state of the generation pass. *)
Definition run (text : string) (wpm freq : Z) : option (Z * cursor) :=
  '(dotDuration, dashDuration, elementGap, charGap, wordGap) ←
    calculateMorseTiming wpm;
  let dotSamples := msToSamples dotDuration in
  let dashSamples := msToSamples dashDuration in
  let elementGapSamples := msToSamples elementGap in
  let charGapSamples := msToSamples charGap in
  let wordGapSamples := msToSamples wordGap in
  let upper := rangeString (strings_ToUpper text) in
  totalSamples ←
    forEach (sizeStep dotSamples dashSamples elementGapSamples charGapSamples
                      wordGapSamples text) upper 0;
  samples ← make totalSamples;
  st ← forEach (fillStep dotSamples dashSamples elementGapSamples
                         charGapSamples wordGapSamples freq text) upper
         {| samples := samples; currentSample := 0; suppressed := 0 |};
  Some (totalSamples, st).

(** [generateMorseAudio] generates audio for a given text in Morse code. *)
Definition generateMorseAudio (text : string) (wpm freq : Z)
  : option (list Z * Z) :=
  '(totalSamples, st) ← run text wpm freq;
  Some (samples st, totalSamples).

End Code.

End Inline.

(** ** The WAV container ([writeWavHeader] and the buffer of [main]) *)

(** [binary.Write(w, binary.LittleEndian, v)] for a [uint32] and for a
    16-bit value. *)
Definition putUint32 (w : list Z) (v : Z) : list Z :=
  w ++ [Z.land v 255; Z.land (Z.shiftr v 8) 255;
        Z.land (Z.shiftr v 16) 255; Z.land (Z.shiftr v 24) 255].

Definition putUint16 (w : list Z) (v : Z) : list Z :=
  w ++ [Z.land v 255; Z.land (Z.shiftr v 8) 255].

Definition writeWavHeader (w : list Z) (dataSize sampleRate : Z) : list Z :=
  (* RIFF header *)
  let w := w ++ bytes "RIFF" in
  let w := putUint32 w (uint32 (int_add 36 dataSize)) in
  let w := w ++ bytes "WAVE" in
  (* fmt chunk *)
  let w := w ++ bytes "fmt " in
  let w := putUint32 w (uint32 16) in
  let w := putUint16 w (uint16 1) in
  let w := putUint16 w (uint16 1) in
  let w := putUint32 w (uint32 sampleRate) in
  let w := putUint32 w (uint32 (int_mul sampleRate 2)) in
  let w := putUint16 w (uint16 2) in
  let w := putUint16 w (uint16 16) in
  (* data chunk *)
  let w := w ++ bytes "data" in
  putUint32 w (uint32 dataSize).

(** The buffer that [main] hands to the decoder: the header, then every
    sample written with [binary.Write]. *)
Definition wavBuffer (samples : list Z) (totalSamples : Z) : list Z :=
  let buf := writeWavHeader [] (int_mul totalSamples 2) sampleRate in
  foldl (fun buf sample => putUint16 buf (uint16 sample)) buf samples.

(** Reading the fields back. *)
Definition getUint32 (b : list Z) : Z :=
  match b with
  | [b0; b1; b2; b3] =>
      Z.lor (Z.lor (Z.lor b0 (Z.shiftl b1 8)) (Z.shiftl b2 16)) (Z.shiftl b3 24)
  | _ => 0
  end.

Definition getUint16 (b : list Z) : Z :=
  match b with
  | [b0; b1] => Z.lor b0 (Z.shiftl b1 8)
  | _ => 0
  end.

Definition field (buf : list Z) (off n : nat) : list Z := take n (drop off buf).

(** ** A runtime to evaluate examples with

    A cubic polynomial stands in for the sine, and the case table knows
    the two runes below U+0180 whose upper case is an ASCII letter
    (U+0131 dotless i and U+017F long s); nothing that is proved for
    every [GoRuntime] depends on it. *)
Definition exampleSin (x : float64) : float64 :=
  SFsub 53 1024 x (f64_div (f64_mul (f64_mul x x) x) (f64_of_int 6)).

Definition exampleUpperCase (r : Z) : Z :=
  if r =? 305 then 73 else if r =? 383 then 83 else r.

Definition exampleRuntime : GoRuntime :=
  {| math_Sin := exampleSin; unicode_upperCase := exampleUpperCase |}.

(** ** The rendering of a text, as a function

    What the two passes of [generateMorseAudio] compute together: the
    concatenation, over the runes of the upper-cased text, of the audio of
    each rune. *)

Definition samplesExact (d : Z) : bool :=
  msToSamples d =? Z.quot (d * sampleRate) 1000.

Definition unitExact (t : Z) : bool :=
  samplesExact t && samplesExact (3 * t) && samplesExact (7 * t)
  && samplesExact (- t) && samplesExact (- (3 * t)) && samplesExact (- (7 * t)).

Fixpoint allBelow (f : Z -> bool) (n : nat) : bool :=
  match n with
  | O => true
  | S k => f (Z.of_nat k) && allBelow f k
  end.

(** The time unit of [calculateMorseTiming]. *)
Definition timeUnit (wpm : Z) : Z :=
  Z.quot 60000 (wrap64 ((if wpm <=? 0 then 20 else wpm) * 50)).

Definition silence (n : Z) : list Z := replicate (Z.to_nat n) 0.

(** The audio of one mark of a character: the tone, then the element gap
    unless the mark is the last one. *)
Definition markAudio (dot dash gap : list Z) (morse : string) (ie : Z * Z)
  : list Z :=
  (if ie.2 =? rune "." then dot else if ie.2 =? rune "-" then dash else [])
  ++ (if ie.1 <? slen morse - 1 then gap else []).

Definition charAudio (dot dash gap : list Z) (morse : string) : list Z :=
  mjoin (markAudio dot dash gap morse <$> rangeString morse).

(** [i < len(text)-1 && text[i+1] != ' '] *)
Definition gapAfter (text : string) (i : Z) : bool :=
  (i <? slen text - 1) && negb (default 0 (index text (i + 1)) =? rune " ").

Section Rendering.
Context `{GoRuntime}.

Definition tone (freq n : Z) : list Z := toneSample freq <$> seqZ 0 n.

Definition segment (wpm freq : Z) (text : string) (ic : Z * Z) : list Z :=
  let t := timeUnit wpm in
  if ic.2 =? rune " " then silence (msToSamples (t * 7))
  else
    match morseCodeMap !! ic.2 with
    | Some morse =>
        charAudio (tone freq (msToSamples t)) (tone freq (msToSamples (t * 3)))
                  (silence (msToSamples t)) morse
        ++ (if gapAfter text ic.1 then silence (msToSamples (t * 3)) else [])
    | None => []
    end.

Definition rendering (text : string) (wpm freq : Z) : list Z :=
  mjoin (segment wpm freq text <$> rangeString (strings_ToUpper text)).

End Rendering.

(** Every byte of an ASCII string is a rune of its own. *)
Fixpoint enumFrom (i : Z) (p : list Z) : list (Z * Z) :=
  match p with
  | [] => []
  | b :: p' => (i, b) :: enumFrom (i + 1) p'
  end.

(** What holds of every entry of [morseCodeMap]: one to six marks, each a
    dot or a dash. *)
Definition wellFormedCode (morse : string) : bool :=
  forallb (fun b => (b =? rune ".") || (b =? rune "-")) (bytes morse)
  && (1 <=? slen morse) && (slen morse <=? 6).

Section Pregenerated.
Context `{GoRuntime}.

(** The tables that [newMorseAudio] builds. *)
Definition pregenerated (wpm freq : Z) : Pregen.morseAudio :=
  let t := timeUnit wpm in
  let dot := tone freq (msToSamples t) in
  let dash := tone freq (msToSamples (t * 3)) in
  let gap := silence (msToSamples t) in
  {| Pregen.dotSamples := dot;
     Pregen.dashSamples := dash;
     Pregen.elementGap := gap;
     Pregen.charGap := silence (msToSamples (t * 3));
     Pregen.wordGap := silence (msToSamples (t * 7));
     Pregen.charSamples := charAudio dot dash gap <$> morseCodeMap |}.

End Pregenerated.

(** A state of the inline generation pass: [done_] has been written, [m]
    cells of the zero-initialised buffer are left. *)
Definition cursorAt (done_ : list Z) (m sup : Z) : Inline.cursor :=
  {| Inline.samples := done_ ++ silence m;
     Inline.currentSample := len done_;
     Inline.suppressed := sup |}.

(** Whether a rune has an entry in [morseCodeMap]. *)
Definition known (c : Z) : bool :=
  match morseCodeMap !! c with Some _ => true | None => false end.

(** What stands between the renderings of two ASCII texts when they are
    rendered as one text: a character gap when the first ends with a
    supported character and the second does not begin with a space. *)
Definition junction (wpm : Z) (s1 s2 : string) : list Z :=
  match last (bytes s1), head (bytes s2) with
  | Some c, Some d =>
      if known (asciiUpper c) && negb (d =? rune " ")
      then silence (msToSamples (timeUnit wpm * 3)) else []
  | _, _ => []
  end.

(** The number of samples of a rendering, by summation. *)
Definition markSize (dotN dashN gapN : Z) (morse : string) (ie : Z * Z) : Z :=
  (if ie.2 =? rune "." then dotN else if ie.2 =? rune "-" then dashN else 0)
  + (if ie.1 <? slen morse - 1 then gapN else 0).

Definition sumOf {A} (f : A -> Z) (l : list A) : Z :=
  foldr (fun x acc => f x + acc) 0 l.

Definition segmentSize (wpm : Z) (text : string) (ic : Z * Z) : Z :=
  let t := timeUnit wpm in
  if ic.2 =? rune " " then msToSamples (t * 7)
  else
    match morseCodeMap !! ic.2 with
    | Some morse =>
        sumOf (markSize (msToSamples t) (msToSamples (t * 3)) (msToSamples t) morse)
              (rangeString morse)
        + (if gapAfter text ic.1 then msToSamples (t * 3) else 0)
    | None => 0
    end.

Section RenderingSize.
Context `{GoRuntime}.

Definition renderingSize (text : string) (wpm : Z) : Z :=
  sumOf (segmentSize wpm text) (rangeString (strings_ToUpper text)).

End RenderingSize.

(** Two texts with a rune whose upper case is shorter than the rune:
    U+017F (long s, bytes C5 BF), followed by [O S], and twice U+017F
    followed by [ AB]. *)
Definition longS : string := String (byteChar 197) (String (byteChar 191) "").
Definition text_sOS : string := (longS ++ "O S")%string.
Definition text_ssAB : string := (longS ++ longS ++ " AB")%string.

Section LetterAudio.
Context `{GoRuntime}.

(** The audio of a character whose code is [morse]. *)
Definition letterAudio (wpm freq : Z) (morse : string) : list Z :=
  charAudio (tone freq (msToSamples (timeUnit wpm)))
            (tone freq (msToSamples (timeUnit wpm * 3)))
            (silence (msToSamples (timeUnit wpm))) morse.

End LetterAudio.

(** The two bytes that [binary.Write] appends for one sample. *)
Definition sampleBytes (sample : Z) : list Z := putUint16 [] (uint16 sample).

(** Reading the samples back from the data chunk: the inverse of the
    loop of [main] that writes them, two bytes each, as signed 16-bit
    values. *)
Fixpoint readSamples (data : list Z) : list Z :=
  match data with
  | b0 :: b1 :: data' => wrap16 (getUint16 [b0; b1]) :: readSamples data'
  | _ => []
  end.

Definition isInt16 (s : Z) : Prop := - 2 ^ 15 <= s < 2 ^ 15.

(** The number of dots and of dashes of a code. *)
Definition countMark (mark : Z) (morse : string) : Z :=
  sumOf (fun b => if b =? mark then 1 else 0) (bytes morse).

(** A text of [n] spaces. *)
Fixpoint spaces (n : nat) : string :=
  match n with
  | O => ""
  | S k => String " " (spaces k)
  end.

(** A text of [n] characters [0]. *)
Fixpoint zeros (n : nat) : string :=
  match n with
  | O => ""
  | S k => String "0" (zeros k)
  end.

Section ToneExpression.
Context `{GoRuntime}.

(** The two floats inside the expression of [toneSample]: the argument
    [2*math.Pi*float64(freq)*float64(i)/float64(sampleRate)] of the
    sine, and the product [math.Sin(...) * 32767] that [int16]
    converts. *)
Definition toneArg (freq i : Z) : float64 :=
  f64_div (f64_mul (f64_mul twoPi (f64_of_int freq)) (f64_of_int i))
          (f64_of_int sampleRate).

Definition toneProduct (freq i : Z) : float64 :=
  f64_mul (math_Sin (toneArg freq i)) (f64_of_int 32767).

End ToneExpression.

(** A float that is a zero or a finite number whose mantissa and
    exponent are at most [M] and [E]. *)
Definition finite_within (M E : Z) (x : float64) : Prop :=
  match x with
  | S754_zero _ => True
  | S754_finite _ m e => Zpos m <= M /\ e <= E
  | _ => False
  end.

(** A second runtime to evaluate examples with; its sine is the
    polynomial x - x^3/6 + x^5/120, which lies above the sine on
    [0, pi] as the cubic of [exampleSin] lies below it. *)
Definition upperSin (x : float64) : float64 :=
  SFadd 53 1024 (exampleSin x)
        (f64_div (f64_mul (f64_mul (f64_mul (f64_mul x x) x) x) x)
                 (f64_of_int 120)).

Definition upperRuntime : GoRuntime :=
  {| math_Sin := upperSin; unicode_upperCase := exampleUpperCase |}.

(** * Properties *)

(** ** Integers and timing *)

Lemma wrap64_id z : is_int z -> wrap64 z = z.
Proof.
  unfold is_int, intMin, intMax, wrap64. intros Hz.
  rewrite Z.mod_small; lia.
Qed.

Lemma wrap64_range z : is_int (wrap64 z).
Proof.
  unfold is_int, intMin, intMax, wrap64.
  pose proof (Z.mod_pos_bound (z + 2 ^ 63) (2 ^ 64)). lia.
Qed.

Lemma int_add_plain a b : is_int (a + b) -> int_add a b = a + b.
Proof. apply wrap64_id. Qed.

(** The divisor [wpm * 50] never wraps to zero: 25 is a unit modulo 2^63. *)
Lemma wrap64_even_nonzero w : 0 < w < 2 ^ 63 -> wrap64 (w * 50) <> 0.
Proof.
  intros Hw Hz. unfold wrap64 in Hz.
  pose proof (Z.div_mod (w * 50 + 2 ^ 63) (2 ^ 64)) as Hd.
  set (q := (w * 50 + 2 ^ 63) / 2 ^ 64) in *.
  assert (Hq : w * 25 = q * 2 ^ 63) by lia.
  assert (Hgcd : Z.gcd (2 ^ 63) 25 = 1) by reflexivity.
  assert (Hdiv : (2 ^ 63 | 25 * w)) by (exists q; lia).
  apply Z.gauss in Hdiv; [|exact Hgcd].
  destruct Hdiv as [k Hk]. lia.
Qed.

Lemma quot_bound a b : 0 <= a -> b <> 0 -> - a <= Z.quot a b <= a.
Proof.
  intros Ha Hb.
  pose proof (Z.quot_abs a b Hb) as Habs.
  assert (Z.abs a ÷ Z.abs b <= Z.abs a).
  { rewrite Z.quot_div_nonneg by lia.
    apply Z.div_le_upper_bound; [lia|]. nia. }
  lia.
Qed.

Lemma timing_divisor wpm : is_int wpm ->
  wrap64 ((if wpm <=? 0 then 20 else wpm) * 50) <> 0.
Proof.
  intros [Hlo Hhi]. unfold intMin, intMax in *.
  destruct (Z.leb_spec wpm 0).
  - vm_compute. discriminate.
  - apply wrap64_even_nonzero. lia.
Qed.

Lemma timeUnit_bound wpm : is_int wpm -> -60000 <= timeUnit wpm <= 60000.
Proof.
  intros Hw. unfold timeUnit.
  apply (quot_bound 60000); [lia|]. by apply timing_divisor.
Qed.

Lemma calculateMorseTiming_unit wpm : is_int wpm ->
  calculateMorseTiming wpm =
    Some (timeUnit wpm, timeUnit wpm * 3, timeUnit wpm, timeUnit wpm * 3,
          timeUnit wpm * 7).
Proof.
  intros Hw. pose proof (timeUnit_bound wpm Hw) as Hb.
  pose proof (timing_divisor wpm Hw) as Hd.
  unfold calculateMorseTiming, int_quot, int_mul.
  fold (timeUnit wpm) in *.
  destruct (Z.eqb_spec (wrap64 ((if wpm <=? 0 then 20 else wpm) * 50)) 0) as [E|_];
    [done|].
  fold (timeUnit wpm). simpl.
  rewrite (wrap64_id (timeUnit wpm)) by (unfold is_int, intMin, intMax; lia).
  rewrite !wrap64_id by (unfold is_int, intMin, intMax; lia).
  reflexivity.
Qed.

(** When [wpm * 50] does not overflow the time unit is [60000 / (wpm * 50)]. *)
Lemma timeUnit_plain wpm : 0 < wpm <= intMax / 50 ->
  timeUnit wpm = 60000 / (wpm * 50) /\ 0 <= timeUnit wpm.
Proof.
  intros Hw. unfold timeUnit.
  assert (Hmax : intMax / 50 = 184467440737095516) by reflexivity.
  destruct (Z.leb_spec wpm 0); [lia|].
  rewrite wrap64_id by (unfold is_int, intMin, intMax; lia).
  rewrite Z.quot_div_nonneg by lia.
  split; [done|]. apply Z.div_pos; lia.
Qed.

Lemma timeUnit_default wpm : wpm <= 0 -> timeUnit wpm = 60.
Proof. intros Hw. unfold timeUnit. by destruct (Z.leb_spec wpm 0); [|lia]. Qed.

(** ** The conversion from milliseconds to samples *)

Lemma allBelow_spec f n z :
  allBelow f n = true -> 0 <= z < Z.of_nat n -> f z = true.
Proof.
  induction n as [|k IH]; simpl; [lia|].
  rewrite andb_true_iff. intros [Hk Hall] Hz.
  destruct (Z.eq_dec z (Z.of_nat k)) as [->|Hne]; [done|].
  apply IH; [done|lia].
Qed.

(** Every quotient [60000 / d] is below 246 or has [d] below 246: the
    floating-point conversion is evaluated on all of them. *)
Lemma quotientsExact :
  allBelow unitExact 246 = true /\
  allBelow (fun d => unitExact (60000 / (d + 1))) 245 = true.
Proof. split; vm_cast_no_check (eq_refl true). Qed.

Lemma unitExact_nonneg d : 1 <= d -> unitExact (60000 / d) = true.
Proof.
  intros Hd. destruct quotientsExact as [Hsmall Hlarge].
  destruct (Z.le_gt_cases d 245).
  - pose proof (allBelow_spec _ _ (d - 1) Hlarge ltac:(lia)) as Hx.
    simpl in Hx. by replace (d - 1 + 1) with d in Hx by lia.
  - apply (allBelow_spec _ _ _ Hsmall).
    pose proof (Z.div_pos 60000 d ltac:(lia) ltac:(lia)).
    assert (60000 / d < 246); [|lia].
    apply Z.div_lt_upper_bound; lia.
Qed.

Lemma unitExact_opp t : unitExact t = true -> unitExact (- t) = true.
Proof.
  unfold unitExact. rewrite !andb_true_iff.
  replace (3 * - t) with (- (3 * t)) by lia.
  replace (7 * - t) with (- (7 * t)) by lia.
  rewrite !Z.opp_involutive. tauto.
Qed.

Lemma unitExact_quot d : d <> 0 -> unitExact (Z.quot 60000 d) = true.
Proof.
  intros Hd. destruct (Z.lt_ge_cases d 0).
  - replace d with (- (- d)) by lia. rewrite Z.quot_opp_r by lia.
    apply unitExact_opp. rewrite Z.quot_div_nonneg by lia.
    apply unitExact_nonneg. lia.
  - rewrite Z.quot_div_nonneg by lia. apply unitExact_nonneg. lia.
Qed.

Lemma msToSamples_unit wpm : is_int wpm ->
  msToSamples (timeUnit wpm) = Z.quot (timeUnit wpm * 44100) 1000 /\
  msToSamples (timeUnit wpm * 3) = Z.quot (timeUnit wpm * 3 * 44100) 1000 /\
  msToSamples (timeUnit wpm * 7) = Z.quot (timeUnit wpm * 7 * 44100) 1000.
Proof.
  intros Hw. pose proof (unitExact_quot _ (timing_divisor wpm Hw)) as Hu.
  fold (timeUnit wpm) in Hu.
  unfold unitExact, samplesExact, sampleRate in Hu.
  rewrite !andb_true_iff, !Z.eqb_eq in Hu.
  rewrite (Z.mul_comm (timeUnit wpm) 3), (Z.mul_comm (timeUnit wpm) 7). tauto.
Qed.

Lemma quot_44100_bounds d :
  (0 <= d -> 0 <= Z.quot (d * 44100) 1000 <= d * 45) /\
  (d < 0 -> Z.quot (d * 44100) 1000 < 0).
Proof.
  split; intros Hd.
  - rewrite Z.quot_div_nonneg by lia. split.
    + apply Z.div_pos; lia.
    + apply Z.div_le_upper_bound; lia.
  - replace (d * 44100) with (- (- d * 44100)) by lia.
    rewrite Z.quot_opp_l by lia. rewrite Z.quot_div_nonneg by lia.
    assert (1 <= (- d * 44100) / 1000); [|lia].
    apply Z.div_le_lower_bound; lia.
Qed.

(** The five sample counts when the time unit is not negative. *)
Lemma counts_nonneg wpm : is_int wpm -> 0 <= timeUnit wpm ->
  0 <= msToSamples (timeUnit wpm) <= 2700000 /\
  0 <= msToSamples (timeUnit wpm * 3) <= 8100000 /\
  0 <= msToSamples (timeUnit wpm * 7) <= 18900000.
Proof.
  intros Hw Ht. pose proof (timeUnit_bound wpm Hw).
  destruct (msToSamples_unit wpm Hw) as (-> & -> & ->).
  pose proof (proj1 (quot_44100_bounds (timeUnit wpm)) ltac:(lia)).
  pose proof (proj1 (quot_44100_bounds (timeUnit wpm * 3)) ltac:(lia)).
  pose proof (proj1 (quot_44100_bounds (timeUnit wpm * 7)) ltac:(lia)).
  lia.
Qed.

Lemma counts_negative wpm : is_int wpm -> timeUnit wpm < 0 ->
  msToSamples (timeUnit wpm) < 0 /\
  msToSamples (timeUnit wpm * 3) < 0 /\
  msToSamples (timeUnit wpm * 7) < 0.
Proof.
  intros Hw Ht.
  destruct (msToSamples_unit wpm Hw) as (-> & -> & ->).
  pose proof (proj2 (quot_44100_bounds (timeUnit wpm)) ltac:(lia)).
  pose proof (proj2 (quot_44100_bounds (timeUnit wpm * 3)) ltac:(lia)).
  pose proof (proj2 (quot_44100_bounds (timeUnit wpm * 7)) ltac:(lia)).
  lia.
Qed.

(** ** Strings and runes *)

Lemma length_bytes s : length (bytes s) = String.length s.
Proof.
  unfold bytes. rewrite length_fmap.
  induction s as [|c s IH]; simpl; congruence.
Qed.

Lemma len_bytes s : len (bytes s) = slen s.
Proof. unfold len, slen. by rewrite length_bytes. Qed.

Lemma bytes_app s1 s2 : bytes (s1 ++ s2)%string = bytes s1 ++ bytes s2.
Proof.
  unfold bytes. rewrite <- fmap_app. f_equal.
  induction s1 as [|c s1 IH]; simpl; [done|by rewrite IH].
Qed.

Lemma byteVal_range c : 0 <= byteVal c < 256.
Proof. destruct c as [[] [] [] [] [] [] [] []]; vm_compute; split; congruence. Qed.

Lemma byteChar_byteVal c : byteChar (byteVal c) = c.
Proof.
  unfold byteChar, byteVal. rewrite N2Z.id. apply ascii_N_embedding.
Qed.

Lemma byteVal_byteChar b : 0 <= b < 256 -> byteVal (byteChar b) = b.
Proof.
  intros Hb. unfold byteChar, byteVal.
  rewrite N_ascii_embedding by lia. lia.
Qed.

Lemma bytes_range s : Forall (fun b => 0 <= b < 256) (bytes s).
Proof.
  unfold bytes. induction s as [|c s IH]; simpl; constructor; auto using byteVal_range.
Qed.

Lemma bytes_string_of_bytes l :
  Forall (fun b => 0 <= b < 256) l -> bytes (string_of_bytes l) = l.
Proof.
  unfold bytes, string_of_bytes. rewrite list_ascii_of_string_of_list_ascii.
  induction 1 as [|b l Hb _ IH]; [done|].
  rewrite !fmap_cons. by rewrite byteVal_byteChar, IH.
Qed.

Lemma string_of_bytes_bytes s : string_of_bytes (bytes s) = s.
Proof.
  unfold bytes, string_of_bytes.
  rewrite <- (string_of_list_ascii_of_string s) at 2. f_equal.
  induction (list_ascii_of_string s) as [|c l IH]; [done|].
  rewrite !fmap_cons. by rewrite byteChar_byteVal, IH.
Qed.

Lemma length_string_of_bytes l : String.length (string_of_bytes l) = length l.
Proof.
  unfold string_of_bytes. induction l as [|b l IH]; [done|].
  rewrite fmap_cons. simpl. by rewrite IH.
Qed.

Lemma index_bytes s i : 0 <= i -> index s i = bytes s !! Z.to_nat i.
Proof. intros Hi. unfold index. by destruct (Z.ltb_spec i 0); [lia|]. Qed.

(** *** [range] over a string *)

#[local] Arguments decodeRune : simpl never.

Lemma decodeRune_width p : p <> [] -> (1 <= (decodeRune p).2 <= 4)%nat.
Proof.
  destruct p as [|b0 p]; [done|]. intros _. unfold decodeRune.
  repeat (match goal with
          | |- context [if ?c then _ else _] => destruct c
          | |- context [match ?l with [] => _ | _ :: _ => _ end] => destruct l
          end; simpl; try lia).
Qed.

Lemma rangeFrom_length k i p : (length (rangeFrom k i p) <= length p)%nat.
Proof.
  revert k i. induction p as [|b p IH]; intros k i; simpl; [lia|].
  destruct k as [|k].
  - destruct (decodeRune (b :: p)) as [r w]. simpl.
    specialize (IH (w - 1)%nat (i + 1)). lia.
  - specialize (IH k (i + 1)). lia.
Qed.

Lemma rangeFrom_offsets k i p :
  Forall (fun ic => i <= ic.1 < i + len p) (rangeFrom k i p).
Proof.
  revert k i. induction p as [|b p IH]; intros k i; simpl; [constructor|].
  assert (Hshift : forall k', Forall (fun ic => i <= ic.1 < i + len (b :: p))
                                     (rangeFrom k' (i + 1) p)).
  { intros k'. eapply Forall_impl; [apply IH|].
    intros ic. unfold len. simpl length. lia. }
  destruct k as [|k]; [|apply Hshift].
  destruct (decodeRune (b :: p)) as [r w]. constructor; [|apply Hshift].
  unfold len. simpl. lia.
Qed.

Lemma rangeString_offsets s :
  Forall (fun ic => 0 <= ic.1 < slen s) (rangeString s).
Proof.
  unfold rangeString. rewrite <- len_bytes.
  eapply Forall_impl; [apply (rangeFrom_offsets 0 0)|]. intros ic; simpl; lia.
Qed.

Lemma rangeFrom_ascii i p :
  forallb (fun b => b <? 128) p = true -> rangeFrom 0 i p = enumFrom i p.
Proof.
  revert i. induction p as [|b p IH]; intros i; simpl; [done|].
  rewrite andb_true_iff. intros [Hb Hp]. unfold decodeRune. rewrite Hb.
  simpl. by rewrite IH.
Qed.

Lemma rangeString_ascii s : isASCII s = true -> rangeString s = enumFrom 0 (bytes s).
Proof. apply rangeFrom_ascii. Qed.

(** ** Loops and buffers *)

#[local] Arguments store : simpl never.
#[local] Arguments make : simpl never.
#[local] Arguments int_add : simpl never.
#[local] Arguments len : simpl never.
#[local] Arguments seqZ : simpl never.
#[local] Arguments msToSamples : simpl never.
#[local] Arguments timeUnit : simpl never.

Lemma forEach_app {A S} (body : S -> A -> option S) l1 l2 st :
  forEach body (l1 ++ l2) st = forEach body l1 st ≫= forEach body l2.
Proof.
  revert st. induction l1 as [|x l1 IH]; intros st; simpl; [done|].
  destruct (body st x) as [st'|]; simpl; [apply IH|done].
Qed.

Lemma forEach_ext {A S} (body1 body2 : S -> A -> option S) l st :
  Forall (fun x => forall st', body1 st' x = body2 st' x) l ->
  forEach body1 l st = forEach body2 l st.
Proof.
  intros Hl. revert st. induction Hl as [|x l Hx _ IH]; intros st; simpl; [done|].
  rewrite Hx. destruct (body2 st x); simpl; [apply IH|done].
Qed.

Lemma snoc_length {A} (l : list A) k :
  length l = S k -> exists l' x, l = l' ++ [x] /\ length l' = k.
Proof.
  intros Hl. destruct (decide (l = [])) as [->|Hne]; [done|].
  destruct (exists_last Hne) as (l' & x & ->).
  exists l', x. split; [done|]. rewrite length_app in Hl. simpl in Hl. lia.
Qed.

Lemma len_app {A} (l1 l2 : list A) : len (l1 ++ l2) = len l1 + len l2.
Proof. unfold len. rewrite length_app. lia. Qed.

Lemma len_nonneg {A} (l : list A) : 0 <= len l.
Proof. unfold len. lia. Qed.

Lemma len_silence n : 0 <= n -> len (silence n) = n.
Proof. intros Hn. unfold len, silence. rewrite length_replicate. lia. Qed.

Lemma make_silence n : 0 <= n -> make n = Some (silence n).
Proof. intros Hn. unfold make. by destruct (Z.ltb_spec n 0); [lia|]. Qed.

Lemma make_negative n : n < 0 -> make n = None.
Proof. intros Hn. unfold make. by destruct (Z.ltb_spec n 0); [|lia]. Qed.

Lemma store_middle pre x post i v :
  i = len pre -> store (pre ++ x :: post) i v = Some (pre ++ v :: post).
Proof.
  intros ->. unfold store. pose proof (len_nonneg pre). rewrite len_app.
  assert (len (x :: post) = 1 + len post) as -> by (unfold len; simpl; lia).
  pose proof (len_nonneg post).
  destruct (Z.leb_spec 0 (len pre)); [|lia].
  destruct (Z.ltb_spec (len pre) (len pre + (1 + len post))); [|lia].
  simpl. f_equal. unfold len. rewrite Nat2Z.id.
  rewrite <- (Nat.add_0_r (length pre)). by rewrite insert_app_r.
Qed.

Section ToneLoops.
Context `{GoRuntime}.

Lemma len_tone freq n : 0 <= n -> len (tone freq n) = n.
Proof. intros Hn. unfold len, tone. rewrite length_fmap, length_seqZ. lia. Qed.

Lemma tone_S freq k :
  tone freq (Z.of_nat (S k)) = tone freq (Z.of_nat k) ++ [toneSample freq (Z.of_nat k)].
Proof. unfold tone. rewrite seqZ_S, fmap_app. simpl. done. Qed.

Lemma tone_nonpos freq n : n <= 0 -> tone freq n = [].
Proof. intros Hn. unfold tone. by rewrite seqZ_nil. Qed.

(** The loop that fills a tone overwrites the first [k] cells. *)
Lemma fillTone_prefix freq k buf rest :
  length buf = k ->
  Pregen.fillTone freq (Z.of_nat k) (buf ++ rest)
  = Some (tone freq (Z.of_nat k) ++ rest).
Proof.
  unfold Pregen.fillTone. revert buf rest.
  induction k as [|k IH]; intros buf rest Hlen.
  - by destruct buf.
  - destruct (snoc_length buf k Hlen) as (buf' & x & -> & Hlen').
    rewrite seqZ_S, forEach_app, <- app_assoc. simpl.
    rewrite (IH buf' (x :: rest) Hlen'). simpl.
    rewrite store_middle by (rewrite len_tone; lia). simpl.
    rewrite tone_S, <- app_assoc, Z.add_0_l. done.
Qed.

Lemma fillTone_make freq n :
  0 <= n -> Pregen.fillTone freq n (silence n) = Some (tone freq n).
Proof.
  intros Hn. pose proof (fillTone_prefix freq (Z.to_nat n) (silence n) []) as Hf.
  rewrite Z2Nat.id, !app_nil_r in Hf by done. apply Hf.
  unfold silence. by rewrite length_replicate.
Qed.

(** The inline loop writes the tone at the cursor and never meets the
    bounds guard while the tone fits. *)
Lemma toneStep_loop freq k pre buf rest cs sup :
  length buf = k -> len pre = cs -> is_int (cs + Z.of_nat k) ->
  forEach (Inline.toneStep freq) (seqZ 0 (Z.of_nat k))
    {| Inline.samples := pre ++ buf ++ rest; Inline.currentSample := cs;
       Inline.suppressed := sup |}
  = Some {| Inline.samples := pre ++ tone freq (Z.of_nat k) ++ rest;
            Inline.currentSample := cs; Inline.suppressed := sup |}.
Proof.
  revert buf rest. induction k as [|k IH]; intros buf rest Hlen Hpre Hint.
  - by destruct buf.
  - destruct (snoc_length buf k Hlen) as (buf' & x & -> & Hlen').
    pose proof (len_nonneg pre).
    assert (Hint' : is_int (cs + Z.of_nat k)).
    { unfold is_int, intMin, intMax in *. lia. }
    rewrite seqZ_S, forEach_app, <- app_assoc. simpl.
    rewrite (IH buf' (x :: rest) Hlen' Hpre Hint'). simpl.
    unfold Inline.toneStep. simpl. rewrite Z.add_0_l.
    rewrite int_add_plain by done.
    assert (Hpos : cs + Z.of_nat k = len (pre ++ tone freq (Z.of_nat k))).
    { rewrite len_app, len_tone; lia. }
    rewrite (app_assoc pre).
    rewrite (store_middle _ _ _ _ _ Hpos).
    assert (Hlt : cs + Z.of_nat k
                  < len ((pre ++ tone freq (Z.of_nat k)) ++ x :: rest)).
    { rewrite (len_app _ (x :: rest)), <- Hpos. unfold len. simpl. lia. }
    destruct (Z.ltb_spec (cs + Z.of_nat k)
                (len ((pre ++ tone freq (Z.of_nat k)) ++ x :: rest))); [|lia].
    simpl. rewrite tone_S, <- !app_assoc. done.
Qed.

End ToneLoops.

(** ** The Morse code table *)

Lemma morseCodeMap_wellFormed c morse :
  morseCodeMap !! c = Some morse -> wellFormedCode morse = true.
Proof.
  unfold morseCodeMap. intros Hin%elem_of_list_to_map_2. revert Hin.
  match goal with
  | |- _ ∈ ?l -> _ =>
      assert (Hall : forallb (fun cm : Z * string => wellFormedCode cm.2) l = true)
        by reflexivity
  end.
  rewrite forallb_forall in Hall. intros Hin%list_elem_of_In.
  apply (Hall _ Hin).
Qed.

Lemma wellFormedCode_marks morse :
  wellFormedCode morse = true ->
  Forall (fun b => b = rune "." \/ b = rune "-") (bytes morse)
  /\ 1 <= slen morse <= 6.
Proof.
  unfold wellFormedCode. rewrite !andb_true_iff, forallb_forall.
  intros [[Hm Hlo] Hhi]. split; [|lia].
  apply Forall_forall. intros b Hb%list_elem_of_In%Hm.
  apply orb_true_iff in Hb. lia.
Qed.

Lemma wellFormedCode_ascii morse :
  wellFormedCode morse = true -> isASCII morse = true.
Proof.
  intros [Hm _]%wellFormedCode_marks. unfold isASCII.
  apply forallb_forall. intros b Hb%list_elem_of_In.
  rewrite Forall_forall in Hm. apply Hm in Hb. vm_compute in Hb.
  destruct Hb as [-> | ->]; reflexivity.
Qed.

Lemma enumFrom_marks i p :
  Forall (fun b => b = rune "." \/ b = rune "-") p ->
  Forall (fun ie : Z * Z => ie.2 = rune "." \/ ie.2 = rune "-") (enumFrom i p).
Proof.
  intros Hp. revert i. induction Hp as [|b p Hb _ IH]; intros i; simpl;
    constructor; auto.
Qed.

Lemma rangeString_marks morse :
  wellFormedCode morse = true ->
  Forall (fun ie : Z * Z => ie.2 = rune "." \/ ie.2 = rune "-") (rangeString morse).
Proof.
  intros Hw. rewrite rangeString_ascii by by apply wellFormedCode_ascii.
  apply enumFrom_marks. by apply wellFormedCode_marks.
Qed.

Lemma rangeString_length s : (length (rangeString s) <= String.length s)%nat.
Proof. unfold rangeString. rewrite <- length_bytes. apply rangeFrom_length. Qed.

(** ** The audio of a character *)

Lemma mjoin_cons {A} (x : list A) (ls : list (list A)) :
  mjoin (x :: ls) = x ++ mjoin ls.
Proof. reflexivity. Qed.

Lemma len_join_bound {A} (f : A -> list Z) (l : list A) M :
  0 <= M -> Forall (fun x => len (f x) <= M) l ->
  len (mjoin (f <$> l)) <= Z.of_nat (length l) * M.
Proof.
  intros HM Hl. induction Hl as [|x l Hx _ IH].
  - unfold len. simpl. lia.
  - rewrite fmap_cons, mjoin_cons, len_app, length_cons. lia.
Qed.

Lemma len_markAudio dot dash gap morse ie :
  len (markAudio dot dash gap morse ie) <= Z.max (len dot) (len dash) + len gap.
Proof.
  unfold markAudio. rewrite len_app.
  pose proof (len_nonneg dot). pose proof (len_nonneg dash).
  pose proof (len_nonneg gap).
  assert (len (@nil Z) = 0) as Hnil by done.
  repeat match goal with |- context [if ?c then _ else _] => destruct c end;
    rewrite ?Hnil; lia.
Qed.

Lemma len_charAudio dot dash gap morse :
  wellFormedCode morse = true ->
  len (charAudio dot dash gap morse)
  <= 6 * (Z.max (len dot) (len dash) + len gap).
Proof.
  intros [_ Hlen]%wellFormedCode_marks. unfold charAudio.
  pose proof (len_nonneg dot). pose proof (len_nonneg dash).
  pose proof (len_nonneg gap).
  etrans; [apply (len_join_bound _ _ (Z.max (len dot) (len dash) + len gap))|].
  - lia.
  - apply Forall_forall. intros ie _. apply len_markAudio.
  - pose proof (rangeString_length morse). unfold slen in Hlen. nia.
Qed.

Lemma foldl_appendElement dot dash gap morse l acc :
  foldl (Pregen.appendElement dot dash gap morse) acc l
  = acc ++ mjoin (markAudio dot dash gap morse <$> l).
Proof.
  revert acc. induction l as [|[i e] l IH]; intros acc.
  - simpl. by rewrite app_nil_r.
  - rewrite fmap_cons, mjoin_cons. cbn [foldl]. rewrite IH.
    unfold Pregen.appendElement, markAudio. simpl.
    repeat match goal with |- context [if ?c then _ else _] => destruct c end;
      rewrite <- ?app_assoc, ?app_nil_r; done.
Qed.

(** ** [charGapFollows] never panics *)

Lemma charGapFollows_total text i :
  0 <= i -> charGapFollows text i = Some (gapAfter text i).
Proof.
  intros Hi. unfold charGapFollows, gapAfter.
  destruct (Z.ltb_spec i (slen text - 1)) as [Hlt|Hge]; [|done].
  rewrite index_bytes by lia.
  destruct (lookup_lt_is_Some_2 (bytes text) (Z.to_nat (i + 1))) as [b Hb].
  { rewrite length_bytes. unfold slen in Hlt. lia. }
  rewrite Hb. done.
Qed.

(** ** [main.go]: what the two passes compute *)

Lemma list_inserts_front (src rest : list Z) :
  (length src <= length rest)%nat ->
  list_inserts 0 src rest = src ++ drop (length src) rest.
Proof.
  intros Hlen. rewrite <- (take_drop (length src) rest) at 1.
  apply list_inserts_0_r. rewrite length_take. lia.
Qed.

Lemma copyAt_middle done_ rest src :
  len src <= len rest ->
  Pregen.copyAt (done_ ++ rest) (len done_) src
  = Some (done_ ++ src ++ drop (length src) rest).
Proof.
  intros Hlen. unfold Pregen.copyAt. rewrite len_app.
  pose proof (len_nonneg done_). pose proof (len_nonneg rest).
  destruct (Z.leb_spec 0 (len done_)); [|lia].
  destruct (Z.leb_spec (len done_) (len done_ + len rest)); [|lia].
  simpl. f_equal. unfold len in *. rewrite Nat2Z.id.
  rewrite <- (Nat.add_0_r (length done_)), list_inserts_app_r.
  rewrite list_inserts_front by lia. done.
Qed.

Section PregenPasses.
Context `{GoRuntime}.

Lemma newMorseAudio_pregenerated wpm freq :
  is_int wpm -> 0 <= timeUnit wpm ->
  Pregen.newMorseAudio wpm freq = Some (pregenerated wpm freq).
Proof.
  intros Hw Ht. destruct (counts_nonneg wpm Hw Ht) as (Hdot & Hdash & Hword).
  unfold Pregen.newMorseAudio. rewrite calculateMorseTiming_unit by done.
  cbn [mbind option_bind].
  rewrite !make_silence by lia. cbn [mbind option_bind].
  rewrite !fillTone_make by lia. cbn [mbind option_bind].
  unfold pregenerated. do 2 f_equal.
  apply map_fmap_ext. intros c morse _.
  rewrite foldl_appendElement. done.
Qed.

Lemma newMorseAudio_negative wpm freq :
  is_int wpm -> timeUnit wpm < 0 -> Pregen.newMorseAudio wpm freq = None.
Proof.
  intros Hw Ht. destruct (counts_negative wpm Hw Ht) as (Hdot & _).
  unfold Pregen.newMorseAudio. rewrite calculateMorseTiming_unit by done.
  cbn [mbind option_bind]. by rewrite (make_negative _ Hdot).
Qed.

Lemma charSamples_pregenerated wpm freq c :
  Pregen.charSamples (pregenerated wpm freq) !! c
  = charAudio (tone freq (msToSamples (timeUnit wpm)))
              (tone freq (msToSamples (timeUnit wpm * 3)))
              (silence (msToSamples (timeUnit wpm))) <$> morseCodeMap !! c.
Proof. unfold pregenerated. cbn [Pregen.charSamples]. apply lookup_fmap. Qed.

(** One step of the first pass adds the length of the segment. *)
Lemma sizeStep_segment wpm freq text tot ic :
  is_int wpm -> 0 <= timeUnit wpm -> 0 <= ic.1 -> 0 <= tot ->
  tot + len (segment wpm freq text ic) <= intMax ->
  Pregen.sizeStep (pregenerated wpm freq) text tot ic
  = Some (tot + len (segment wpm freq text ic)).
Proof.
  intros Hw Ht Hi Htot Hmax. destruct ic as [i c]. simpl in Hi.
  destruct (counts_nonneg wpm Hw Ht) as (Hdot & Hdash & Hword).
  unfold Pregen.sizeStep, segment in *. cbn [fst snd] in *.
  destruct (c =? rune " ").
  - cbn [Pregen.wordGap pregenerated].
    rewrite int_add_plain; [done|].
    unfold is_int, intMin. pose proof (len_nonneg (silence (msToSamples (timeUnit wpm * 7)))).
    lia.
  - rewrite charSamples_pregenerated.
    destruct (morseCodeMap !! c) as [morse|]; cbn [fmap option_fmap option_map];
      [|f_equal; change (len (@nil Z)) with 0; lia].
    rewrite charGapFollows_total by done. cbn [mbind option_bind].
    rewrite len_app in Hmax. rewrite len_app.
    set (a := charAudio _ _ _ _) in *.
    pose proof (len_nonneg a).
    cbn [Pregen.charGap pregenerated].
    set (g := silence (msToSamples (timeUnit wpm * 3))) in *.
    pose proof (len_nonneg g).
    destruct (gapAfter text i).
    + rewrite (int_add_plain tot (len a)) by (unfold is_int, intMin; lia).
      rewrite int_add_plain by (unfold is_int, intMin; lia).
      f_equal; lia.
    + assert (len (@nil Z) = 0) as Hnil by done. rewrite Hnil in *.
      rewrite int_add_plain; [f_equal; lia|]. unfold is_int, intMin; lia.
Qed.

Lemma sizePass_rendering wpm freq text items tot :
  is_int wpm -> 0 <= timeUnit wpm ->
  Forall (fun ic : Z * Z => 0 <= ic.1) items -> 0 <= tot ->
  tot + len (mjoin (segment wpm freq text <$> items)) <= intMax ->
  forEach (Pregen.sizeStep (pregenerated wpm freq) text) items tot
  = Some (tot + len (mjoin (segment wpm freq text <$> items))).
Proof.
  intros Hw Ht Hitems. revert tot.
  induction Hitems as [|ic items Hic _ IH]; intros tot Htot Hmax.
  - simpl. f_equal. unfold len. simpl. lia.
  - rewrite fmap_cons, mjoin_cons, len_app in *. cbn [forEach].
    pose proof (len_nonneg (segment wpm freq text ic)).
    pose proof (len_nonneg (mjoin (segment wpm freq text <$> items))).
    rewrite sizeStep_segment by (done || lia). cbn [mbind option_bind].
    rewrite IH by lia. f_equal. lia.
Qed.

(** One step of the second pass writes the segment at the cursor. *)
Lemma fillStep_segment wpm freq text done_ rest ic :
  is_int wpm -> 0 <= timeUnit wpm -> 0 <= ic.1 ->
  len (segment wpm freq text ic) <= len rest ->
  len done_ + len rest <= intMax ->
  Pregen.fillStep (pregenerated wpm freq) text (done_ ++ rest, len done_) ic
  = Some ((done_ ++ segment wpm freq text ic)
            ++ drop (length (segment wpm freq text ic)) rest,
          len (done_ ++ segment wpm freq text ic)).
Proof.
  intros Hw Ht Hi Hfit Hmax. destruct ic as [i c]. simpl in Hi.
  pose proof (len_nonneg done_). pose proof (len_nonneg rest).
  unfold Pregen.fillStep, segment in *. cbn [fst snd] in *.
  destruct (c =? rune " ").
  - cbn [Pregen.wordGap pregenerated].
    set (g := silence (msToSamples (timeUnit wpm * 7))) in *.
    pose proof (len_nonneg g).
    rewrite copyAt_middle by done. cbn [mbind option_bind].
    rewrite int_add_plain by (unfold is_int, intMin; lia).
    by rewrite len_app, <- app_assoc.
  - rewrite charSamples_pregenerated.
    destruct (morseCodeMap !! c) as [morse|]; cbn [fmap option_fmap option_map].
    2:{ rewrite !app_nil_r. cbn [length]. by rewrite drop_0. }
    rewrite charGapFollows_total by done.
    set (a := charAudio _ _ _ _) in *.
    cbn [Pregen.charGap pregenerated].
    set (g := silence (msToSamples (timeUnit wpm * 3))) in *.
    pose proof (len_nonneg a). pose proof (len_nonneg g).
    rewrite len_app in Hfit.
    assert (len (@nil Z) = 0) as Hnil by done.
    pose proof (len_nonneg (if gapAfter text i then g else [])).
    rewrite copyAt_middle by lia.
    cbn [mbind option_bind].
    rewrite (int_add_plain (len done_) (len a)) by (unfold is_int, intMin; lia).
    destruct (gapAfter text i).
    + rewrite <- len_app, (app_assoc done_ a).
      rewrite copyAt_middle.
      2:{ unfold len in *. rewrite length_drop. lia. }
      cbn [mbind option_bind].
      rewrite int_add_plain.
      2:{ rewrite len_app. unfold is_int, intMin. lia. }
      rewrite drop_drop, <- !len_app, <- !app_assoc, length_app. done.
    + rewrite !app_nil_r, <- len_app, <- app_assoc. done.
Qed.

Lemma fillPass_rendering wpm freq text items done_ rest :
  is_int wpm -> 0 <= timeUnit wpm ->
  Forall (fun ic : Z * Z => 0 <= ic.1) items ->
  len (mjoin (segment wpm freq text <$> items)) <= len rest ->
  len done_ + len rest <= intMax ->
  forEach (Pregen.fillStep (pregenerated wpm freq) text) items
          (done_ ++ rest, len done_)
  = Some ((done_ ++ mjoin (segment wpm freq text <$> items))
            ++ drop (length (mjoin (segment wpm freq text <$> items))) rest,
          len (done_ ++ mjoin (segment wpm freq text <$> items))).
Proof.
  intros Hw Ht Hitems. revert done_ rest.
  induction Hitems as [|ic items Hic _ IH]; intros done_ rest Hfit Hmax.
  - simpl. by rewrite !app_nil_r, drop_0.
  - rewrite fmap_cons, mjoin_cons in *. rewrite len_app in Hfit.
    cbn [forEach].
    pose proof (len_nonneg (segment wpm freq text ic)).
    pose proof (len_nonneg (mjoin (segment wpm freq text <$> items))).
    rewrite fillStep_segment by (done || lia). cbn [mbind option_bind].
    rewrite IH.
    + rewrite drop_drop, length_app, <- !app_assoc. done.
    + unfold len in *. rewrite length_drop. lia.
    + rewrite len_app. unfold len in *. rewrite length_drop. lia.
Qed.

End PregenPasses.

(** ** The size of a rendering *)

Lemma encodeRune_length r : (length (encodeRune r) <= 4)%nat.
Proof.
  unfold encodeRune.
  repeat match goal with |- context [if ?c then _ else _] => destruct c end;
    simpl; lia.
Qed.

Lemma strings_Map_length mapping p :
  (length (strings_Map mapping p) <= 4 * length p)%nat.
Proof.
  unfold strings_Map. pose proof (rangeFrom_length 0 0 p) as Hn.
  match goal with
  | |- (length (mjoin (?f <$> ?l)) <= _)%nat =>
      pose proof (len_join_bound f l 4 ltac:(lia)) as Hb
  end.
  unfold len in Hb. cut (forall a b : nat, Z.of_nat a <= Z.of_nat b * 4 -> (a <= 4 * b)%nat).
  { intros Hc. etrans; [apply Hc, Hb|lia].
    apply Forall_forall. intros ic _. simpl.
    destruct (mapping ic.2 <? 0); [simpl; lia|].
    pose proof (encodeRune_length (mapping ic.2)). lia. }
  intros a b. lia.
Qed.

Section Sizes.
Context `{GoRuntime}.

Lemma strings_ToUpper_length text :
  (String.length (strings_ToUpper text) <= 4 * String.length text)%nat.
Proof.
  unfold strings_ToUpper. destruct (isASCII text).
  - rewrite length_string_of_bytes, length_fmap, length_bytes. lia.
  - rewrite length_string_of_bytes. rewrite <- length_bytes.
    apply strings_Map_length.
Qed.

Lemma len_segment wpm freq text ic :
  is_int wpm -> 0 <= timeUnit wpm ->
  len (segment wpm freq text ic) <= 72900000.
Proof.
  intros Hw Ht. destruct (counts_nonneg wpm Hw Ht) as (Hdot & Hdash & Hword).
  unfold segment. cbv zeta. destruct (ic.2 =? rune " ").
  - rewrite len_silence; lia.
  - destruct (morseCodeMap !! ic.2) as [morse|] eqn:Hc;
      [|change (len (@nil Z)) with 0; lia].
    rewrite len_app.
    pose proof (len_charAudio (tone freq (msToSamples (timeUnit wpm)))
                  (tone freq (msToSamples (timeUnit wpm * 3)))
                  (silence (msToSamples (timeUnit wpm))) morse
                  (morseCodeMap_wellFormed _ _ Hc)) as Ha.
    rewrite !len_tone, len_silence in Ha by lia.
    assert (len (if gapAfter text ic.1
                 then silence (msToSamples (timeUnit wpm * 3)) else [])
            <= 8100000).
    { destruct (gapAfter text ic.1);
        [rewrite len_silence; lia|change (len (@nil Z)) with 0; lia]. }
    lia.
Qed.

Lemma len_rendering text wpm freq :
  is_int wpm -> 0 <= timeUnit wpm -> slen text < 2 ^ 32 ->
  0 <= len (rendering text wpm freq) <= 2 ^ 61.
Proof.
  intros Hw Ht Htext. split; [apply len_nonneg|]. unfold rendering.
  etrans; [apply (len_join_bound _ _ 72900000); [lia|]|].
  - apply Forall_forall. intros ic _. by apply len_segment.
  - pose proof (rangeString_length (strings_ToUpper text)).
    pose proof (strings_ToUpper_length text). unfold slen in Htext. lia.
Qed.

(** ** [main.go]: the result of [generateMorseAudio] *)

Lemma Pregen_run_rendering text wpm freq :
  is_int wpm -> 0 <= timeUnit wpm -> slen text < 2 ^ 32 ->
  Pregen.run text wpm freq
  = Some (rendering text wpm freq, len (rendering text wpm freq),
          len (rendering text wpm freq)).
Proof.
  intros Hw Ht Htext.
  pose proof (len_rendering text wpm freq Hw Ht Htext) as Hlen.
  assert (Hoff : Forall (fun ic : Z * Z => 0 <= ic.1)
                        (rangeString (strings_ToUpper text))).
  { eapply Forall_impl; [apply rangeString_offsets|]. intros ic; simpl; lia. }
  unfold Pregen.run. rewrite newMorseAudio_pregenerated by done.
  cbn [mbind option_bind].
  fold (rendering text wpm freq) in *.
  rewrite sizePass_rendering; try done.
  2:{ fold (rendering text wpm freq). unfold intMax. lia. }
  cbn [mbind option_bind]. fold (rendering text wpm freq).
  rewrite Z.add_0_l, make_silence by lia. cbn [mbind option_bind].
  pose proof (fillPass_rendering wpm freq text
                (rangeString (strings_ToUpper text)) []
                (silence (len (rendering text wpm freq))) Hw Ht Hoff) as Hfill.
  fold (rendering text wpm freq) in Hfill.
  rewrite len_silence in Hfill by lia.
  rewrite !app_nil_l in Hfill. change (len (@nil Z)) with 0 in Hfill.
  rewrite Hfill by (unfold intMax; lia). cbn [mbind option_bind].
  rewrite drop_ge, app_nil_r; [done|].
  unfold silence. rewrite length_replicate. unfold len. lia.
Qed.

End Sizes.

(** ** The inline version: what the two passes compute *)

Lemma silence_split a m : 0 <= a <= m -> silence m = silence a ++ silence (m - a).
Proof.
  intros Ha. unfold silence. rewrite <- replicate_add. f_equal. lia.
Qed.

Lemma advance_cursorAt done_ m sup g :
  0 <= g <= m -> len done_ + m <= intMax ->
  Inline.advance (cursorAt done_ m sup) g = cursorAt (done_ ++ silence g) (m - g) sup.
Proof.
  intros Hg Hmax. unfold Inline.advance, cursorAt. cbn.
  pose proof (len_nonneg done_).
  rewrite int_add_plain by (unfold is_int, intMin; lia).
  rewrite len_app, len_silence by lia.
  by rewrite (silence_split g m), <- app_assoc by lia.
Qed.

Section InlinePasses.
Context `{GoRuntime}.

#[local] Abbreviation markOf wpm freq morse :=
  (markAudio (tone freq (msToSamples (timeUnit wpm)))
             (tone freq (msToSamples (timeUnit wpm * 3)))
             (silence (msToSamples (timeUnit wpm))) morse).

Lemma toneLoop_cursorAt freq n done_ m sup :
  0 <= n <= m -> len done_ + m <= intMax ->
  forEach (Inline.toneStep freq) (seqZ 0 n) (cursorAt done_ m sup)
  = Some {| Inline.samples := (done_ ++ tone freq n) ++ silence (m - n);
            Inline.currentSample := len done_;
            Inline.suppressed := sup |}.
Proof.
  intros Hn Hmax. pose proof (len_nonneg done_).
  pose proof (toneStep_loop freq (Z.to_nat n) done_ (silence n) (silence (m - n))
                (len done_) sup) as Hloop.
  rewrite Z2Nat.id in Hloop by lia.
  unfold cursorAt. rewrite (silence_split n m) by lia.
  rewrite Hloop; [by rewrite <- app_assoc| |done|].
  - unfold silence. by rewrite length_replicate.
  - unfold is_int, intMin. lia.
Qed.

(** A mark of a well-formed code is written whole. *)
Lemma fillElement_mark wpm freq morse done_ m sup je :
  is_int wpm -> 0 <= timeUnit wpm ->
  je.2 = rune "." \/ je.2 = rune "-" ->
  len (markOf wpm freq morse je) <= m -> len done_ + m <= intMax ->
  Inline.fillElement (msToSamples (timeUnit wpm)) (msToSamples (timeUnit wpm * 3))
    (msToSamples (timeUnit wpm)) freq morse (cursorAt done_ m sup) je
  = Some (cursorAt (done_ ++ markOf wpm freq morse je)
                   (m - len (markOf wpm freq morse je)) sup).
Proof.
  intros Hw Ht Hje Hfit Hmax. destruct je as [j e].
  set (dot := tone freq (msToSamples (timeUnit wpm))) in *.
  set (dash := tone freq (msToSamples (timeUnit wpm * 3))) in *.
  set (gap := silence (msToSamples (timeUnit wpm))) in *.
  destruct (counts_nonneg wpm Hw Ht) as (Hdot & Hdash & Hword).
  pose proof (len_nonneg done_).
  unfold Inline.fillElement, markAudio in *. cbn [fst snd] in *.
  rewrite len_app in Hfit.
  set (duration := if e =? rune "-" then msToSamples (timeUnit wpm * 3)
                   else msToSamples (timeUnit wpm)).
  assert (Hmark : (if e =? rune "." then dot else if e =? rune "-" then dash else [])
                  = tone freq duration).
  { unfold duration. destruct Hje as [-> | ->]; reflexivity. }
  rewrite Hmark in *.
  assert (Hdur : 0 <= duration) by (unfold duration; destruct (e =? rune "-"); lia).
  rewrite len_tone in Hfit by done.
  pose proof (len_nonneg (if j <? slen morse - 1 then gap else [])).
  rewrite toneLoop_cursorAt by lia. cbn [mbind option_bind].
  assert (Hadv : Inline.advance
            {| Inline.samples := (done_ ++ tone freq duration) ++ silence (m - duration);
               Inline.currentSample := len done_; Inline.suppressed := sup |} duration
          = cursorAt (done_ ++ tone freq duration) (m - duration) sup).
  { unfold Inline.advance, cursorAt. cbn.
    rewrite int_add_plain by (unfold is_int, intMin; lia).
    by rewrite len_app, len_tone. }
  rewrite Hadv. f_equal. rewrite len_app, len_tone by done.
  destruct (j <? slen morse - 1).
  - unfold gap in *. rewrite len_silence in * by lia.
    rewrite advance_cursorAt.
    + rewrite <- app_assoc. f_equal. lia.
    + lia.
    + rewrite len_app, len_tone by done. lia.
  - change (len (@nil Z)) with 0. rewrite app_nil_r. f_equal. lia.
Qed.
End InlinePasses.

Section InlineLoops.
Context `{GoRuntime}.

#[local] Abbreviation markOf wpm freq morse :=
  (markAudio (tone freq (msToSamples (timeUnit wpm)))
             (tone freq (msToSamples (timeUnit wpm * 3)))
             (silence (msToSamples (timeUnit wpm))) morse).

Lemma fillElements_marks wpm freq morse marks done_ m sup :
  is_int wpm -> 0 <= timeUnit wpm ->
  Forall (fun je : Z * Z => je.2 = rune "." \/ je.2 = rune "-") marks ->
  len (mjoin (markOf wpm freq morse <$> marks)) <= m -> len done_ + m <= intMax ->
  forEach (Inline.fillElement (msToSamples (timeUnit wpm))
             (msToSamples (timeUnit wpm * 3)) (msToSamples (timeUnit wpm))
             freq morse) marks (cursorAt done_ m sup)
  = Some (cursorAt (done_ ++ mjoin (markOf wpm freq morse <$> marks))
                   (m - len (mjoin (markOf wpm freq morse <$> marks))) sup).
Proof.
  intros Hw Ht Hmarks. revert done_ m.
  induction Hmarks as [|je marks Hje _ IH]; intros done_ m Hfit Hmax.
  - simpl. change (len (@nil Z)) with 0.
    by rewrite app_nil_r, Z.sub_0_r.
  - rewrite fmap_cons, mjoin_cons in *.
    rewrite len_app in *. cbn [forEach].
    match goal with
    | _ : len ?a + len ?b <= m |- _ =>
        pose proof (len_nonneg a); pose proof (len_nonneg b)
    end.
    rewrite fillElement_mark by (done || lia). cbn [mbind option_bind].
    rewrite IH.
    + rewrite <- app_assoc. do 2 f_equal. lia.
    + lia.
    + rewrite len_app. lia.
Qed.

Lemma sizeElements_marks wpm freq morse marks tot :
  is_int wpm -> 0 <= timeUnit wpm ->
  Forall (fun je : Z * Z => je.2 = rune "." \/ je.2 = rune "-") marks ->
  0 <= tot -> tot + len (mjoin (markOf wpm freq morse <$> marks)) <= intMax ->
  foldl (Inline.sizeElement (msToSamples (timeUnit wpm))
           (msToSamples (timeUnit wpm * 3)) (msToSamples (timeUnit wpm)) morse)
        tot marks
  = tot + len (mjoin (markOf wpm freq morse <$> marks)).
Proof.
  intros Hw Ht Hmarks.
  destruct (counts_nonneg wpm Hw Ht) as (Hdot & Hdash & Hword).
  revert tot. induction Hmarks as [|[j e] marks Hje _ IH]; intros tot Htot Hmax.
  - simpl. change (len (@nil Z)) with 0. lia.
  - rewrite fmap_cons, mjoin_cons in *.
    rewrite len_app in *. cbn [foldl].
    match goal with
    | _ : _ + (len ?a + len ?b) <= intMax |- _ =>
        pose proof (len_nonneg a) as Ha; pose proof (len_nonneg b) as Hb;
        assert (Hstep : Inline.sizeElement (msToSamples (timeUnit wpm))
                  (msToSamples (timeUnit wpm * 3)) (msToSamples (timeUnit wpm))
                  morse tot (j, e) = tot + len a)
    end.
    { unfold Inline.sizeElement, markAudio in *. cbn [fst snd] in *.
      rewrite len_app in *. simpl in Hje.
      assert (Hgap : len (if j <? slen morse - 1
                          then silence (msToSamples (timeUnit wpm)) else [])
                     = if j <? slen morse - 1 then msToSamples (timeUnit wpm) else 0).
      { destruct (j <? slen morse - 1); [by rewrite len_silence by lia|done]. }
      rewrite Hgap in *.
      assert (0 <= if j <? slen morse - 1 then msToSamples (timeUnit wpm) else 0)
        by (destruct (j <? slen morse - 1); lia).
      assert (Hmk : len (if e =? rune "." then tone freq (msToSamples (timeUnit wpm))
                         else if e =? rune "-"
                              then tone freq (msToSamples (timeUnit wpm * 3)) else [])
                    = if e =? rune "." then msToSamples (timeUnit wpm)
                      else msToSamples (timeUnit wpm * 3)).
      { destruct Hje as [-> | ->].
        - change (rune "." =? rune ".") with true. cbv iota. by rewrite len_tone by lia.
        - change (rune "-" =? rune ".") with false.
          change (rune "-" =? rune "-") with true. cbv iota.
          by rewrite len_tone by lia. }
      rewrite Hmk in *.
      assert (He : (e =? rune "-") = negb (e =? rune ".")).
      { destruct Hje as [-> | ->]; reflexivity. }
      rewrite He. destruct (e =? rune "."); cbn [negb].
      - rewrite (int_add_plain tot) by (unfold is_int, intMin; lia).
        destruct (j <? slen morse - 1); [|lia].
        rewrite int_add_plain; [lia|]. unfold is_int, intMin; lia.
      - rewrite (int_add_plain tot) by (unfold is_int, intMin; lia).
        destruct (j <? slen morse - 1); [|lia].
        rewrite int_add_plain; [lia|]. unfold is_int, intMin; lia. }
    rewrite Hstep, IH by lia. lia.
Qed.

(** One step of the first pass adds the length of the segment. *)
Lemma Inline_sizeStep_segment wpm freq text tot ic :
  is_int wpm -> 0 <= timeUnit wpm -> 0 <= ic.1 -> 0 <= tot ->
  tot + len (segment wpm freq text ic) <= intMax ->
  Inline.sizeStep (msToSamples (timeUnit wpm)) (msToSamples (timeUnit wpm * 3))
    (msToSamples (timeUnit wpm)) (msToSamples (timeUnit wpm * 3))
    (msToSamples (timeUnit wpm * 7)) text tot ic
  = Some (tot + len (segment wpm freq text ic)).
Proof.
  intros Hw Ht Hi Htot Hmax. destruct ic as [i c]. simpl in Hi.
  destruct (counts_nonneg wpm Hw Ht) as (Hdot & Hdash & Hword).
  unfold Inline.sizeStep, segment in *. cbn [fst snd] in *.
  destruct (c =? rune " ").
  - rewrite len_silence in * by lia.
    rewrite int_add_plain; [done|]. unfold is_int, intMin. lia.
  - destruct (morseCodeMap !! c) as [morse|] eqn:Hc;
      [|f_equal; change (len (@nil Z)) with 0; lia].
    rewrite charGapFollows_total by done. cbn [mbind option_bind].
    rewrite len_app in *. unfold charAudio in *.
    pose proof (rangeString_marks morse (morseCodeMap_wellFormed _ _ Hc)) as Hm.
    match goal with
    | _ : _ + (len ?a + len ?b) <= intMax |- _ =>
        pose proof (len_nonneg a) as Ha; pose proof (len_nonneg b) as Hb
    end.
    rewrite (sizeElements_marks wpm freq) by (done || lia).
    destruct (gapAfter text i).
    + rewrite len_silence in * by lia.
      rewrite int_add_plain; [f_equal; lia|]. unfold is_int, intMin. lia.
    + change (len (@nil Z)) with 0. f_equal. lia.
Qed.

Lemma Inline_sizePass_rendering wpm freq text items tot :
  is_int wpm -> 0 <= timeUnit wpm ->
  Forall (fun ic : Z * Z => 0 <= ic.1) items -> 0 <= tot ->
  tot + len (mjoin (segment wpm freq text <$> items)) <= intMax ->
  forEach (Inline.sizeStep (msToSamples (timeUnit wpm))
             (msToSamples (timeUnit wpm * 3)) (msToSamples (timeUnit wpm))
             (msToSamples (timeUnit wpm * 3)) (msToSamples (timeUnit wpm * 7)) text)
          items tot
  = Some (tot + len (mjoin (segment wpm freq text <$> items))).
Proof.
  intros Hw Ht Hitems. revert tot.
  induction Hitems as [|ic items Hic _ IH]; intros tot Htot Hmax.
  - simpl. f_equal. change (len (@nil Z)) with 0. lia.
  - rewrite fmap_cons, mjoin_cons, len_app in *. cbn [forEach].
    pose proof (len_nonneg (segment wpm freq text ic)).
    pose proof (len_nonneg (mjoin (segment wpm freq text <$> items))).
    rewrite (Inline_sizeStep_segment wpm freq) by (done || lia).
    cbn [mbind option_bind].
    rewrite IH by lia. f_equal. lia.
Qed.

(** One step of the second pass writes the segment at the cursor and
    leaves the guard counter alone. *)
Lemma Inline_fillStep_segment wpm freq text done_ m sup ic :
  is_int wpm -> 0 <= timeUnit wpm -> 0 <= ic.1 ->
  len (segment wpm freq text ic) <= m -> len done_ + m <= intMax ->
  Inline.fillStep (msToSamples (timeUnit wpm)) (msToSamples (timeUnit wpm * 3))
    (msToSamples (timeUnit wpm)) (msToSamples (timeUnit wpm * 3))
    (msToSamples (timeUnit wpm * 7)) freq text (cursorAt done_ m sup) ic
  = Some (cursorAt (done_ ++ segment wpm freq text ic)
                   (m - len (segment wpm freq text ic)) sup).
Proof.
  intros Hw Ht Hi Hfit Hmax. destruct ic as [i c]. simpl in Hi.
  destruct (counts_nonneg wpm Hw Ht) as (Hdot & Hdash & Hword).
  pose proof (len_nonneg done_).
  unfold Inline.fillStep, segment in *. cbn [fst snd] in *.
  destruct (c =? rune " ").
  - rewrite len_silence in * by lia. by rewrite advance_cursorAt by lia.
  - destruct (morseCodeMap !! c) as [morse|] eqn:Hc.
    2:{ change (len (@nil Z)) with 0. by rewrite app_nil_r, Z.sub_0_r. }
    rewrite len_app in *. unfold charAudio in *.
    pose proof (rangeString_marks morse (morseCodeMap_wellFormed _ _ Hc)) as Hm.
    match goal with
    | _ : len ?a + len ?b <= m |- _ =>
        pose proof (len_nonneg a) as Ha; pose proof (len_nonneg b) as Hb
    end.
    rewrite fillElements_marks by (done || lia). cbn [mbind option_bind].
    rewrite charGapFollows_total by done. cbn [mbind option_bind].
    destruct (gapAfter text i).
    + rewrite len_silence in * by lia.
      rewrite advance_cursorAt.
      * rewrite <- app_assoc. do 2 f_equal. lia.
      * lia.
      * rewrite len_app. lia.
    + change (len (@nil Z)) with 0. rewrite app_nil_r. do 2 f_equal. lia.
Qed.

Lemma Inline_fillPass_rendering wpm freq text items done_ m sup :
  is_int wpm -> 0 <= timeUnit wpm ->
  Forall (fun ic : Z * Z => 0 <= ic.1) items ->
  len (mjoin (segment wpm freq text <$> items)) <= m ->
  len done_ + m <= intMax ->
  forEach (Inline.fillStep (msToSamples (timeUnit wpm))
             (msToSamples (timeUnit wpm * 3)) (msToSamples (timeUnit wpm))
             (msToSamples (timeUnit wpm * 3)) (msToSamples (timeUnit wpm * 7))
             freq text) items (cursorAt done_ m sup)
  = Some (cursorAt (done_ ++ mjoin (segment wpm freq text <$> items))
                   (m - len (mjoin (segment wpm freq text <$> items))) sup).
Proof.
  intros Hw Ht Hitems. revert done_ m.
  induction Hitems as [|ic items Hic _ IH]; intros done_ m Hfit Hmax.
  - simpl. change (len (@nil Z)) with 0. by rewrite app_nil_r, Z.sub_0_r.
  - rewrite fmap_cons, mjoin_cons in *. rewrite len_app in *. cbn [forEach].
    pose proof (len_nonneg (segment wpm freq text ic)).
    pose proof (len_nonneg (mjoin (segment wpm freq text <$> items))).
    rewrite Inline_fillStep_segment by (done || lia). cbn [mbind option_bind].
    rewrite IH.
    + rewrite <- app_assoc. do 2 f_equal. lia.
    + lia.
    + rewrite len_app. lia.
Qed.

(** ** The inline version: the result of [generateMorseAudio] *)

Lemma Inline_run_rendering text wpm freq :
  is_int wpm -> 0 <= timeUnit wpm -> slen text < 2 ^ 32 ->
  Inline.run text wpm freq
  = Some (len (rendering text wpm freq),
          {| Inline.samples := rendering text wpm freq;
             Inline.currentSample := len (rendering text wpm freq);
             Inline.suppressed := 0 |}).
Proof.
  intros Hw Ht Htext.
  pose proof (len_rendering text wpm freq Hw Ht Htext) as Hlen.
  assert (Hoff : Forall (fun ic : Z * Z => 0 <= ic.1)
                        (rangeString (strings_ToUpper text))).
  { eapply Forall_impl; [apply rangeString_offsets|]. intros ic; simpl; lia. }
  unfold Inline.run. rewrite calculateMorseTiming_unit by done.
  cbn [mbind option_bind].
  rewrite (Inline_sizePass_rendering wpm freq); try done.
  2:{ fold (rendering text wpm freq). unfold intMax. lia. }
  cbn [mbind option_bind]. fold (rendering text wpm freq).
  rewrite Z.add_0_l, make_silence by lia. cbn [mbind option_bind].
  pose proof (Inline_fillPass_rendering wpm freq text
                (rangeString (strings_ToUpper text)) []
                (len (rendering text wpm freq)) 0 Hw Ht Hoff) as Hfill.
  fold (rendering text wpm freq) in Hfill.
  unfold cursorAt in Hfill at 1. rewrite app_nil_l in Hfill.
  change (len (@nil Z)) with 0 in Hfill.
  rewrite Hfill by (unfold intMax; lia). cbn [mbind option_bind].
  unfold cursorAt. rewrite Z.sub_diag, !app_nil_l.
  change (silence 0) with (@nil Z). by rewrite app_nil_r.
Qed.

End InlineLoops.

(** ** The inline version when the sample counts are negative

    No tone is written; the cursor moves exactly as the total of the first
    pass does, wrap-around included. *)

Section InlineNegative.
Context `{GoRuntime}.
Variables dotN dashN egN cgN wgN freq : Z.
Hypothesis dot_nonpos : dotN <= 0.
Hypothesis dash_nonpos : dashN <= 0.

Lemma fillElement_silent morse st je :
  je.2 = rune "." \/ je.2 = rune "-" ->
  Inline.fillElement dotN dashN egN freq morse st je
  = Some {| Inline.samples := Inline.samples st;
            Inline.currentSample :=
              Inline.sizeElement dotN dashN egN morse (Inline.currentSample st) je;
            Inline.suppressed := Inline.suppressed st |}.
Proof.
  destruct je as [j e]. cbn [snd]. intros He.
  unfold Inline.fillElement, Inline.sizeElement.
  assert (Hd : (if e =? rune "-" then dashN else dotN) <= 0)
    by (destruct (e =? rune "-"); lia).
  rewrite seqZ_nil by done. cbn [forEach mbind option_bind].
  destruct st as [s cs sup]. unfold Inline.advance. cbn.
  destruct He as [-> | ->];
    change (rune "." =? rune ".") with true;
    change (rune "." =? rune "-") with false;
    change (rune "-" =? rune ".") with false;
    change (rune "-" =? rune "-") with true; cbv iota;
    by destruct (j <? slen morse - 1).
Qed.

Lemma fillElements_silent morse marks st :
  Forall (fun je : Z * Z => je.2 = rune "." \/ je.2 = rune "-") marks ->
  forEach (Inline.fillElement dotN dashN egN freq morse) marks st
  = Some {| Inline.samples := Inline.samples st;
            Inline.currentSample :=
              foldl (Inline.sizeElement dotN dashN egN morse)
                    (Inline.currentSample st) marks;
            Inline.suppressed := Inline.suppressed st |}.
Proof.
  intros Hm. revert st. induction Hm as [|je marks Hje _ IH]; intros st.
  - by destruct st.
  - cbn [forEach foldl]. rewrite fillElement_silent by done.
    cbn [mbind option_bind]. by rewrite IH.
Qed.

Lemma fillStep_silent text st ic :
  0 <= ic.1 ->
  exists cs,
    Inline.sizeStep dotN dashN egN cgN wgN text (Inline.currentSample st) ic
    = Some cs /\
    Inline.fillStep dotN dashN egN cgN wgN freq text st ic
    = Some {| Inline.samples := Inline.samples st;
              Inline.currentSample := cs;
              Inline.suppressed := Inline.suppressed st |}.
Proof.
  destruct ic as [i c]. cbn [fst]. intros Hi.
  unfold Inline.sizeStep, Inline.fillStep.
  destruct (c =? rune " "); [by eexists|].
  destruct (morseCodeMap !! c) as [morse|] eqn:Hc; [|destruct st; by eexists].
  rewrite fillElements_silent
    by (apply rangeString_marks; eapply morseCodeMap_wellFormed; eauto).
  rewrite charGapFollows_total by done. cbn [mbind option_bind].
  destruct (gapAfter text i); by eexists.
Qed.

Lemma fillPass_silent text items st :
  Forall (fun ic : Z * Z => 0 <= ic.1) items ->
  exists cs,
    forEach (Inline.sizeStep dotN dashN egN cgN wgN text) items
            (Inline.currentSample st) = Some cs /\
    forEach (Inline.fillStep dotN dashN egN cgN wgN freq text) items st
    = Some {| Inline.samples := Inline.samples st;
              Inline.currentSample := cs;
              Inline.suppressed := Inline.suppressed st |}.
Proof.
  intros Hitems. revert st. induction Hitems as [|ic items Hic _ IH]; intros st.
  - destruct st. by eexists.
  - cbn [forEach]. destruct (fillStep_silent text st ic Hic) as (cs & -> & ->).
    cbn [mbind option_bind].
    destruct (IH {| Inline.samples := Inline.samples st;
                    Inline.currentSample := cs;
                    Inline.suppressed := Inline.suppressed st |})
      as (cs' & Hs & Hf).
    exists cs'. split; [exact Hs|exact Hf].
Qed.

End InlineNegative.

(** * The statements of the specification *)

(** C1. For every WPM > 0 the five durations of [calculateMorseTiming]
    are the time unit, three time units, one, three and seven time units:
    dash = 3 x dot, element gap = dot, character gap = 3 x dot and word
    gap = 7 x dot ([wpm <= intMax] says that [wpm] is an [int]). *)
Theorem timing_ratios wpm :
  0 < wpm -> wpm <= intMax ->
  exists dot dash eg cg wg,
    calculateMorseTiming wpm = Some (dot, dash, eg, cg, wg) /\
    dash = 3 * dot /\ eg = 1 * dot /\ cg = 3 * dot /\ wg = 7 * dot.
Proof.
  intros Hpos Hmax.
  assert (Hw : is_int wpm) by (unfold is_int, intMin; lia).
  exists (timeUnit wpm), (timeUnit wpm * 3), (timeUnit wpm),
         (timeUnit wpm * 3), (timeUnit wpm * 7).
  split; [by apply calculateMorseTiming_unit|lia].
Qed.

Lemma timing_ratios_witness :
  exists dot dash eg cg wg,
    calculateMorseTiming 25 = Some (dot, dash, eg, cg, wg) /\
    dash = 3 * dot /\ eg = 1 * dot /\ cg = 3 * dot /\ wg = 7 * dot.
Proof. apply (timing_ratios 25); [lia|unfold intMax; lia]. Defined.

(** C3. A WPM that is not positive is replaced by 20 before the
    computation: the result is the one for 20, and it is a result, not a
    panic. *)
Theorem timing_default wpm :
  wpm <= 0 ->
  calculateMorseTiming wpm = calculateMorseTiming 20 /\
  calculateMorseTiming wpm = Some (60, 180, 60, 180, 420).
Proof.
  intros Hw. unfold calculateMorseTiming.
  destruct (Z.leb_spec wpm 0); [|lia]. split; reflexivity.
Qed.

Lemma timing_default_witness :
  calculateMorseTiming (-7) = calculateMorseTiming 20 /\
  calculateMorseTiming (-7) = Some (60, 180, 60, 180, 420).
Proof. apply (timing_default (-7)). lia. Defined.

Section Claims.
Context `{GoRuntime}.

Lemma Pregen_generate_rendering text wpm freq :
  is_int wpm -> 0 <= timeUnit wpm -> slen text < 2 ^ 32 ->
  Pregen.generateMorseAudio text wpm freq
  = Some (rendering text wpm freq, len (rendering text wpm freq)).
Proof.
  intros Hw Ht Htext. unfold Pregen.generateMorseAudio.
  by rewrite Pregen_run_rendering.
Qed.

Lemma Inline_generate_rendering text wpm freq :
  is_int wpm -> 0 <= timeUnit wpm -> slen text < 2 ^ 32 ->
  Inline.generateMorseAudio text wpm freq
  = Some (rendering text wpm freq, len (rendering text wpm freq)).
Proof.
  intros Hw Ht Htext. unfold Inline.generateMorseAudio.
  by rewrite Inline_run_rendering.
Qed.

Lemma Pregen_run_negative text wpm freq :
  is_int wpm -> timeUnit wpm < 0 -> Pregen.run text wpm freq = None.
Proof.
  intros Hw Ht. unfold Pregen.run. by rewrite newMorseAudio_negative.
Qed.

Lemma Inline_run_negative text wpm freq total st :
  is_int wpm -> timeUnit wpm < 0 ->
  Inline.run text wpm freq = Some (total, st) ->
  len (Inline.samples st) = total /\ Inline.currentSample st = total
  /\ Inline.suppressed st = 0.
Proof.
  intros Hw Ht. destruct (counts_negative wpm Hw Ht) as (Hdot & Hdash & _).
  unfold Inline.run. rewrite calculateMorseTiming_unit by done.
  cbn [mbind option_bind].
  assert (Hoff : Forall (fun ic : Z * Z => 0 <= ic.1)
                        (rangeString (strings_ToUpper text))).
  { eapply Forall_impl; [apply rangeString_offsets|]. intros ic; simpl; lia. }
  intros Hrun.
  destruct (forEach _ (rangeString (strings_ToUpper text)) 0) as [tot|] eqn:Hsize;
    [|done].
  cbn [mbind option_bind] in Hrun.
  destruct (Z.lt_ge_cases tot 0) as [Hneg|Hpos].
  { by rewrite make_negative in Hrun. }
  rewrite make_silence in Hrun by done. cbn [mbind option_bind] in Hrun.
  destruct (fillPass_silent (msToSamples (timeUnit wpm))
              (msToSamples (timeUnit wpm * 3)) (msToSamples (timeUnit wpm))
              (msToSamples (timeUnit wpm * 3)) (msToSamples (timeUnit wpm * 7))
              freq ltac:(lia) ltac:(lia) text
              (rangeString (strings_ToUpper text))
              {| Inline.samples := silence tot; Inline.currentSample := 0;
                 Inline.suppressed := 0 |} Hoff) as (cs & Hs & Hf).
  cbn [Inline.currentSample] in Hs. rewrite Hsize in Hs. injection Hs as <-.
  rewrite Hf in Hrun. cbn [mbind option_bind] in Hrun.
  injection Hrun as <- <-. cbn. by rewrite len_silence.
Qed.

(** C7. The total computed by the first pass is the number of samples
    that the second pass consumes: the returned count is the length of
    the returned samples, the final value of [currentSample] is that
    count, and the guard [currentSample+k < len(samples)] has never
    skipped a write.  Both versions return whenever the time unit is not
    negative.  ([is_int wpm] says that [wpm] is an [int]; the text is
    shorter than 4 GiB, so that no count reaches 2^63.) *)
Theorem passes_agree text wpm freq :
  is_int wpm -> slen text < 2 ^ 32 ->
  (0 <= timeUnit wpm ->
   is_Some (Pregen.run text wpm freq) /\ is_Some (Inline.run text wpm freq)) /\
  (forall samples total cs,
     Pregen.run text wpm freq = Some (samples, total, cs) ->
     len samples = total /\ cs = total) /\
  (forall total st,
     Inline.run text wpm freq = Some (total, st) ->
     len (Inline.samples st) = total /\ Inline.currentSample st = total
     /\ Inline.suppressed st = 0).
Proof.
  intros Hw Htext. split; [|split].
  - intros Ht. rewrite Pregen_run_rendering, Inline_run_rendering by done.
    split; by eexists.
  - intros samples total cs Hrun.
    destruct (Z.lt_ge_cases (timeUnit wpm) 0) as [Hneg|Hpos].
    { by rewrite Pregen_run_negative in Hrun. }
    rewrite Pregen_run_rendering in Hrun by (done || lia).
    by injection Hrun as <- <- <-.
  - intros total st Hrun.
    destruct (Z.lt_ge_cases (timeUnit wpm) 0) as [Hneg|Hpos].
    { by eapply Inline_run_negative. }
    rewrite Inline_run_rendering in Hrun by (done || lia).
    by injection Hrun as <- <-.
Qed.

(** C10, as amended.  Whenever the time unit is not negative (every WPM
    that is not positive, and every WPM up to [intMax / 50]) the two
    versions return, and return the same samples and the same count. *)
Theorem versions_agree text wpm freq :
  is_int wpm -> 0 <= timeUnit wpm -> slen text < 2 ^ 32 ->
  Pregen.generateMorseAudio text wpm freq = Inline.generateMorseAudio text wpm freq
  /\ is_Some (Pregen.generateMorseAudio text wpm freq).
Proof.
  intros Hw Ht Htext.
  rewrite Pregen_generate_rendering, Inline_generate_rendering by done.
  split; [done|by eexists].
Qed.

End Claims.

(** ** ASCII texts *)

Lemma isASCII_app s1 s2 : isASCII (s1 ++ s2) = isASCII s1 && isASCII s2.
Proof. unfold isASCII. by rewrite bytes_app, forallb_app. Qed.

Lemma slen_app s1 s2 : slen (s1 ++ s2) = slen s1 + slen s2.
Proof. rewrite <- !len_bytes, bytes_app. apply len_app. Qed.

Lemma asciiUpper_ascii b : 0 <= b < 128 -> 0 <= asciiUpper b < 128.
Proof. intros Hb. unfold asciiUpper. destruct (_ && _) eqn:E; lia. Qed.

Lemma asciiUpper_idemp b : asciiUpper (asciiUpper b) = asciiUpper b.
Proof.
  unfold asciiUpper.
  destruct ((97 <=? b) && (b <=? 122)) eqn:E; [|by rewrite E].
  destruct ((97 <=? b - 32) && (b - 32 <=? 122)) eqn:E'; [lia|done].
Qed.

Lemma asciiUpper_space b : (asciiUpper b =? rune " ") = (b =? rune " ").
Proof.
  unfold asciiUpper. change (rune " ") with 32.
  destruct ((97 <=? b) && (b <=? 122)) eqn:E; [lia|done].
Qed.

Lemma isASCII_bytes s :
  isASCII s = true -> Forall (fun b => 0 <= b < 128) (bytes s).
Proof.
  unfold isASCII. rewrite forallb_forall. intros Hs.
  pose proof (bytes_range s) as Hr. rewrite Forall_forall in Hr.
  apply Forall_forall. intros b Hb. specialize (Hr b Hb).
  apply list_elem_of_In, Hs in Hb. lia.
Qed.

Lemma upper_bytes_ascii s :
  isASCII s = true -> Forall (fun b => 0 <= b < 128) (asciiUpper <$> bytes s).
Proof.
  intros Hs%isASCII_bytes. apply Forall_fmap.
  eapply Forall_impl; [exact Hs|]. intros b. apply asciiUpper_ascii.
Qed.

Lemma enumFrom_app i p q :
  enumFrom i (p ++ q) = enumFrom i p ++ enumFrom (i + len p) q.
Proof.
  revert i. induction p as [|b p IH]; intros i; simpl.
  - change (len (@nil Z)) with 0. by rewrite Z.add_0_r.
  - rewrite IH. do 3 f_equal. unfold len. simpl length. lia.
Qed.

Lemma enumFrom_offsets i p :
  Forall (fun ic : Z * Z => i <= ic.1 < i + len p) (enumFrom i p).
Proof.
  revert i. induction p as [|b p IH]; intros i; simpl; constructor.
  - unfold len. simpl. lia.
  - eapply Forall_impl; [apply IH|]. intros ic. unfold len. simpl length. lia.
Qed.

Section Ascii.
Context `{GoRuntime}.

Lemma strings_ToUpper_ascii s :
  isASCII s = true ->
  strings_ToUpper s = string_of_bytes (asciiUpper <$> bytes s).
Proof. intros Hs. unfold strings_ToUpper. by rewrite Hs. Qed.

Lemma bytes_ToUpper_ascii s :
  isASCII s = true -> bytes (strings_ToUpper s) = asciiUpper <$> bytes s.
Proof.
  intros Hs. rewrite strings_ToUpper_ascii by done.
  apply bytes_string_of_bytes.
  eapply Forall_impl; [by apply upper_bytes_ascii|]. intros b; simpl; lia.
Qed.

Lemma isASCII_ToUpper s : isASCII s = true -> isASCII (strings_ToUpper s) = true.
Proof.
  intros Hs. unfold isASCII at 1. rewrite bytes_ToUpper_ascii by done.
  apply forallb_forall. intros b Hb%list_elem_of_In.
  pose proof (upper_bytes_ascii s Hs) as Hu. rewrite Forall_forall in Hu.
  apply Hu in Hb. lia.
Qed.

Lemma rangeString_ToUpper_ascii s :
  isASCII s = true ->
  rangeString (strings_ToUpper s) = enumFrom 0 (asciiUpper <$> bytes s).
Proof.
  intros Hs. rewrite rangeString_ascii by by apply isASCII_ToUpper.
  by rewrite bytes_ToUpper_ascii.
Qed.

Lemma rendering_ascii text wpm freq :
  isASCII text = true ->
  rendering text wpm freq
  = mjoin (segment wpm freq text <$> enumFrom 0 (asciiUpper <$> bytes text)).
Proof. intros Hs. unfold rendering. by rewrite rangeString_ToUpper_ascii. Qed.

Lemma segment_gapAfter wpm freq t1 t2 i1 i2 c :
  gapAfter t1 i1 = gapAfter t2 i2 ->
  segment wpm freq t1 (i1, c) = segment wpm freq t2 (i2, c).
Proof. intros Hg. unfold segment. cbn [fst snd]. by rewrite Hg. Qed.

End Ascii.

(** *** The character gap across a concatenation *)

Lemma index_app_l s1 s2 i :
  0 <= i < slen s1 -> index (s1 ++ s2) i = index s1 i.
Proof.
  intros Hi. rewrite !index_bytes, bytes_app by lia.
  apply lookup_app_l. rewrite length_bytes. unfold slen in Hi. lia.
Qed.

Lemma index_app_r s1 s2 j :
  0 <= j -> index (s1 ++ s2) (slen s1 + j) = index s2 j.
Proof.
  intros Hj. unfold slen. rewrite !index_bytes, bytes_app by lia.
  rewrite lookup_app_r by (rewrite length_bytes; lia).
  f_equal. rewrite length_bytes. lia.
Qed.

Lemma gapAfter_app_l s1 s2 i :
  0 <= i -> i + 1 < slen s1 -> gapAfter (s1 ++ s2) i = gapAfter s1 i.
Proof.
  intros Hi Hlt. unfold gapAfter. rewrite slen_app.
  rewrite index_app_l by lia. pose proof (Nat2Z.is_nonneg (String.length s2)).
  unfold slen in *.
  destruct (Z.ltb_spec i (Z.of_nat (String.length s1) + Z.of_nat (String.length s2) - 1));
    [|lia].
  destruct (Z.ltb_spec i (Z.of_nat (String.length s1) - 1)); [done|lia].
Qed.

Lemma gapAfter_app_r s1 s2 j :
  0 <= j -> gapAfter (s1 ++ s2) (slen s1 + j) = gapAfter s2 j.
Proof.
  intros Hj. unfold gapAfter. rewrite slen_app.
  replace (slen s1 + j + 1) with (slen s1 + (j + 1)) by lia.
  rewrite index_app_r by lia.
  destruct (Z.ltb_spec (slen s1 + j) (slen s1 + slen s2 - 1));
    destruct (Z.ltb_spec j (slen s2 - 1)); done || lia.
Qed.

Lemma gapAfter_last s i : slen s - 1 <= i -> gapAfter s i = false.
Proof.
  intros Hi. unfold gapAfter. by destruct (Z.ltb_spec i (slen s - 1)); [lia|].
Qed.

Lemma gapAfter_junction s1 s2 :
  1 <= slen s1 ->
  gapAfter (s1 ++ s2) (slen s1 - 1)
  = match head (bytes s2) with
    | Some d => negb (d =? rune " ")
    | None => false
    end.
Proof.
  intros Hs1. unfold gapAfter. rewrite slen_app.
  replace (slen s1 - 1 + 1) with (slen s1 + 0) by lia.
  rewrite index_app_r, index_bytes by lia. change (Z.to_nat 0) with 0%nat.
  rewrite <- len_bytes with (s := s2).
  destruct (bytes s2) as [|d p]; cbn [head lookup list_lookup default].
  - change (len (@nil Z)) with 0.
    by destruct (Z.ltb_spec (slen s1 - 1) (slen s1 + 0 - 1)); [lia|].
  - pose proof (len_nonneg p).
    assert (len (d :: p) = 1 + len p) as -> by (unfold len; simpl length; lia).
    by destruct (Z.ltb_spec (slen s1 - 1) (slen s1 + (1 + len p) - 1)); [|lia].
Qed.

Section Composition.
Context `{GoRuntime}.

Lemma segments_shift wpm freq s1 s2 j q :
  0 <= j ->
  segment wpm freq (s1 ++ s2) <$> enumFrom (slen s1 + j) q
  = segment wpm freq s2 <$> enumFrom j q.
Proof.
  revert j. induction q as [|b q IH]; intros j Hj; [done|].
  cbn [enumFrom]. rewrite !fmap_cons.
  rewrite (segment_gapAfter wpm freq (s1 ++ s2) s2 (slen s1 + j) j)
    by by apply gapAfter_app_r.
  f_equal. rewrite <- Z.add_assoc. apply IH. lia.
Qed.

Lemma segments_inner wpm freq s1 s2 i p :
  0 <= i -> i + len p < slen s1 ->
  segment wpm freq (s1 ++ s2) <$> enumFrom i p
  = segment wpm freq s1 <$> enumFrom i p.
Proof.
  revert i. induction p as [|b p IH]; intros i Hi Hlt; [done|].
  assert (len (b :: p) = 1 + len p) as Hl by (unfold len; simpl length; lia).
  rewrite Hl in Hlt. pose proof (len_nonneg p).
  cbn [enumFrom]. rewrite !fmap_cons.
  rewrite (segment_gapAfter wpm freq (s1 ++ s2) s1 i i)
    by (apply gapAfter_app_l; lia).
  f_equal. apply IH; lia.
Qed.

Lemma segment_last wpm freq s1 s2 c0 :
  1 <= slen s1 -> last (bytes s1) = Some c0 ->
  segment wpm freq (s1 ++ s2) (slen s1 - 1, asciiUpper c0)
  = segment wpm freq s1 (slen s1 - 1, asciiUpper c0) ++ junction wpm s1 s2.
Proof.
  intros Hs1 Hlast. unfold segment, junction. cbn [fst snd]. rewrite Hlast.
  rewrite gapAfter_junction by done. rewrite (gapAfter_last s1) by lia.
  unfold known.
  destruct (asciiUpper c0 =? rune " ") eqn:Hsp.
  - apply Z.eqb_eq in Hsp. rewrite Hsp.
    change (morseCodeMap !! rune " ") with (@None string).
    by destruct (head (bytes s2)); rewrite app_nil_r.
  - destruct (morseCodeMap !! asciiUpper c0) as [morse|].
    + rewrite app_nil_r. f_equal.
      destruct (head (bytes s2)) as [d|]; [|done].
      cbn [andb]. done.
    + by destruct (head (bytes s2)).
Qed.

(** The rendering of a concatenation of ASCII texts. *)
Lemma rendering_app s1 s2 wpm freq :
  isASCII s1 = true -> isASCII s2 = true ->
  rendering (s1 ++ s2) wpm freq
  = rendering s1 wpm freq ++ junction wpm s1 s2 ++ rendering s2 wpm freq.
Proof.
  intros H1 H2.
  rewrite !rendering_ascii by (rewrite ?isASCII_app, ?H1, ?H2; done).
  rewrite bytes_app, fmap_app, enumFrom_app, fmap_app, join_app.
  assert (Hlen : len (asciiUpper <$> bytes s1) = slen s1).
  { unfold len. rewrite length_fmap. apply len_bytes. }
  rewrite Z.add_0_l, Hlen.
  rewrite <- (segments_shift wpm freq s1 s2 0 _ ltac:(lia)), Z.add_0_r.
  rewrite app_assoc. f_equal.
  destruct (decide (bytes s1 = [])) as [Hb|Hne].
  - unfold junction. rewrite Hb. done.
  - destruct (exists_last Hne) as (p & b0 & Hb). rewrite Hb.
    assert (Hs1 : slen s1 = len p + 1).
    { rewrite <- len_bytes, Hb, len_app. done. }
    pose proof (len_nonneg p).
    rewrite fmap_app. rewrite !enumFrom_app, !fmap_app, !join_app.
    assert (Hp : len (asciiUpper <$> p) = len p)
      by (unfold len; by rewrite length_fmap).
    rewrite Z.add_0_l, Hp.
    rewrite segments_inner by lia.
    rewrite <- app_assoc. f_equal.
    cbn [fmap list_fmap enumFrom].
    rewrite !mjoin_cons. change (mjoin []) with (@nil Z). rewrite !app_nil_r.
    replace (len p) with (slen s1 - 1) by lia.
    apply segment_last; [lia|]. rewrite Hb. apply last_snoc.
Qed.

End Composition.

(** ** The number of samples *)

Lemma len_join_sum {A} (f : A -> list Z) (g : A -> Z) (l : list A) :
  Forall (fun x => len (f x) = g x) l -> len (mjoin (f <$> l)) = sumOf g l.
Proof.
  induction 1 as [|x l Hx _ IH]; [done|].
  rewrite fmap_cons, mjoin_cons, len_app. cbn [sumOf foldr].
  unfold sumOf in IH. by rewrite Hx, IH.
Qed.

Section Size.
Context `{GoRuntime}.

Lemma len_markAudio_size wpm freq morse ie :
  is_int wpm -> 0 <= timeUnit wpm ->
  len (markAudio (tone freq (msToSamples (timeUnit wpm)))
                 (tone freq (msToSamples (timeUnit wpm * 3)))
                 (silence (msToSamples (timeUnit wpm))) morse ie)
  = markSize (msToSamples (timeUnit wpm)) (msToSamples (timeUnit wpm * 3))
             (msToSamples (timeUnit wpm)) morse ie.
Proof.
  intros Hw Ht. destruct (counts_nonneg wpm Hw Ht) as (Hdot & Hdash & Hword).
  unfold markAudio, markSize. rewrite len_app. f_equal.
  - destruct (ie.2 =? rune "."); [by rewrite len_tone by lia|].
    destruct (ie.2 =? rune "-"); [by rewrite len_tone by lia|done].
  - destruct (ie.1 <? slen morse - 1); [by rewrite len_silence by lia|done].
Qed.

Lemma len_segment_size wpm freq text ic :
  is_int wpm -> 0 <= timeUnit wpm ->
  len (segment wpm freq text ic) = segmentSize wpm text ic.
Proof.
  intros Hw Ht. destruct (counts_nonneg wpm Hw Ht) as (Hdot & Hdash & Hword).
  unfold segment, segmentSize. cbv zeta.
  destruct (ic.2 =? rune " "); [by rewrite len_silence by lia|].
  destruct (morseCodeMap !! ic.2) as [morse|]; [|done].
  rewrite len_app. f_equal.
  - unfold charAudio. apply len_join_sum, Forall_forall. intros ie _.
    by apply len_markAudio_size.
  - destruct (gapAfter text ic.1); [by rewrite len_silence by lia|done].
Qed.

Lemma len_rendering_size text wpm freq :
  is_int wpm -> 0 <= timeUnit wpm ->
  len (rendering text wpm freq) = renderingSize text wpm.
Proof.
  intros Hw Ht. unfold rendering, renderingSize.
  apply len_join_sum, Forall_forall. intros ic _. by apply len_segment_size.
Qed.

Lemma ToUpper_sOS :
  unicode_upperCase 383 = 83 -> strings_ToUpper text_sOS = "SO S"%string.
Proof.
  intros Hup. unfold strings_ToUpper.
  change (isASCII text_sOS) with false. cbv iota.
  unfold strings_Map.
  change (rangeFrom 0 0 (bytes text_sOS)) with [(0, 383); (2, 79); (3, 32); (4, 83)].
  cbn [fmap list_fmap snd]. unfold unicode_ToUpper.
  change (383 <=? 127) with false. cbv iota zeta. rewrite Hup. reflexivity.
Qed.

Lemma ToUpper_ssAB :
  unicode_upperCase 383 = 83 -> strings_ToUpper text_ssAB = "SS AB"%string.
Proof.
  intros Hup. unfold strings_ToUpper.
  change (isASCII text_ssAB) with false. cbv iota.
  unfold strings_Map.
  change (rangeFrom 0 0 (bytes text_ssAB))
    with [(0, 383); (2, 383); (4, 32); (5, 65); (6, 66)].
  cbn [fmap list_fmap snd]. unfold unicode_ToUpper.
  change (383 <=? 127) with false. cbv iota zeta. rewrite Hup. reflexivity.
Qed.

End Size.

Lemma is_int_20 : is_int 20.
Proof. unfold is_int, intMin, intMax. lia. Qed.

Lemma timeUnit_20 : timeUnit 20 = 60.
Proof. reflexivity. Qed.

Section Claims2.
Context `{GoRuntime}.

(** C2. Each of the five durations is converted to a number of samples
    by truncating [duration * 44100 / 1000], and these are the lengths
    of the five slices of [newMorseAudio]; at 20 WPM the time unit is
    60 ms and the counts are 2646 (dot), 7938 (dash), 2646 (element
    gap) and 7938 (character gap). *)
Theorem samples_by_truncation wpm :
  is_int wpm ->
  exists dot dash eg cg wg,
    calculateMorseTiming wpm = Some (dot, dash, eg, cg, wg) /\
    msToSamples dot = Z.quot (dot * 44100) 1000 /\
    msToSamples dash = Z.quot (dash * 44100) 1000 /\
    msToSamples eg = Z.quot (eg * 44100) 1000 /\
    msToSamples cg = Z.quot (cg * 44100) 1000 /\
    msToSamples wg = Z.quot (wg * 44100) 1000 /\
    (forall freq morse,
       Pregen.newMorseAudio wpm freq = Some morse ->
       len (Pregen.dotSamples morse) = msToSamples dot /\
       len (Pregen.dashSamples morse) = msToSamples dash /\
       len (Pregen.elementGap morse) = msToSamples eg /\
       len (Pregen.charGap morse) = msToSamples cg /\
       len (Pregen.wordGap morse) = msToSamples wg) /\
    (wpm = 20 ->
     dot = 60000 / (20 * 50) /\ dot = 60 /\ msToSamples dot = 2646 /\
     msToSamples dash = 7938 /\ msToSamples eg = 2646 /\ msToSamples cg = 7938).
Proof.
  intros Hw.
  exists (timeUnit wpm), (timeUnit wpm * 3), (timeUnit wpm),
         (timeUnit wpm * 3), (timeUnit wpm * 7).
  destruct (msToSamples_unit wpm Hw) as (Hdot & Hdash & Hword).
  split; [by apply calculateMorseTiming_unit|].
  repeat (split; [done|]). split.
  - intros freq morse Hnew.
    destruct (Z.lt_ge_cases (timeUnit wpm) 0) as [Hneg|Hpos].
    { by rewrite newMorseAudio_negative in Hnew. }
    rewrite newMorseAudio_pregenerated in Hnew by (done || lia).
    injection Hnew as <-.
    destruct (counts_nonneg wpm Hw ltac:(lia)) as (? & ? & ?).
    unfold pregenerated. cbn.
    by rewrite !len_tone, !len_silence by lia.
  - intros ->. rewrite timeUnit_20. repeat split; reflexivity.
Qed.

(** C4 (the code departs from it).  Case folding changes the output
    when it changes the length of the text: with the long s (U+017F,
    whose upper case is [S]) before [O S], the text and its upper-cased
    form [SO S] give different numbers of samples, in both versions. *)
Theorem case_folding_long_s :
  unicode_upperCase 383 = 83 ->
  strings_ToUpper text_sOS = "SO S"%string /\
  snd <$> Pregen.generateMorseAudio text_sOS 20 600 = Some 97902 /\
  snd <$> Pregen.generateMorseAudio "SO S" 20 600 = Some 82026 /\
  snd <$> Inline.generateMorseAudio text_sOS 20 600 = Some 97902 /\
  snd <$> Inline.generateMorseAudio "SO S" 20 600 = Some 82026.
Proof.
  intros Hup. split; [by apply ToUpper_sOS|].
  assert (Hlong : renderingSize text_sOS 20 = 97902).
  { unfold renderingSize. rewrite ToUpper_sOS by done. reflexivity. }
  assert (Hplain : renderingSize "SO S" 20 = 82026) by reflexivity.
  rewrite !Pregen_generate_rendering, !Inline_generate_rendering
    by (apply is_int_20 || (rewrite timeUnit_20; lia) || reflexivity).
  cbn [fmap option_fmap option_map snd].
  rewrite !len_rendering_size by (apply is_int_20 || (rewrite timeUnit_20; lia)).
  rewrite Hlong, Hplain. repeat split; reflexivity.
Qed.

End Claims2.

Section Claims3.
Context `{GoRuntime}.

Lemma rendering_ssAB :
  unicode_upperCase 383 = 83 ->
  rendering text_ssAB 20 600
  = letterAudio 20 600 "..." ++ silence 7938
    ++ letterAudio 20 600 "..." ++ silence 7938
    ++ silence 18522
    ++ letterAudio 20 600 ".-" ++ letterAudio 20 600 "-..." ++ silence 7938.
Proof.
  intros Hup. unfold rendering. rewrite ToUpper_ssAB by done.
  change (rangeString "SS AB") with [(0, 83); (1, 83); (2, 32); (3, 65); (4, 66)].
  cbn [fmap list_fmap]. rewrite !mjoin_cons.
  unfold segment. cbn [fst snd].
  change (83 =? rune " ") with false. change (32 =? rune " ") with true.
  change (65 =? rune " ") with false. change (66 =? rune " ") with false.
  change (morseCodeMap !! 83) with (Some "..."%string).
  change (morseCodeMap !! 65) with (Some ".-"%string).
  change (morseCodeMap !! 66) with (Some "-..."%string).
  change (gapAfter text_ssAB 0) with true. change (gapAfter text_ssAB 1) with true.
  change (gapAfter text_ssAB 3) with false. change (gapAfter text_ssAB 4) with true.
  cbv iota zeta. rewrite timeUnit_20.
  change (msToSamples (60 * 3)) with 7938. change (msToSamples (60 * 7)) with 18522.
  unfold letterAudio. rewrite timeUnit_20.
  change (mjoin []) with (@nil Z).
  rewrite !app_nil_r, <- !app_assoc. reflexivity.
Qed.

Lemma rendering_SS_AB :
  rendering "SS AB" 20 600
  = letterAudio 20 600 "..." ++ silence 7938
    ++ letterAudio 20 600 "..."
    ++ silence 18522
    ++ letterAudio 20 600 ".-" ++ silence 7938 ++ letterAudio 20 600 "-...".
Proof.
  unfold rendering.
  change (rangeString (strings_ToUpper "SS AB"))
    with [(0, 83); (1, 83); (2, 32); (3, 65); (4, 66)].
  cbn [fmap list_fmap]. rewrite !mjoin_cons.
  unfold segment. cbn [fst snd].
  change (83 =? rune " ") with false. change (32 =? rune " ") with true.
  change (65 =? rune " ") with false. change (66 =? rune " ") with false.
  change (morseCodeMap !! 83) with (Some "..."%string).
  change (morseCodeMap !! 65) with (Some ".-"%string).
  change (morseCodeMap !! 66) with (Some "-..."%string).
  change (gapAfter "SS AB" 0) with true. change (gapAfter "SS AB" 1) with false.
  change (gapAfter "SS AB" 3) with true. change (gapAfter "SS AB" 4) with false.
  cbv iota zeta. rewrite timeUnit_20.
  change (msToSamples (60 * 3)) with 7938. change (msToSamples (60 * 7)) with 18522.
  unfold letterAudio. rewrite timeUnit_20.
  change (mjoin []) with (@nil Z).
  rewrite !app_nil_r, <- !app_assoc. reflexivity.
Qed.

(** C5 (the code departs from it).  With two long s (U+017F) in front,
    [A] in [.. AB] is a supported character, is not the last one and
    is followed by [B], yet no character gap follows it: the audio of
    [B] starts where the audio of [A] ends, and a gap follows [B], the
    last character.  The ASCII text [SS AB] with the same upper-case
    form has the gap between [A] and [B]. *)
Theorem gap_lost_after_long_s :
  unicode_upperCase 383 = 83 ->
  strings_ToUpper text_ssAB = "SS AB"%string /\
  fst <$> Pregen.generateMorseAudio text_ssAB 20 600
  = Some (letterAudio 20 600 "..." ++ silence 7938
          ++ letterAudio 20 600 "..." ++ silence 7938
          ++ silence 18522
          ++ letterAudio 20 600 ".-" ++ letterAudio 20 600 "-..."
          ++ silence 7938) /\
  Inline.generateMorseAudio text_ssAB 20 600
  = Pregen.generateMorseAudio text_ssAB 20 600 /\
  fst <$> Pregen.generateMorseAudio "SS AB" 20 600
  = Some (letterAudio 20 600 "..." ++ silence 7938
          ++ letterAudio 20 600 "..."
          ++ silence 18522
          ++ letterAudio 20 600 ".-" ++ silence 7938
          ++ letterAudio 20 600 "-...").
Proof.
  intros Hup. split; [by apply ToUpper_ssAB|].
  rewrite !Pregen_generate_rendering, !Inline_generate_rendering
    by (apply is_int_20 || (rewrite timeUnit_20; lia) || reflexivity).
  cbn [fmap option_fmap option_map fst].
  by rewrite rendering_ssAB, rendering_SS_AB.
Qed.

End Claims3.

(** ** Little-endian fields *)

Lemma land_shiftl_disjoint a b n :
  0 <= n -> 0 <= a < 2 ^ n -> Z.land a (Z.shiftl b n) = 0.
Proof.
  intros Hn Ha. apply Z.bits_inj'. intros m Hm.
  rewrite Z.land_spec, Z.bits_0.
  destruct (Z.lt_ge_cases m n).
  - rewrite Z.shiftl_spec_low by done. apply andb_false_r.
  - rewrite <- (Z.mod_small a (2 ^ n)) by done.
    rewrite Z.mod_pow2_bits_high by lia. done.
Qed.

Lemma lor_shiftl_add a b n :
  0 <= n -> 0 <= a < 2 ^ n -> Z.lor a (Z.shiftl b n) = a + b * 2 ^ n.
Proof.
  intros Hn Ha. rewrite <- Z.lxor_lor by by apply land_shiftl_disjoint.
  rewrite <- Z.add_nocarry_lxor by by apply land_shiftl_disjoint.
  by rewrite Z.shiftl_mul_pow2.
Qed.

Lemma land_255 v : Z.land v 255 = v mod 256.
Proof. change 255 with (Z.ones 8). by rewrite Z.land_ones. Qed.

Lemma getUint32_bytes v :
  0 <= v < 2 ^ 32 ->
  getUint32 [Z.land v 255; Z.land (Z.shiftr v 8) 255;
             Z.land (Z.shiftr v 16) 255; Z.land (Z.shiftr v 24) 255] = v.
Proof.
  intros Hv. unfold getUint32. rewrite !land_255, !Z.shiftr_div_pow2 by lia.
  pose proof (Z.mod_pos_bound v 256 ltac:(lia)).
  pose proof (Z.mod_pos_bound (v / 2 ^ 8) 256 ltac:(lia)).
  pose proof (Z.mod_pos_bound (v / 2 ^ 16) 256 ltac:(lia)).
  pose proof (Z.mod_pos_bound (v / 2 ^ 24) 256 ltac:(lia)).
  rewrite (lor_shiftl_add _ _ 8) by lia.
  rewrite (lor_shiftl_add _ _ 16) by lia.
  rewrite (lor_shiftl_add _ _ 24) by lia.
  pose proof (Z.div_mod v 256 ltac:(lia)).
  pose proof (Z.div_mod (v / 2 ^ 8) 256 ltac:(lia)).
  pose proof (Z.div_mod (v / 2 ^ 16) 256 ltac:(lia)).
  pose proof (Z.div_mod (v / 2 ^ 24) 256 ltac:(lia)).
  assert (v / 2 ^ 8 / 256 = v / 2 ^ 16) by (rewrite Z.div_div by lia; done).
  assert (v / 2 ^ 16 / 256 = v / 2 ^ 24) by (rewrite Z.div_div by lia; done).
  assert (v / 2 ^ 24 / 256 = 0).
  { rewrite Z.div_div by lia. apply Z.div_small. lia. }
  change (2 ^ 8) with 256 in *. lia.
Qed.

Lemma getUint16_bytes v :
  0 <= v < 2 ^ 16 ->
  getUint16 [Z.land v 255; Z.land (Z.shiftr v 8) 255] = v.
Proof.
  intros Hv. unfold getUint16. rewrite !land_255, !Z.shiftr_div_pow2 by lia.
  pose proof (Z.mod_pos_bound v 256 ltac:(lia)).
  pose proof (Z.mod_pos_bound (v / 2 ^ 8) 256 ltac:(lia)).
  rewrite (lor_shiftl_add _ _ 8) by lia.
  pose proof (Z.div_mod v 256 ltac:(lia)).
  pose proof (Z.div_mod (v / 2 ^ 8) 256 ltac:(lia)).
  assert (v / 2 ^ 8 / 256 = 0).
  { rewrite Z.div_div by lia. apply Z.div_small. lia. }
  change (2 ^ 8) with 256 in *. lia.
Qed.

Lemma uint32_range z : 0 <= uint32 z < 2 ^ 32.
Proof. unfold uint32. apply Z.mod_pos_bound. lia. Qed.

Lemma uint16_range z : 0 <= uint16 z < 2 ^ 16.
Proof. unfold uint16. apply Z.mod_pos_bound. lia. Qed.

Lemma uint32_small z : 0 <= z < 2 ^ 32 -> uint32 z = z.
Proof. intros Hz. unfold uint32. by apply Z.mod_small. Qed.

(** ** The WAV header *)

Lemma writeWavHeader_bytes w dataSize rate :
  writeWavHeader w dataSize rate
  = w ++ bytes "RIFF"
      ++ putUint32 [] (uint32 (int_add 36 dataSize))
      ++ bytes "WAVE" ++ bytes "fmt "
      ++ [16; 0; 0; 0] ++ [1; 0] ++ [1; 0]
      ++ putUint32 [] (uint32 rate)
      ++ putUint32 [] (uint32 (int_mul rate 2))
      ++ [2; 0] ++ [16; 0]
      ++ bytes "data"
      ++ putUint32 [] (uint32 dataSize).
Proof.
  unfold writeWavHeader, putUint32, putUint16.
  rewrite <- !app_assoc. reflexivity.
Qed.

Lemma foldl_putUint16 buf samples :
  foldl (fun buf sample => putUint16 buf (uint16 sample)) buf samples
  = buf ++ mjoin (sampleBytes <$> samples).
Proof.
  revert buf. induction samples as [|s samples IH]; intros buf.
  - simpl. by rewrite app_nil_r.
  - rewrite fmap_cons, mjoin_cons. cbn [foldl]. rewrite IH.
    unfold sampleBytes, putUint16. by rewrite <- !app_assoc.
Qed.

Lemma wavBuffer_bytes samples total :
  wavBuffer samples total
  = writeWavHeader [] (int_mul total 2) sampleRate ++ mjoin (sampleBytes <$> samples).
Proof. unfold wavBuffer. apply foldl_putUint16. Qed.

Lemma length_sampleBytes s : length (sampleBytes s) = 2%nat.
Proof. reflexivity. Qed.

Lemma length_samples_bytes samples :
  length (mjoin (sampleBytes <$> samples)) = (2 * length samples)%nat.
Proof.
  induction samples as [|s samples IH]; [done|].
  rewrite fmap_cons, mjoin_cons, length_app, IH, length_sampleBytes. simpl. lia.
Qed.

Lemma field_samples samples i s :
  samples !! i = Some s ->
  field (mjoin (sampleBytes <$> samples)) (2 * i) 2 = sampleBytes s.
Proof.
  revert i. induction samples as [|x samples IH]; intros [|i] Hi; try done.
  - injection Hi as ->. reflexivity.
  - rewrite fmap_cons, mjoin_cons. unfold field in *.
    replace (2 * S i)%nat with (length (sampleBytes x) + 2 * i)%nat
      by (rewrite length_sampleBytes; lia).
    rewrite drop_app_add. by apply IH.
Qed.

Lemma getUint16_sampleBytes s : getUint16 (sampleBytes s) = uint16 s.
Proof. apply getUint16_bytes, uint16_range. Qed.

(** The header for a data size that fits the 32-bit fields. *)
Lemma header_fields dataSize body :
  0 <= dataSize -> dataSize + 36 < 2 ^ 32 ->
  let buf := writeWavHeader [] dataSize sampleRate ++ body in
  field buf 0 4 = bytes "RIFF" /\
  getUint32 (field buf 4 4) = 36 + dataSize /\
  field buf 8 4 = bytes "WAVE" /\
  field buf 12 4 = bytes "fmt " /\
  getUint32 (field buf 16 4) = 16 /\
  getUint16 (field buf 20 2) = 1 /\
  getUint16 (field buf 22 2) = 1 /\
  getUint32 (field buf 24 4) = 44100 /\
  getUint32 (field buf 28 4) = 44100 * 2 /\
  getUint16 (field buf 32 2) = 2 /\
  getUint16 (field buf 34 2) = 16 /\
  field buf 36 4 = bytes "data" /\
  getUint32 (field buf 40 4) = dataSize /\
  drop 44 buf = body.
Proof.
  intros Hlo Hhi buf. unfold buf. rewrite writeWavHeader_bytes.
  assert (Hsum : int_add 36 dataSize = 36 + dataSize).
  { apply int_add_plain. unfold is_int, intMin, intMax. lia. }
  rewrite Hsum.
  change (bytes "RIFF") with [82; 73; 70; 70].
  change (bytes "WAVE") with [87; 65; 86; 69].
  change (bytes "fmt ") with [102; 109; 116; 32].
  change (bytes "data") with [100; 97; 116; 97].
  change (uint32 sampleRate) with 44100.
  change (uint32 (int_mul sampleRate 2)) with 88200.
  unfold putUint32, field. cbn [app take drop].
  rewrite !getUint32_bytes by (apply uint32_range || lia).
  rewrite !uint32_small by lia.
  repeat split; reflexivity.
Qed.

(** ** The size fields beyond 32 bits *)

Lemma uint32_wrap64 z : uint32 (wrap64 z) = z mod 2 ^ 32.
Proof.
  unfold uint32, wrap64.
  pose proof (Z.div_mod (z + 2 ^ 63) (2 ^ 64) ltac:(lia)) as Hq.
  set (q := (z + 2 ^ 63) / 2 ^ 64) in *.
  replace ((z + 2 ^ 63) mod 2 ^ 64 - 2 ^ 63) with (z + (- q * 2 ^ 32) * 2 ^ 32) by lia.
  apply Z.mod_add. lia.
Qed.

Lemma add_wrap64_mod32 a z : (a + wrap64 z) mod 2 ^ 32 = (a + z) mod 2 ^ 32.
Proof.
  rewrite (Z.add_mod a (wrap64 z)), (Z.add_mod a z) by lia.
  pose proof (uint32_wrap64 z) as Hw. unfold uint32 in Hw. by rewrite Hw.
Qed.

Lemma header_fields_mod dataSize body :
  let buf := writeWavHeader [] dataSize sampleRate ++ body in
  field buf 0 4 = bytes "RIFF" /\
  getUint32 (field buf 4 4) = (36 + dataSize) mod 2 ^ 32 /\
  field buf 8 4 = bytes "WAVE" /\
  field buf 12 4 = bytes "fmt " /\
  getUint32 (field buf 16 4) = 16 /\
  getUint16 (field buf 20 2) = 1 /\
  getUint16 (field buf 22 2) = 1 /\
  getUint32 (field buf 24 4) = 44100 /\
  getUint32 (field buf 28 4) = 44100 * 2 /\
  getUint16 (field buf 32 2) = 2 /\
  getUint16 (field buf 34 2) = 16 /\
  field buf 36 4 = bytes "data" /\
  getUint32 (field buf 40 4) = dataSize mod 2 ^ 32 /\
  drop 44 buf = body.
Proof.
  intros buf. unfold buf. rewrite writeWavHeader_bytes. unfold int_add.
  rewrite <- (uint32_wrap64 (36 + dataSize)).
  change (dataSize mod 2 ^ 32) with (uint32 dataSize).
  pose proof (uint32_range (wrap64 (36 + dataSize))) as R1.
  pose proof (uint32_range dataSize) as R4.
  generalize dependent (uint32 (wrap64 (36 + dataSize))).
  generalize dependent (uint32 dataSize).
  intros v4 R4 v1 R1.
  change (bytes "RIFF") with [82; 73; 70; 70].
  change (bytes "WAVE") with [87; 65; 86; 69].
  change (bytes "fmt ") with [102; 109; 116; 32].
  change (bytes "data") with [100; 97; 116; 97].
  change (uint32 sampleRate) with 44100.
  change (uint32 (int_mul sampleRate 2)) with 88200.
  unfold putUint32, field. cbn [app take drop].
  rewrite !getUint32_bytes by (done || lia).
  repeat split; reflexivity.
Qed.

Lemma length_writeWavHeader w dataSize rate :
  length (writeWavHeader w dataSize rate) = (length w + 44)%nat.
Proof. rewrite writeWavHeader_bytes, length_app. reflexivity. Qed.

Section Claims4.
Context `{GoRuntime}.

Lemma rendering_empty wpm freq : rendering "" wpm freq = [].
Proof. reflexivity. Qed.

Lemma rendering_space wpm freq :
  rendering " " wpm freq = silence (msToSamples (timeUnit wpm * 7)).
Proof.
  unfold rendering.
  change (rangeString (strings_ToUpper " ")) with [(0, rune " ")].
  cbn [fmap list_fmap]. rewrite mjoin_cons. change (mjoin []) with (@nil Z).
  rewrite app_nil_r. reflexivity.
Qed.

Lemma segment_space wpm freq text i :
  segment wpm freq text (i, rune " ") = silence (msToSamples (timeUnit wpm * 7)).
Proof. reflexivity. Qed.

Lemma junction_space_r wpm s1 s2 : junction wpm s1 (" " ++ s2) = [].
Proof.
  unfold junction. rewrite bytes_app. change (bytes " ") with [rune " "].
  cbn [app head]. change (rune " " =? rune " ") with true.
  destruct (last (bytes s1)); [|done]. by rewrite andb_false_r.
Qed.

Lemma junction_space_l wpm s2 : junction wpm " " s2 = [].
Proof.
  unfold junction. change (last (bytes " ")) with (Some (rune " ")).
  change (known (asciiUpper (rune " "))) with false.
  by destruct (head (bytes s2)).
Qed.

Lemma rendering_around_space s1 s2 wpm freq :
  isASCII s1 = true -> isASCII s2 = true ->
  rendering (s1 ++ " " ++ s2) wpm freq
  = rendering s1 wpm freq ++ silence (msToSamples (timeUnit wpm * 7))
    ++ rendering s2 wpm freq.
Proof.
  intros H1 H2.
  rewrite rendering_app by (rewrite ?isASCII_app, ?H2; done).
  rewrite junction_space_r, app_nil_l.
  rewrite rendering_app by done.
  by rewrite junction_space_l, app_nil_l, rendering_space.
Qed.

(** C6. A space is rendered as the word gap and nothing else.  For
    every text the result is the concatenation of the segments of the
    runes of the upper-cased text, and the segment of a space is
    [wordGap] zeros, with no character gap; between two ASCII texts a
    space adds exactly these zeros; the text made of one space gives
    these zeros alone.  (The time unit is not negative and the text is
    shorter than 4 GiB.) *)
Theorem space_is_word_gap text wpm freq :
  is_int wpm -> 0 <= timeUnit wpm -> slen text < 2 ^ 32 ->
  (fst <$> Pregen.generateMorseAudio text wpm freq
   = Some (mjoin (segment wpm freq text <$> rangeString (strings_ToUpper text)))
   /\ Inline.generateMorseAudio text wpm freq
      = Pregen.generateMorseAudio text wpm freq
   /\ forall i, segment wpm freq text (i, rune " ")
                = replicate (Z.to_nat (msToSamples (timeUnit wpm * 7))) 0) /\
  (forall s1 s2,
     text = (s1 ++ " " ++ s2)%string -> isASCII s1 = true -> isASCII s2 = true ->
     exists a b,
       Pregen.generateMorseAudio s1 wpm freq = Some (a, len a) /\
       Pregen.generateMorseAudio s2 wpm freq = Some (b, len b) /\
       Pregen.generateMorseAudio text wpm freq
       = Some (a ++ replicate (Z.to_nat (msToSamples (timeUnit wpm * 7))) 0 ++ b,
               len a + msToSamples (timeUnit wpm * 7) + len b)) /\
  (text = " "%string ->
   Pregen.generateMorseAudio text wpm freq
   = Some (replicate (Z.to_nat (msToSamples (timeUnit wpm * 7))) 0,
           msToSamples (timeUnit wpm * 7))).
Proof.
  intros Hw Ht Htext.
  destruct (counts_nonneg wpm Hw Ht) as (_ & _ & Hword).
  rewrite Inline_generate_rendering, Pregen_generate_rendering by assumption.
  split; [|split].
  - split; [reflexivity|]. split; [reflexivity|]. intros i. apply segment_space.
  - intros s1 s2 -> H1 H2.
    rewrite !slen_app in Htext. change (slen " ") with 1 in Htext.
    pose proof (Nat2Z.is_nonneg (String.length s1)).
    pose proof (Nat2Z.is_nonneg (String.length s2)).
    assert (slen s1 < 2 ^ 32) by (unfold slen in *; lia).
    assert (slen s2 < 2 ^ 32) by (unfold slen in *; lia).
    exists (rendering s1 wpm freq), (rendering s2 wpm freq).
    rewrite !Pregen_generate_rendering by assumption.
    split; [reflexivity|]. split; [reflexivity|].
    rewrite rendering_around_space by assumption.
    rewrite !len_app, len_silence by lia.
    unfold silence. do 2 f_equal. lia.
  - intros ->. rewrite rendering_space, len_silence by lia. reflexivity.
Qed.

Lemma Inline_generate_empty wpm freq :
  is_int wpm -> Inline.generateMorseAudio "" wpm freq = Some ([], 0).
Proof.
  intros Hw. unfold Inline.generateMorseAudio, Inline.run.
  rewrite calculateMorseTiming_unit by assumption. reflexivity.
Qed.

Lemma generate_count text wpm freq samples total :
  is_int wpm -> slen text < 2 ^ 32 ->
  Pregen.generateMorseAudio text wpm freq = Some (samples, total)
  \/ Inline.generateMorseAudio text wpm freq = Some (samples, total) ->
  len samples = total /\ (text = ""%string -> samples = []).
Proof.
  intros Hw Htext [Hgen|Hgen].
  - destruct (Z.lt_ge_cases (timeUnit wpm) 0) as [Hneg|Hpos].
    { unfold Pregen.generateMorseAudio in Hgen.
      rewrite Pregen_run_negative in Hgen by assumption. discriminate. }
    rewrite Pregen_generate_rendering in Hgen by (assumption || lia).
    injection Hgen as <- <-. split; [reflexivity|]. by intros ->.
  - split.
    + unfold Inline.generateMorseAudio in Hgen.
      destruct (Inline.run text wpm freq) as [[tot st]|] eqn:Hrun; [|discriminate].
      cbn in Hgen. injection Hgen as <- <-.
      destruct (Z.lt_ge_cases (timeUnit wpm) 0) as [Hneg|Hpos].
      * by destruct (Inline_run_negative text wpm freq tot st Hw Hneg Hrun)
          as (? & _).
      * rewrite Inline_run_rendering in Hrun by (assumption || lia).
        by injection Hrun as <- <-.
    + intros ->. rewrite Inline_generate_empty in Hgen by assumption.
      by injection Hgen as <- _.
Qed.

(** C8. The buffer handed to the decoder: the tag RIFF, the total size,
    the tag WAVE, the format chunk (size 16, PCM marker 1, one channel,
    rate 44100, byte rate 44100 x 2, block alignment 2, 16 bits per
    sample), the tag data, the data size, then the samples, two bytes
    each, all in little-endian order.  The two size fields are 32 bits
    wide and hold 36 + data size and the data size reduced modulo 2^32:
    they are 36 + data size and the data size exactly when these fit,
    and for the empty text they are 36 and 0.  (The data size is two
    bytes per sample.) *)
Theorem wav_container text wpm freq samples total :
  is_int wpm -> slen text < 2 ^ 32 ->
  Pregen.generateMorseAudio text wpm freq = Some (samples, total)
  \/ Inline.generateMorseAudio text wpm freq = Some (samples, total) ->
  let buf := wavBuffer samples total in
  (field buf 0 4 = bytes "RIFF" /\
   getUint32 (field buf 4 4) = (36 + total * 2) mod 2 ^ 32 /\
   field buf 8 4 = bytes "WAVE" /\
   field buf 12 4 = bytes "fmt " /\
   getUint32 (field buf 16 4) = 16 /\
   getUint16 (field buf 20 2) = 1 /\
   getUint16 (field buf 22 2) = 1 /\
   getUint32 (field buf 24 4) = 44100 /\
   getUint32 (field buf 28 4) = 44100 * 2 /\
   getUint16 (field buf 32 2) = 2 /\
   getUint16 (field buf 34 2) = 16 /\
   field buf 36 4 = bytes "data" /\
   getUint32 (field buf 40 4) = (total * 2) mod 2 ^ 32) /\
  (total * 2 + 36 < 2 ^ 32 ->
   getUint32 (field buf 4 4) = 36 + total * 2 /\
   getUint32 (field buf 40 4) = total * 2) /\
  len buf = 44 + total * 2 /\
  (forall i s, samples !! i = Some s ->
               getUint16 (field buf (44 + 2 * i) 2) = uint16 s) /\
  (text = ""%string ->
   getUint32 (field buf 4 4) = 36 /\ getUint32 (field buf 40 4) = 0
   /\ len buf = 44).
Proof.
  intros Hw Htext Hgen buf.
  destruct (generate_count text wpm freq samples total Hw Htext Hgen)
    as [Hlen Hempty].
  pose proof (len_nonneg samples).
  unfold buf. rewrite wavBuffer_bytes.
  destruct (header_fields_mod (int_mul total 2) (mjoin (sampleBytes <$> samples)))
    as (F0 & F1 & F2 & F3 & F4 & F5 & F6 & F7 & F8 & F9 & F10 & F11 & F12 & Hbody).
  unfold int_mul in F1, F12. rewrite add_wrap64_mod32 in F1.
  pose proof (uint32_wrap64 (total * 2)) as Hdata. unfold uint32 in Hdata.
  rewrite Hdata in F12. fold (int_mul total 2) in F1, F12, Hbody |- *.
  assert (Hbuf : len (writeWavHeader [] (int_mul total 2) sampleRate
                      ++ mjoin (sampleBytes <$> samples)) = 44 + total * 2).
  { rewrite len_app. unfold len. rewrite length_samples_bytes.
    rewrite length_writeWavHeader. unfold len in Hlen. cbn [length]. lia. }
  split; [|split; [|split; [|split]]].
  - repeat (split; [assumption|]). assumption.
  - intros Hfit. rewrite F1, F12. rewrite !Z.mod_small by lia. done.
  - exact Hbuf.
  - intros i s Hi. unfold field.
    rewrite <- drop_drop, Hbody.
    change (getUint16 (field (mjoin (sampleBytes <$> samples)) (2 * i) 2) = uint16 s).
    rewrite (field_samples samples i s Hi). apply getUint16_sampleBytes.
  - intros Htxt. specialize (Hempty Htxt). subst samples.
    change (len (@nil Z)) with 0 in Hlen. subst total.
    rewrite F1, F12, Hbuf. repeat split; reflexivity.
Qed.

End Claims4.

(** * The statements at concrete inputs *)

Lemma is_int_1200 : is_int 1200.
Proof. unfold is_int, intMin, intMax. lia. Defined.

Lemma samples_by_truncation_witness :
  is_int 20 /\
  exists dot dash eg cg wg,
    calculateMorseTiming 20 = Some (dot, dash, eg, cg, wg) /\
    msToSamples dot = 2646 /\ msToSamples dash = 7938 /\
    msToSamples eg = 2646 /\ msToSamples cg = 7938.
Proof.
  assert (Hint : is_int 20) by (unfold is_int, intMin, intMax; lia).
  split; [exact Hint|].
  destruct (@samples_by_truncation exampleRuntime 20 Hint)
    as (dot & dash & eg & cg & wg & Ht & _ & _ & _ & _ & _ & _ & H20).
  destruct (H20 eq_refl) as (_ & _ & Hdot & Hdash & Heg & Hcg).
  exists dot, dash, eg, cg, wg. repeat split; assumption.
Defined.

Lemma case_folding_long_s_witness :
  @unicode_upperCase exampleRuntime 383 = 83 /\
  @strings_ToUpper exampleRuntime text_sOS = "SO S"%string /\
  snd <$> @Pregen.generateMorseAudio exampleRuntime text_sOS 20 600 = Some 97902 /\
  snd <$> @Pregen.generateMorseAudio exampleRuntime "SO S" 20 600 = Some 82026 /\
  snd <$> @Inline.generateMorseAudio exampleRuntime text_sOS 20 600 = Some 97902 /\
  snd <$> @Inline.generateMorseAudio exampleRuntime "SO S" 20 600 = Some 82026.
Proof.
  split; [reflexivity|]. apply (@case_folding_long_s exampleRuntime). reflexivity.
Defined.

Lemma gap_lost_after_long_s_witness :
  @unicode_upperCase exampleRuntime 383 = 83 /\
  @strings_ToUpper exampleRuntime text_ssAB = "SS AB"%string /\
  fst <$> @Pregen.generateMorseAudio exampleRuntime text_ssAB 20 600
  = Some (@letterAudio exampleRuntime 20 600 "..." ++ silence 7938
          ++ @letterAudio exampleRuntime 20 600 "..." ++ silence 7938
          ++ silence 18522
          ++ @letterAudio exampleRuntime 20 600 ".-"
          ++ @letterAudio exampleRuntime 20 600 "-..."
          ++ silence 7938).
Proof.
  split; [reflexivity|].
  destruct (@gap_lost_after_long_s exampleRuntime eq_refl) as (Hup & Hgen & _).
  split; [exact Hup|exact Hgen].
Defined.

Lemma space_is_word_gap_witness :
  is_int 1200 /\ 0 <= timeUnit 1200 /\ slen " " < 2 ^ 32 /\
  @Pregen.generateMorseAudio exampleRuntime " " 1200 600
  = Some (replicate 308 0, 308).
Proof.
  assert (Ht : 0 <= timeUnit 1200) by (vm_compute; discriminate).
  assert (Hs : slen " " < 2 ^ 32) by (vm_compute; reflexivity).
  repeat (split; [assumption || exact is_int_1200|]).
  destruct (@space_is_word_gap exampleRuntime " " 1200 600 is_int_1200 Ht Hs)
    as (_ & _ & Hone).
  exact (Hone eq_refl).
Defined.

Lemma passes_agree_witness :
  is_int 1200 /\ slen "E E" < 2 ^ 32 /\
  is_Some (@Pregen.run exampleRuntime "E E" 1200 600) /\
  is_Some (@Inline.run exampleRuntime "E E" 1200 600) /\
  (forall total st,
     @Inline.run exampleRuntime "E E" 1200 600 = Some (total, st) ->
     len (Inline.samples st) = total /\ Inline.currentSample st = total
     /\ Inline.suppressed st = 0).
Proof.
  assert (Hs : slen "E E" < 2 ^ 32) by (vm_compute; reflexivity).
  split; [exact is_int_1200|]. split; [exact Hs|].
  destruct (@passes_agree exampleRuntime "E E" 1200 600 is_int_1200 Hs)
    as (Hsome & _ & Hinline).
  assert (Ht : 0 <= timeUnit 1200) by (vm_compute; discriminate).
  destruct (Hsome Ht) as [Hp Hi].
  split; [exact Hp|]. split; [exact Hi|exact Hinline].
Defined.

Lemma versions_agree_witness :
  is_int 1200 /\ 0 <= timeUnit 1200 /\ slen "SOS" < 2 ^ 32 /\
  @Pregen.generateMorseAudio exampleRuntime "SOS" 1200 600
  = @Inline.generateMorseAudio exampleRuntime "SOS" 1200 600 /\
  is_Some (@Pregen.generateMorseAudio exampleRuntime "SOS" 1200 600).
Proof.
  assert (Ht : 0 <= timeUnit 1200) by (vm_compute; discriminate).
  assert (Hs : slen "SOS" < 2 ^ 32) by (vm_compute; reflexivity).
  repeat (split; [assumption || exact is_int_1200|]).
  exact (@versions_agree exampleRuntime "SOS" 1200 600 is_int_1200 Ht Hs).
Defined.

(** C10, as stated, fails.  For WPM = 8116567392432202711 the product
    [wpm * 50] wraps to -2 and the time unit is -30000: [newMorseAudio]
    panics in [make], whatever the text, while the inline version
    returns the empty result for the empty text. *)
Lemma versions_differ_on_negative_timing :
  calculateMorseTiming 8116567392432202711
  = Some (-30000, -90000, -30000, -90000, -210000) /\
  @Pregen.generateMorseAudio exampleRuntime "" 8116567392432202711 600 = None /\
  @Inline.generateMorseAudio exampleRuntime "" 8116567392432202711 600
  = Some ([], 0) /\
  @Pregen.generateMorseAudio exampleRuntime "" 8116567392432202711 600
  <> @Inline.generateMorseAudio exampleRuntime "" 8116567392432202711 600.
Proof.
  split; [vm_compute; reflexivity|].
  split; [vm_compute; reflexivity|].
  split; [vm_compute; reflexivity|].
  vm_compute. discriminate.
Qed.

Lemma wav_container_witness :
  is_int 1200 /\ slen "E" < 2 ^ 32 /\
  @Pregen.generateMorseAudio exampleRuntime "E" 1200 600
  = Some (@rendering exampleRuntime "E" 1200 600, 44) /\
  let buf := wavBuffer (@rendering exampleRuntime "E" 1200 600) 44 in
  field buf 0 4 = bytes "RIFF" /\
  getUint32 (field buf 4 4) = (36 + 44 * 2) mod 2 ^ 32 /\
  getUint32 (field buf 40 4) = (44 * 2) mod 2 ^ 32 /\
  len buf = 44 + 44 * 2.
Proof.
  assert (Hs : slen "E" < 2 ^ 32) by (vm_compute; reflexivity).
  assert (Hgen : @Pregen.generateMorseAudio exampleRuntime "E" 1200 600
                 = Some (@rendering exampleRuntime "E" 1200 600, 44))
    by (vm_compute; reflexivity).
  split; [exact is_int_1200|]. split; [exact Hs|]. split; [exact Hgen|].
  destruct (@wav_container exampleRuntime "E" 1200 600 _ 44 is_int_1200 Hs
              (or_introl Hgen))
    as ((F0 & F1 & _ & _ & _ & _ & _ & _ & _ & _ & _ & _ & F12) & _ & Hlen & _).
  repeat split; assumption.
Defined.

(** C8, as stated, fails beyond 32 bits.  A text of 1845 characters [0]
    at 1 WPM gives 2147864040 samples, 4295728080 bytes of data: the
    total-size field holds 760820, not 36 + 4295728080 = 4295728116, and
    the data-size field 760784. *)
Lemma wav_size_fields_wrap :
  slen (zeros 1845) = 1845 /\
  @Pregen.generateMorseAudio exampleRuntime (zeros 1845) 1 600
  = Some (@rendering exampleRuntime (zeros 1845) 1 600, 2147864040) /\
  @Inline.generateMorseAudio exampleRuntime (zeros 1845) 1 600
  = Some (@rendering exampleRuntime (zeros 1845) 1 600, 2147864040) /\
  2147864040 * 2 = 4295728080 /\
  getUint32 (field (wavBuffer (@rendering exampleRuntime (zeros 1845) 1 600)
                              2147864040) 4 4) = 760820 /\
  getUint32 (field (wavBuffer (@rendering exampleRuntime (zeros 1845) 1 600)
                              2147864040) 40 4) = 760784 /\
  getUint32 (field (wavBuffer (@rendering exampleRuntime (zeros 1845) 1 600)
                              2147864040) 4 4) <> 36 + 4295728080 /\
  getUint32 (field (wavBuffer (@rendering exampleRuntime (zeros 1845) 1 600)
                              2147864040) 40 4) <> 4295728080.
Proof.
  assert (Hi : is_int 1) by (unfold is_int, intMin, intMax; lia).
  assert (Ht : 0 <= timeUnit 1) by (vm_compute; discriminate).
  assert (Hs : slen (zeros 1845) < 2 ^ 32) by (vm_compute; reflexivity).
  assert (Hn : len (@rendering exampleRuntime (zeros 1845) 1 600) = 2147864040).
  { rewrite len_rendering_size by assumption. vm_compute. reflexivity. }
  assert (H4 : getUint32 (field (wavBuffer (@rendering exampleRuntime (zeros 1845)
                                              1 600) 2147864040) 4 4) = 760820).
  { rewrite wavBuffer_bytes.
    destruct (header_fields_mod (int_mul 2147864040 2)
                (mjoin (sampleBytes <$> @rendering exampleRuntime (zeros 1845) 1 600)))
      as (_ & F1 & _). rewrite F1. vm_compute. reflexivity. }
  assert (H40 : getUint32 (field (wavBuffer (@rendering exampleRuntime (zeros 1845)
                                               1 600) 2147864040) 40 4) = 760784).
  { rewrite wavBuffer_bytes.
    destruct (header_fields_mod (int_mul 2147864040 2)
                (mjoin (sampleBytes <$> @rendering exampleRuntime (zeros 1845) 1 600)))
      as (_ & _ & _ & _ & _ & _ & _ & _ & _ & _ & _ & _ & F12 & _).
    rewrite F12. vm_compute. reflexivity. }
  split; [vm_compute; reflexivity|].
  split; [rewrite Pregen_generate_rendering by assumption; by rewrite Hn|].
  split; [rewrite Inline_generate_rendering by assumption; by rewrite Hn|].
  split; [reflexivity|].
  split; [exact H4|]. split; [exact H40|].
  rewrite H4, H40. split; discriminate.
Qed.

(** * Further properties of the generator *)

Section CaseFolding.
Context `{GoRuntime}.

Lemma slen_ToUpper_ascii text :
  isASCII text = true -> slen (strings_ToUpper text) = slen text.
Proof.
  intros Ha. rewrite <- !len_bytes, bytes_ToUpper_ascii by done.
  unfold len. by rewrite length_fmap.
Qed.

Lemma ToUpper_idemp_ascii text :
  isASCII text = true ->
  strings_ToUpper (strings_ToUpper text) = strings_ToUpper text.
Proof.
  intros Ha.
  rewrite (strings_ToUpper_ascii (strings_ToUpper text)) by by apply isASCII_ToUpper.
  rewrite bytes_ToUpper_ascii by done.
  rewrite (strings_ToUpper_ascii text) by done. f_equal.
  rewrite <- list_fmap_compose. apply list_fmap_ext. intros _ b _. simpl.
  apply asciiUpper_idemp.
Qed.

Lemma charGapFollows_ToUpper text i :
  isASCII text = true ->
  charGapFollows (strings_ToUpper text) i = charGapFollows text i.
Proof.
  intros Ha. unfold charGapFollows. rewrite slen_ToUpper_ascii by done.
  destruct (i <? slen text - 1); [|done].
  unfold index. destruct (i + 1 <? 0); [done|].
  rewrite bytes_ToUpper_ascii by done. rewrite list_lookup_fmap.
  destruct (bytes text !! Z.to_nat (i + 1)) as [b|]; simpl; [|done].
  by rewrite asciiUpper_space.
Qed.

Lemma Pregen_run_ToUpper text wpm freq :
  isASCII text = true ->
  Pregen.run (strings_ToUpper text) wpm freq = Pregen.run text wpm freq.
Proof.
  intros Ha. unfold Pregen.run.
  destruct (Pregen.newMorseAudio wpm freq) as [morse|]; [|done]. simpl.
  rewrite ToUpper_idemp_ascii by done.
  rewrite (forEach_ext (Pregen.sizeStep morse (strings_ToUpper text))
                       (Pregen.sizeStep morse text)).
  2:{ apply Forall_true. intros [i c] tot. unfold Pregen.sizeStep.
      by rewrite charGapFollows_ToUpper. }
  destruct (forEach (Pregen.sizeStep morse text) _ 0) as [tot|]; [|done]. simpl.
  destruct (make tot) as [s|]; [|done]. simpl.
  rewrite (forEach_ext (Pregen.fillStep morse (strings_ToUpper text))
                       (Pregen.fillStep morse text)); [done|].
  apply Forall_true. intros [i c] [s' cs]. unfold Pregen.fillStep.
  by rewrite charGapFollows_ToUpper.
Qed.

Lemma Inline_run_ToUpper text wpm freq :
  isASCII text = true ->
  Inline.run (strings_ToUpper text) wpm freq = Inline.run text wpm freq.
Proof.
  intros Ha. unfold Inline.run.
  destruct (calculateMorseTiming wpm) as [[[[[d1 d2] d3] d4] d5]|]; [|done]. simpl.
  rewrite ToUpper_idemp_ascii by done.
  rewrite (forEach_ext (Inline.sizeStep _ _ _ _ _ (strings_ToUpper text))
                       (Inline.sizeStep (msToSamples d1) (msToSamples d2)
                          (msToSamples d3) (msToSamples d4) (msToSamples d5) text)).
  2:{ apply Forall_true. intros [i c] tot. unfold Inline.sizeStep.
      by rewrite charGapFollows_ToUpper. }
  destruct (forEach (Inline.sizeStep _ _ _ _ _ text) _ 0) as [tot|]; [|done]. simpl.
  destruct (make tot) as [s|]; [|done]. simpl.
  rewrite (forEach_ext (Inline.fillStep _ _ _ _ _ _ (strings_ToUpper text))
                       (Inline.fillStep (msToSamples d1) (msToSamples d2)
                          (msToSamples d3) (msToSamples d4) (msToSamples d5)
                          freq text)); [done|].
  apply Forall_true. intros [i c] st. unfold Inline.fillStep.
  by rewrite charGapFollows_ToUpper.
Qed.

(** X1. For a text of ASCII bytes, both versions of
    [generateMorseAudio] do on the text exactly what they do on its
    upper-cased form, whatever the speed and the frequency: the same
    samples and the same count, or the same panic. *)
Theorem ascii_case_insensitive text wpm freq :
  isASCII text = true ->
  Pregen.generateMorseAudio (strings_ToUpper text) wpm freq
  = Pregen.generateMorseAudio text wpm freq /\
  Inline.generateMorseAudio (strings_ToUpper text) wpm freq
  = Inline.generateMorseAudio text wpm freq.
Proof.
  intros Ha. unfold Pregen.generateMorseAudio, Inline.generateMorseAudio.
  by rewrite Pregen_run_ToUpper, Inline_run_ToUpper.
Qed.

End CaseFolding.

Lemma ascii_case_insensitive_witness :
  isASCII "sos" = true /\
  @strings_ToUpper exampleRuntime "sos" = "SOS"%string /\
  @Pregen.generateMorseAudio exampleRuntime "SOS" 1200 600
  = @Pregen.generateMorseAudio exampleRuntime "sos" 1200 600 /\
  @Inline.generateMorseAudio exampleRuntime "SOS" 1200 600
  = @Inline.generateMorseAudio exampleRuntime "sos" 1200 600.
Proof.
  split; [reflexivity|]. split; [reflexivity|].
  exact (@ascii_case_insensitive exampleRuntime "sos" 1200 600 eq_refl).
Defined.

#[local] Arguments morseCodeMap : simpl never.

Lemma slen_nonneg s : 0 <= slen s.
Proof. unfold slen. lia. Qed.

Lemma known_space : known (rune " ") = false.
Proof. reflexivity. Qed.

Lemma isASCII_single c : byteVal c < 128 -> isASCII (String c "") = true.
Proof.
  intros Hc. unfold isASCII, bytes. simpl.
  destruct (Z.ltb_spec (byteVal c) 128); [done|lia].
Qed.


Section Composition.
Context `{GoRuntime}.

Lemma rendering_single c wpm freq :
  byteVal c < 128 ->
  rendering (String c "") wpm freq
  = if asciiUpper (byteVal c) =? rune " "
    then silence (msToSamples (timeUnit wpm * 7))
    else match morseCodeMap !! asciiUpper (byteVal c) with
         | Some morse => letterAudio wpm freq morse
         | None => []
         end.
Proof.
  intros Hc. rewrite rendering_ascii by by apply isASCII_single.
  change (enumFrom 0 (asciiUpper <$> bytes (String c "")))
    with [(0, asciiUpper (byteVal c))].
  rewrite fmap_cons, mjoin_cons, fmap_nil. change (mjoin []) with (@nil Z).
  rewrite app_nil_r. unfold segment. cbn [fst snd].
  destruct (asciiUpper (byteVal c) =? rune " "); [done|].
  destruct (morseCodeMap !! asciiUpper (byteVal c)) as [morse|]; [|done].
  rewrite gapAfter_last by (change (slen (String c "")) with 1; lia).
  by rewrite app_nil_r.
Qed.



(** X4. A supported character at the end of an ASCII text is rendered
    as its marks alone: no gap follows the last character, and a text
    of one supported character is exactly the audio of that character.
    (Time unit not negative, text shorter than 4 GiB.) *)
Theorem last_character_without_gap s c morse wpm freq :
  is_int wpm -> 0 <= timeUnit wpm -> slen (s ++ String c "") < 2 ^ 32 ->
  isASCII s = true -> byteVal c < 128 ->
  morseCodeMap !! asciiUpper (byteVal c) = Some morse ->
  Pregen.generateMorseAudio (String c "") wpm freq
  = Some (letterAudio wpm freq morse, len (letterAudio wpm freq morse)) /\
  Inline.generateMorseAudio (String c "") wpm freq
  = Some (letterAudio wpm freq morse, len (letterAudio wpm freq morse)) /\
  exists a,
    Pregen.generateMorseAudio s wpm freq = Some (a, len a) /\
    fst <$> Pregen.generateMorseAudio (s ++ String c "") wpm freq
    = Some (a ++ junction wpm s (String c "") ++ letterAudio wpm freq morse) /\
    fst <$> Inline.generateMorseAudio (s ++ String c "") wpm freq
    = Some (a ++ junction wpm s (String c "") ++ letterAudio wpm freq morse).
Proof.
  intros Hint Ht Hlen Ha Hc Hm.
  assert (Hl := Hlen). rewrite slen_app in Hl.
  pose proof (slen_nonneg s).
  assert (slen (String c "") = 1) as Hcs by reflexivity.
  assert (Hsp : (asciiUpper (byteVal c) =? rune " ") = false).
  { apply Z.eqb_neq. intros Heq. pose proof known_space as Hk.
    unfold known in Hk. rewrite <- Heq, Hm in Hk. discriminate Hk. }
  assert (Hr : rendering (String c "") wpm freq = letterAudio wpm freq morse).
  { rewrite rendering_single by done. by rewrite Hsp, Hm. }
  rewrite !Pregen_generate_rendering, !Inline_generate_rendering by (done || lia).
  rewrite Hr. split; [done|]. split; [done|].
  exists (rendering s wpm freq). split; [done|].
  rewrite rendering_app by (done || by apply isASCII_single).
  rewrite Hr. done.
Qed.



Lemma isASCII_spaces n : isASCII (spaces n) = true.
Proof. induction n as [|n IH]; [done|]. exact IH. Qed.

Lemma slen_spaces n : slen (spaces n) = Z.of_nat n.
Proof. unfold slen. f_equal. induction n as [|n IH]; simpl; [done|by rewrite IH]. Qed.

Lemma rendering_spaces n wpm freq :
  0 <= msToSamples (timeUnit wpm * 7) ->
  rendering (spaces n) wpm freq
  = silence (Z.of_nat n * msToSamples (timeUnit wpm * 7)).
Proof.
  intros Hw. induction n as [|n IH]; [apply rendering_empty|].
  change (spaces (S n)) with (" " ++ spaces n)%string.
  rewrite rendering_app by (done || apply isASCII_spaces).
  rewrite rendering_space, junction_space_l, IH. rewrite app_nil_l.
  rewrite (silence_split (msToSamples (timeUnit wpm * 7))
             (Z.of_nat (S n) * msToSamples (timeUnit wpm * 7))) by nia.
  do 2 f_equal. lia.
Qed.

(** X6. Spaces are not collapsed: a text of [n] spaces is [n] word gaps
    of silence, in both versions.  (Time unit not negative, fewer than
    2^32 spaces.) *)
Theorem spaces_are_word_gaps n wpm freq :
  is_int wpm -> 0 <= timeUnit wpm -> Z.of_nat n < 2 ^ 32 ->
  Pregen.generateMorseAudio (spaces n) wpm freq
  = Some (replicate (n * Z.to_nat (msToSamples (timeUnit wpm * 7))) 0,
          Z.of_nat n * msToSamples (timeUnit wpm * 7)) /\
  Inline.generateMorseAudio (spaces n) wpm freq
  = Some (replicate (n * Z.to_nat (msToSamples (timeUnit wpm * 7))) 0,
          Z.of_nat n * msToSamples (timeUnit wpm * 7)).
Proof.
  intros Hint Ht Hn.
  destruct (counts_nonneg wpm Hint Ht) as (_ & _ & Hw & _).
  rewrite Pregen_generate_rendering, Inline_generate_rendering
    by (rewrite ?slen_spaces; done).
  rewrite rendering_spaces by done. rewrite len_silence by nia.
  unfold silence.
  replace (Z.to_nat (Z.of_nat n * msToSamples (timeUnit wpm * 7)))
    with (n * Z.to_nat (msToSamples (timeUnit wpm * 7)))%nat by nia.
  done.
Qed.

End Composition.

Lemma known_not_space c morse :
  morseCodeMap !! c = Some morse -> (c =? rune " ") = false.
Proof.
  intros Hm. apply Z.eqb_neq. intros Heq. pose proof known_space as Hk.
  unfold known in Hk. rewrite <- Heq, Hm in Hk. discriminate Hk.
Qed.

Lemma sumOf_app {A} (f : A -> Z) l1 l2 :
  sumOf f (l1 ++ l2) = sumOf f l1 + sumOf f l2.
Proof.
  unfold sumOf. induction l1 as [|x l1 IH]; [done|].
  cbn [app foldr]. rewrite IH. lia.
Qed.

Lemma sumOf_cons {A} (f : A -> Z) x l : sumOf f (x :: l) = f x + sumOf f l.
Proof. reflexivity. Qed.

(** The number of samples of a code of dots and dashes. *)
Lemma sumOf_markSize dotN dashN gapN morse i p :
  Forall (fun b => b = rune "." \/ b = rune "-") p ->
  i + len p = slen morse ->
  sumOf (markSize dotN dashN gapN morse) (enumFrom i p)
  = sumOf (fun b => if b =? rune "." then 1 else 0) p * dotN
    + sumOf (fun b => if b =? rune "-" then 1 else 0) p * dashN
    + Z.max 0 (len p - 1) * gapN.
Proof.
  intros Hp. revert i. induction Hp as [|b p Hb _ IH]; intros i Hi.
  - change (len (@nil Z)) with 0. reflexivity.
  - assert (Hl : len (b :: p) = 1 + len p) by (unfold len; simpl length; lia).
    pose proof (len_nonneg p) as Hnn.
    cbn [enumFrom]. rewrite !sumOf_cons, (IH (i + 1)) by lia.
    unfold markSize. cbn [fst snd]. rewrite Hl.
    destruct (Z.ltb_spec i (slen morse - 1));
      [rewrite !Z.max_r by lia|rewrite !Z.max_l by lia];
      destruct Hb as [-> | ->]; vm_compute (rune "." =? rune ".");
      vm_compute (rune "-" =? rune "-"); vm_compute (rune "-" =? rune ".");
      vm_compute (rune "." =? rune "-"); cbv beta iota; lia.
Qed.

Section Tables.
Context `{GoRuntime}.

Lemma newMorseAudio_Some wpm freq m :
  is_int wpm -> Pregen.newMorseAudio wpm freq = Some m ->
  0 <= timeUnit wpm /\ m = pregenerated wpm freq.
Proof.
  intros Hint Hm. destruct (Z.le_gt_cases 0 (timeUnit wpm)) as [Ht|Ht].
  - rewrite newMorseAudio_pregenerated in Hm by done. split; congruence.
  - rewrite newMorseAudio_negative in Hm by (done || lia). discriminate Hm.
Qed.

Lemma tone_lookup freq n k :
  0 <= k < n -> tone freq n !! Z.to_nat k = Some (toneSample freq k).
Proof.
  intros Hk. unfold tone. rewrite list_lookup_fmap.
  rewrite lookup_seqZ_lt by lia. cbn [fmap option_fmap option_map].
  do 2 f_equal. lia.
Qed.

Lemma tone_prefix freq n m : 0 <= n <= m -> tone freq n `prefix_of` tone freq m.
Proof.
  intros Hnm. unfold tone. replace m with (n + (m - n)) by lia.
  rewrite seqZ_app, fmap_app by lia. by apply prefix_app_r.
Qed.

Lemma counts_ordered wpm :
  is_int wpm -> 0 <= timeUnit wpm ->
  msToSamples (timeUnit wpm) <= msToSamples (timeUnit wpm * 3).
Proof.
  intros Hint Ht. destruct (msToSamples_unit wpm Hint) as (-> & -> & _).
  apply Z.quot_le_mono; lia.
Qed.

(** X7. In the tables of [newMorseAudio] the dot and the dash are the
    same tone started at phase zero: sample [k] of either is
    [toneSample freq k], and the dot is a prefix of the dash; the three
    gaps hold nothing but zeros. *)
Theorem dot_is_prefix_of_dash wpm freq m :
  is_int wpm -> Pregen.newMorseAudio wpm freq = Some m ->
  Pregen.dotSamples m `prefix_of` Pregen.dashSamples m /\
  (forall k, 0 <= k < len (Pregen.dotSamples m) ->
             Pregen.dotSamples m !! Z.to_nat k = Some (toneSample freq k)) /\
  (forall k, 0 <= k < len (Pregen.dashSamples m) ->
             Pregen.dashSamples m !! Z.to_nat k = Some (toneSample freq k)) /\
  Forall (fun s => s = 0)
         (Pregen.elementGap m ++ Pregen.charGap m ++ Pregen.wordGap m).
Proof.
  intros Hint Hm. destruct (newMorseAudio_Some _ _ _ Hint Hm) as [Ht ->].
  destruct (counts_nonneg wpm Hint Ht) as ((H1 & _) & (H3 & _) & _).
  pose proof (counts_ordered wpm Hint Ht) as Hord.
  unfold pregenerated. cbn [Pregen.dotSamples Pregen.dashSamples
    Pregen.elementGap Pregen.charGap Pregen.wordGap].
  split; [apply tone_prefix; lia|].
  split; [intros k Hk; rewrite len_tone in Hk by done; by apply tone_lookup|].
  split; [intros k Hk; rewrite len_tone in Hk by done; by apply tone_lookup|].
  rewrite !Forall_app. unfold silence.
  repeat split; apply Forall_replicate; reflexivity.
Qed.

Lemma len_charAudio_count dot dash gap morse :
  wellFormedCode morse = true ->
  len (charAudio dot dash gap morse)
  = countMark (rune ".") morse * len dot + countMark (rune "-") morse * len dash
    + (slen morse - 1) * len gap.
Proof.
  intros Hwf. destruct (wellFormedCode_marks morse Hwf) as [Hmarks Hlen].
  unfold charAudio.
  rewrite (len_join_sum _ (markSize (len dot) (len dash) (len gap) morse)).
  2:{ apply Forall_true. intros [i e]. unfold markAudio, markSize.
      cbn [fst snd]. rewrite len_app.
      destruct (e =? rune "."); [|destruct (e =? rune "-")];
        destruct (i <? slen morse - 1); reflexivity. }
  rewrite rangeString_ascii by by apply wellFormedCode_ascii.
  rewrite (sumOf_markSize _ _ _ morse 0) by (done || rewrite len_bytes; lia).
  rewrite len_bytes. unfold countMark. f_equal. f_equal. lia.
Qed.

(** X8. The table [charSamples] of [newMorseAudio] has exactly the keys
    of [morseCodeMap], and the entry of a character holds as many
    samples as its dots, its dashes and the element gaps between them:
    dots x len(dot) + dashes x len(dash) + (marks - 1) x len(gap). *)
Theorem letter_length wpm freq m c :
  is_int wpm -> Pregen.newMorseAudio wpm freq = Some m ->
  match morseCodeMap !! c with
  | Some morse =>
      exists a,
        Pregen.charSamples m !! c = Some a /\
        len a = countMark (rune ".") morse * len (Pregen.dotSamples m)
                + countMark (rune "-") morse * len (Pregen.dashSamples m)
                + (slen morse - 1) * len (Pregen.elementGap m)
  | None => Pregen.charSamples m !! c = None
  end.
Proof.
  intros Hint Hm. destruct (newMorseAudio_Some _ _ _ Hint Hm) as [Ht ->].
  rewrite charSamples_pregenerated.
  destruct (morseCodeMap !! c) as [morse|] eqn:Hc; [|done].
  eexists. split; [reflexivity|].
  unfold pregenerated. cbn [Pregen.dotSamples Pregen.dashSamples Pregen.elementGap].
  apply len_charAudio_count. by eapply morseCodeMap_wellFormed.
Qed.

(** X9. Every mark restarts the tone at phase zero.  For the rune at
    any place of the upper-cased text that has a code, and for any mark
    of that code, the output holds at the position that the sizes of
    the earlier runes and marks add up to the samples
    [toneSample freq 0, toneSample freq 1, ...] of a dot or of a dash,
    wherever the mark stands; in both versions.  (Time unit not
    negative, text shorter than 4 GiB.) *)
Theorem tone_phase_restarts text wpm freq before i c after morse mb j e ma :
  is_int wpm -> 0 <= timeUnit wpm -> slen text < 2 ^ 32 ->
  rangeString (strings_ToUpper text) = before ++ (i, c) :: after ->
  morseCodeMap !! c = Some morse ->
  rangeString morse = mb ++ (j, e) :: ma ->
  let n := if e =? rune "-" then msToSamples (timeUnit wpm * 3)
           else msToSamples (timeUnit wpm) in
  exists pre post,
    len pre = sumOf (segmentSize wpm text) before
              + sumOf (markSize (msToSamples (timeUnit wpm))
                                (msToSamples (timeUnit wpm * 3))
                                (msToSamples (timeUnit wpm)) morse) mb /\
    fst <$> Pregen.generateMorseAudio text wpm freq
    = Some (pre ++ (toneSample freq <$> seqZ 0 n) ++ post) /\
    fst <$> Inline.generateMorseAudio text wpm freq
    = Some (pre ++ (toneSample freq <$> seqZ 0 n) ++ post).
Proof.
  intros Hint Ht Hlen Hsplit Hc Hmorse n.
  rewrite Pregen_generate_rendering, Inline_generate_rendering by done.
  cbn [fmap option_fmap option_map fst].
  pose proof (morseCodeMap_wellFormed _ _ Hc) as Hwf.
  pose proof (rangeString_marks morse Hwf) as Hmarks.
  rewrite Hmorse, Forall_app, Forall_cons in Hmarks.
  destruct Hmarks as (_ & He & _). cbn [snd] in He.
  set (dot := tone freq (msToSamples (timeUnit wpm))).
  set (dash := tone freq (msToSamples (timeUnit wpm * 3))).
  set (gap := silence (msToSamples (timeUnit wpm))).
  exists (mjoin (segment wpm freq text <$> before)
          ++ mjoin (markAudio dot dash gap morse <$> mb)).
  exists ((if j <? slen morse - 1 then gap else [])
          ++ mjoin (markAudio dot dash gap morse <$> ma)
          ++ (if gapAfter text i then silence (msToSamples (timeUnit wpm * 3))
              else [])
          ++ mjoin (segment wpm freq text <$> after)).
  split.
  - rewrite len_app. f_equal.
    + apply len_join_sum, Forall_true. intros ic. by apply len_segment_size.
    + apply len_join_sum, Forall_true. intros ie. by apply len_markAudio_size.
  - assert (Hr : rendering text wpm freq
                 = (mjoin (segment wpm freq text <$> before)
                    ++ mjoin (markAudio dot dash gap morse <$> mb))
                   ++ (toneSample freq <$> seqZ 0 n)
                   ++ (if j <? slen morse - 1 then gap else [])
                   ++ mjoin (markAudio dot dash gap morse <$> ma)
                   ++ (if gapAfter text i
                       then silence (msToSamples (timeUnit wpm * 3)) else [])
                   ++ mjoin (segment wpm freq text <$> after)); [|by rewrite Hr].
    unfold rendering. rewrite Hsplit, fmap_app, fmap_cons, join_app, mjoin_cons.
    rewrite <- !app_assoc. f_equal.
    unfold segment at 1. cbn [fst snd].
    rewrite (known_not_space _ _ Hc), Hc.
    fold dot dash gap. unfold charAudio.
    rewrite Hmorse, fmap_app, fmap_cons, join_app, mjoin_cons.
    rewrite <- !app_assoc. f_equal. unfold markAudio at 1. cbn [fst snd].
    rewrite <- !app_assoc. f_equal.
    unfold n, dot, dash, tone.
    destruct He as [-> | ->]; reflexivity.
Qed.

End Tables.

(** ** Speeds *)

Lemma is_int_plain wpm : 0 < wpm <= intMax / 50 -> is_int wpm.
Proof.
  intros Hw. unfold is_int, intMin, intMax in *.
  assert ((2 ^ 63 - 1) / 50 <= 2 ^ 63 - 1) by (apply Z.div_le_upper_bound; lia).
  lia.
Qed.

Lemma plain_product wpm : 0 < wpm <= intMax / 50 -> 0 < wpm * 50 <= intMax.
Proof.
  intros Hw. unfold intMax in *.
  pose proof (Z.mul_div_le (2 ^ 63 - 1) 50 ltac:(lia)). lia.
Qed.

Lemma timeUnit_fast wpm : 1200 < wpm <= intMax / 50 -> timeUnit wpm = 0.
Proof.
  intros Hw. destruct (timeUnit_plain wpm ltac:(lia)) as [-> _].
  apply Z.div_small. lia.
Qed.

Lemma msToSamples_0 : msToSamples 0 = 0.
Proof. vm_compute. reflexivity. Qed.

Lemma charAudio_nil morse : charAudio [] [] [] morse = [].
Proof.
  unfold charAudio. apply join_nil_2, Forall_fmap, Forall_true. intros ie.
  unfold markAudio. cbn [compose].
  destruct (ie.2 =? rune "."); [|destruct (ie.2 =? rune "-")];
    by destruct (ie.1 <? slen morse - 1).
Qed.

Section Speeds.
Context `{GoRuntime}.

Lemma rendering_silent text wpm freq :
  timeUnit wpm = 0 -> rendering text wpm freq = [].
Proof.
  intros Ht. unfold rendering.
  apply join_nil_2, Forall_fmap, Forall_true. intros ic.
  unfold segment. cbn [compose]. rewrite Ht.
  change (0 * 7) with 0. change (0 * 3) with 0. rewrite msToSamples_0.
  change (silence 0) with (@nil Z). change (tone freq 0) with (@nil Z).
  destruct (ic.2 =? rune " "); [done|].
  destruct (morseCodeMap !! ic.2); [|done].
  rewrite charAudio_nil. by destruct (gapAfter text ic.1).
Qed.

(** X10. Above 1200 WPM the integer division [60000 / (wpm * 50)]
    gives a time unit of 0 ms: all five durations are 0 and every text
    is rendered as no sample at all, in both versions (as long as
    [wpm * 50] does not overflow). *)
Theorem fast_speed_is_silent wpm :
  1200 < wpm <= intMax / 50 ->
  calculateMorseTiming wpm = Some (0, 0, 0, 0, 0) /\
  forall text freq,
    slen text < 2 ^ 32 ->
    Pregen.generateMorseAudio text wpm freq = Some ([], 0) /\
    Inline.generateMorseAudio text wpm freq = Some ([], 0).
Proof.
  intros Hw. assert (Hint : is_int wpm) by (apply is_int_plain; lia).
  pose proof (timeUnit_fast wpm Hw) as Ht. split.
  - rewrite calculateMorseTiming_unit by done. by rewrite Ht.
  - intros text freq Hlen.
    rewrite Pregen_generate_rendering, Inline_generate_rendering by (done || lia).
    by rewrite rendering_silent.
Qed.

(** X11. As long as [wpm * 50] does not overflow, the time unit is the
    integer quotient 60000 / (wpm * 50), at most 1200 ms, and a higher
    speed never gives a longer unit. *)
Theorem time_unit_closed_form w1 w2 :
  0 < w1 <= w2 -> w2 <= intMax / 50 ->
  exists t1 t2,
    calculateMorseTiming w1 = Some (t1, t1 * 3, t1, t1 * 3, t1 * 7) /\
    calculateMorseTiming w2 = Some (t2, t2 * 3, t2, t2 * 3, t2 * 7) /\
    t1 = 60000 / (w1 * 50) /\ t2 = 60000 / (w2 * 50) /\
    0 <= t2 <= t1 /\ t1 <= 1200.
Proof.
  intros Hw1 Hw2.
  assert (Hi1 : is_int w1) by (apply is_int_plain; lia).
  assert (Hi2 : is_int w2) by (apply is_int_plain; lia).
  destruct (timeUnit_plain w1 ltac:(lia)) as [Ht1 Hp1].
  destruct (timeUnit_plain w2 ltac:(lia)) as [Ht2 Hp2].
  exists (timeUnit w1), (timeUnit w2).
  rewrite !calculateMorseTiming_unit by done.
  repeat split; try done.
  - rewrite Ht1, Ht2. apply Z.div_le_compat_l; lia.
  - rewrite Ht1. apply Z.div_le_upper_bound; lia.
Qed.

(** X12. The number of samples does not depend on the frequency: with
    a time unit that is not negative and a text shorter than 4 GiB it
    is [renderingSize], the sum over the runes of the upper-cased text
    of the sizes of their marks and gaps. *)
Theorem sample_count_frequency_independent text wpm f1 f2 :
  is_int wpm -> 0 <= timeUnit wpm -> slen text < 2 ^ 32 ->
  snd <$> Pregen.generateMorseAudio text wpm f1 = Some (renderingSize text wpm) /\
  snd <$> Pregen.generateMorseAudio text wpm f2 = Some (renderingSize text wpm) /\
  snd <$> Inline.generateMorseAudio text wpm f1 = Some (renderingSize text wpm) /\
  snd <$> Inline.generateMorseAudio text wpm f2 = Some (renderingSize text wpm).
Proof.
  intros Hint Ht Hlen.
  rewrite !Pregen_generate_rendering, !Inline_generate_rendering by done.
  cbn [fmap option_fmap option_map snd].
  by rewrite !len_rendering_size.
Qed.

End Speeds.

(** ** The word PARIS *)



Section Paris.
Context `{GoRuntime}.



End Paris.

(** ** Negative durations

    When [wpm * 50] wraps around to a divisor between -60000 and -1 the
    time unit, and with it every sample count, is negative. *)

Lemma counts_bounds wpm :
  is_int wpm ->
  -2700000 <= msToSamples (timeUnit wpm) <= 2700000 /\
  -8100000 <= msToSamples (timeUnit wpm * 3) <= 8100000 /\
  -18900000 <= msToSamples (timeUnit wpm * 7) <= 18900000.
Proof.
  intros Hint. destruct (Z.le_gt_cases 0 (timeUnit wpm)) as [Ht|Ht].
  { pose proof (counts_nonneg wpm Hint Ht). lia. }
  pose proof (counts_negative wpm Hint ltac:(lia)) as (N1 & N3 & N7).
  destruct (msToSamples_unit wpm Hint) as (H1 & H3 & H7).
  pose proof (timeUnit_bound wpm Hint) as Hb.
  assert (Hq : forall d, -420000 <= d < 0 ->
                         d * 45 <= Z.quot (d * 44100) 1000).
  { intros d Hd. replace (d * 44100) with (- (- d * 44100)) by lia.
    rewrite Z.quot_opp_l by lia.
    destruct (quot_44100_bounds (- d)) as [Hp _]. specialize (Hp ltac:(lia)). lia. }
  pose proof (Hq (timeUnit wpm) ltac:(lia)).
  pose proof (Hq (timeUnit wpm * 3) ltac:(lia)).
  pose proof (Hq (timeUnit wpm * 7) ltac:(lia)).
  lia.
Qed.

Lemma sizeElements_sum d D g morse marks tot :
  Forall (fun je : Z * Z => je.2 = rune "." \/ je.2 = rune "-") marks ->
  -8100000 <= d <= 8100000 -> -8100000 <= D <= 8100000 ->
  -8100000 <= g <= 8100000 ->
  intMin + 16200000 * len marks <= tot <= intMax - 16200000 * len marks ->
  foldl (Inline.sizeElement d D g morse) tot marks
  = tot + sumOf (markSize d D g morse) marks /\
  -16200000 * len marks <= sumOf (markSize d D g morse) marks
    <= 16200000 * len marks.
Proof.
  intros Hmarks Hd HD Hg. revert tot.
  induction Hmarks as [|[j e] marks He _ IH]; intros tot Htot.
  - change (len (@nil (Z * Z))) with 0. cbn [foldl]. change (sumOf _ []) with 0. lia.
  - assert (Hl : len ((j, e) :: marks) = 1 + len marks)
      by (unfold len; simpl length; lia).
    pose proof (len_nonneg marks) as Hnn. rewrite Hl in *.
    cbn [foldl]. rewrite sumOf_cons.
    assert (Hstep : Inline.sizeElement d D g morse tot (j, e)
                    = tot + markSize d D g morse (j, e)
                    /\ -16200000 <= markSize d D g morse (j, e) <= 16200000).
    { unfold Inline.sizeElement, markSize. cbn [fst snd]. cbn [snd] in He.
      unfold intMin, intMax in Htot.
      destruct He as [-> | ->];
        change (rune "." =? rune ".") with true;
        change (rune "-" =? rune ".") with false;
        change (rune "-" =? rune "-") with true; cbv iota;
        destruct (j <? slen morse - 1);
        rewrite ?int_add_plain; unfold is_int, intMin, intMax;
        rewrite ?int_add_plain; unfold is_int, intMin, intMax; lia. }
    destruct Hstep as [-> Hm].
    destruct (IH (tot + markSize d D g morse (j, e)) ltac:(lia)) as [-> Hs].
    lia.
Qed.

Lemma sumOf_markSize_negative d D g morse marks :
  Forall (fun je : Z * Z => je.2 = rune "." \/ je.2 = rune "-") marks ->
  d < 0 -> D < 0 -> g <= 0 ->
  sumOf (markSize d D g morse) marks <= - len marks.
Proof.
  intros Hmarks Hd HD Hg. induction Hmarks as [|[j e] marks He _ IH].
  - change (len (@nil (Z * Z))) with 0. change (sumOf _ []) with 0. lia.
  - assert (Hl : len ((j, e) :: marks) = 1 + len marks)
      by (unfold len; simpl length; lia).
    rewrite Hl, sumOf_cons. unfold markSize at 1. cbn [fst snd]. cbn [snd] in He.
    destruct He as [-> | ->];
      change (rune "." =? rune ".") with true;
      change (rune "-" =? rune ".") with false;
      change (rune "-" =? rune "-") with true; cbv iota;
      destruct (j <? slen morse - 1); lia.
Qed.

Lemma length_enumFrom i p : length (enumFrom i p) = length p.
Proof.
  revert i. induction p as [|b p IH]; intros i; [done|].
  cbn [enumFrom length]. by rewrite IH.
Qed.

Lemma marks_of_code c morse :
  morseCodeMap !! c = Some morse ->
  Forall (fun je : Z * Z => je.2 = rune "." \/ je.2 = rune "-") (rangeString morse)
  /\ 1 <= len (rangeString morse) <= 6.
Proof.
  intros Hc. pose proof (morseCodeMap_wellFormed _ _ Hc) as Hwf.
  split; [by apply rangeString_marks|].
  destruct (wellFormedCode_marks morse Hwf) as [Hmarks Hlen].
  rewrite rangeString_ascii by by apply wellFormedCode_ascii.
  unfold len. rewrite length_enumFrom. fold (len (bytes morse)).
  by rewrite len_bytes.
Qed.

Section Negative.
Context `{GoRuntime}.

Lemma sizeStep_sum wpm text tot ic :
  is_int wpm -> 0 <= ic.1 ->
  intMin + 200000000 <= tot <= intMax - 200000000 ->
  Inline.sizeStep (msToSamples (timeUnit wpm)) (msToSamples (timeUnit wpm * 3))
    (msToSamples (timeUnit wpm)) (msToSamples (timeUnit wpm * 3))
    (msToSamples (timeUnit wpm * 7)) text tot ic
  = Some (tot + segmentSize wpm text ic) /\
  -200000000 <= segmentSize wpm text ic <= 200000000.
Proof.
  intros Hint Hi Htot. destruct ic as [i c]. cbn [fst] in Hi.
  destruct (counts_bounds wpm Hint) as (B1 & B3 & B7).
  unfold Inline.sizeStep, segmentSize. cbn [fst snd].
  unfold intMin, intMax in Htot.
  destruct (c =? rune " ").
  { rewrite int_add_plain by (unfold is_int, intMin, intMax; lia).
    split; [done|lia]. }
  destruct (morseCodeMap !! c) as [morse|] eqn:Hc.
  2:{ split; [f_equal; lia|lia]. }
  destruct (marks_of_code _ _ Hc) as [Hmarks Hlen].
  destruct (sizeElements_sum (msToSamples (timeUnit wpm))
              (msToSamples (timeUnit wpm * 3)) (msToSamples (timeUnit wpm))
              morse (rangeString morse) tot Hmarks ltac:(lia) ltac:(lia)
              ltac:(lia) ltac:(unfold intMin, intMax; lia)) as [-> Hs].
  rewrite charGapFollows_total by done. cbn [mbind option_bind].
  destruct (gapAfter text i).
  - rewrite int_add_plain by (unfold is_int, intMin, intMax; lia).
    split; [f_equal; lia|lia].
  - split; [f_equal; lia|lia].
Qed.

Lemma sizePass_sum wpm text items tot :
  is_int wpm -> Forall (fun ic : Z * Z => 0 <= ic.1) items ->
  intMin + 200000000 * (len items + 1) <= tot
    <= intMax - 200000000 * (len items + 1) ->
  forEach (Inline.sizeStep (msToSamples (timeUnit wpm))
             (msToSamples (timeUnit wpm * 3)) (msToSamples (timeUnit wpm))
             (msToSamples (timeUnit wpm * 3)) (msToSamples (timeUnit wpm * 7)) text)
          items tot
  = Some (tot + sumOf (segmentSize wpm text) items).
Proof.
  intros Hint Hitems. revert tot.
  induction Hitems as [|ic items Hic _ IH]; intros tot Htot.
  - cbn [forEach]. change (sumOf _ []) with 0. f_equal. lia.
  - assert (Hl : len (ic :: items) = 1 + len items)
      by (unfold len; simpl length; lia).
    pose proof (len_nonneg items) as Hnn. rewrite Hl in Htot.
    cbn [forEach]. rewrite sumOf_cons.
    destruct (sizeStep_sum wpm text tot ic Hint Hic ltac:(lia)) as [-> Hb].
    cbn [mbind option_bind]. rewrite IH by lia. f_equal. lia.
Qed.

Lemma segmentSize_negative wpm text ic :
  is_int wpm -> timeUnit wpm < 0 ->
  if negb (ic.2 =? rune " ") && negb (known ic.2)
  then segmentSize wpm text ic = 0
  else segmentSize wpm text ic < 0.
Proof.
  intros Hint Ht. destruct (counts_negative wpm Hint Ht) as (N1 & N3 & N7).
  unfold segmentSize, known.
  destruct (ic.2 =? rune " "); [exact N7|]. cbn [negb andb].
  destruct (morseCodeMap !! ic.2) as [morse|] eqn:Hc; [|done]. cbn [negb].
  destruct (marks_of_code _ _ Hc) as [Hmarks Hlen].
  pose proof (sumOf_markSize_negative (msToSamples (timeUnit wpm))
                (msToSamples (timeUnit wpm * 3)) (msToSamples (timeUnit wpm))
                morse (rangeString morse) Hmarks ltac:(lia) ltac:(lia)
                ltac:(lia)).
  destruct (gapAfter text ic.1); lia.
Qed.

Lemma sumOf_segmentSize_negative wpm text items :
  is_int wpm -> timeUnit wpm < 0 ->
  if forallb (fun ic : Z * Z => negb (ic.2 =? rune " ") && negb (known ic.2)) items
  then sumOf (segmentSize wpm text) items = 0
  else sumOf (segmentSize wpm text) items < 0.
Proof.
  intros Hint Ht. induction items as [|ic items IH]; [done|].
  cbn [forallb]. rewrite sumOf_cons.
  pose proof (segmentSize_negative wpm text ic Hint Ht) as Hic.
  destruct (negb (ic.2 =? rune " ") && negb (known ic.2)); cbn [andb].
  - destruct (forallb _ items); lia.
  - destruct (forallb _ items); lia.
Qed.

Lemma Inline_generate_negative text wpm freq :
  is_int wpm -> timeUnit wpm < 0 ->
  Inline.generateMorseAudio text wpm freq
  = (tot ← forEach (Inline.sizeStep (msToSamples (timeUnit wpm))
                      (msToSamples (timeUnit wpm * 3)) (msToSamples (timeUnit wpm))
                      (msToSamples (timeUnit wpm * 3))
                      (msToSamples (timeUnit wpm * 7)) text)
                   (rangeString (strings_ToUpper text)) 0;
     s ← make tot; Some (s, tot)).
Proof.
  intros Hint Ht. destruct (counts_negative wpm Hint Ht) as (Hdot & Hdash & _).
  unfold Inline.generateMorseAudio, Inline.run.
  rewrite calculateMorseTiming_unit by done. cbn [mbind option_bind].
  assert (Hoff : Forall (fun ic : Z * Z => 0 <= ic.1)
                        (rangeString (strings_ToUpper text))).
  { eapply Forall_impl; [apply rangeString_offsets|]. intros ic; simpl; lia. }
  destruct (forEach _ (rangeString (strings_ToUpper text)) 0) as [tot|] eqn:Hsize;
    [|done].
  cbn [mbind option_bind].
  destruct (make tot) as [s|]; [|done]. cbn [mbind option_bind].
  destruct (fillPass_silent (msToSamples (timeUnit wpm))
              (msToSamples (timeUnit wpm * 3)) (msToSamples (timeUnit wpm))
              (msToSamples (timeUnit wpm * 3)) (msToSamples (timeUnit wpm * 7))
              freq ltac:(lia) ltac:(lia) text
              (rangeString (strings_ToUpper text))
              {| Inline.samples := s; Inline.currentSample := 0;
                 Inline.suppressed := 0 |} Hoff) as (cs & Hs & Hf).
  cbn [Inline.currentSample] in Hs. rewrite Hsize in Hs. injection Hs as <-.
  rewrite Hf. done.
Qed.

(** X14. With a negative time unit (the product [wpm * 50] has
    wrapped around) the pre-generating version panics on every text,
    in [newMorseAudio]; the inline version returns the empty result
    when the upper-cased text holds neither a space nor a supported
    character, and panics in [make] otherwise.  No tone is ever
    written. *)
Theorem negative_timing text wpm freq :
  is_int wpm -> timeUnit wpm < 0 -> slen text < 2 ^ 32 ->
  Pregen.newMorseAudio wpm freq = None /\
  Pregen.generateMorseAudio text wpm freq = None /\
  Inline.generateMorseAudio text wpm freq
  = if forallb (fun ic : Z * Z => negb (ic.2 =? rune " ") && negb (known ic.2))
               (rangeString (strings_ToUpper text))
    then Some ([], 0) else None.
Proof.
  intros Hint Ht Hlen.
  split; [by apply newMorseAudio_negative|].
  split.
  { unfold Pregen.generateMorseAudio. by rewrite Pregen_run_negative. }
  rewrite Inline_generate_negative by done.
  assert (Hoff : Forall (fun ic : Z * Z => 0 <= ic.1)
                        (rangeString (strings_ToUpper text))).
  { eapply Forall_impl; [apply rangeString_offsets|]. intros ic; simpl; lia. }
  assert (Hn : len (rangeString (strings_ToUpper text)) < 2 ^ 34).
  { pose proof (rangeString_length (strings_ToUpper text)).
    pose proof (strings_ToUpper_length text). unfold len, slen in *. lia. }
  pose proof (len_nonneg (rangeString (strings_ToUpper text))) as Hnn.
  rewrite sizePass_sum by (done || unfold intMin, intMax; lia).
  cbn [mbind option_bind].
  pose proof (sumOf_segmentSize_negative wpm text
                (rangeString (strings_ToUpper text)) Hint Ht) as Hsum.
  destruct (forallb _ (rangeString (strings_ToUpper text))).
  - rewrite Z.add_0_l, Hsum. reflexivity.
  - rewrite make_negative by lia. reflexivity.
Qed.

End Negative.

(** ** The WAV buffer, for any size and any rate *)

Lemma wrap16_uint16 s : isInt16 s -> wrap16 (uint16 s) = s.
Proof.
  unfold isInt16, wrap16, uint16. change (2 ^ 15) with 32768.
  change (2 ^ 16) with 65536. intros Hs.
  destruct (Z.le_gt_cases 0 s).
  - rewrite (Z.mod_small s) by lia. rewrite Z.mod_small by lia. lia.
  - replace (s mod 65536) with (s + 65536).
    + replace (s + 65536 + 32768) with (s + 32768 + 1 * 65536) by lia.
      rewrite Z.mod_add by lia. rewrite Z.mod_small by lia. lia.
    + symmetry. replace s with (s + 65536 + (-1) * 65536) at 1 by lia.
      rewrite Z.mod_add by lia. apply Z.mod_small. lia.
Qed.


Lemma readSamples_bytes samples :
  Forall isInt16 samples -> readSamples (mjoin (sampleBytes <$> samples)) = samples.
Proof.
  induction 1 as [|s samples Hs _ IH]; [done|].
  rewrite fmap_cons, mjoin_cons.
  change (sampleBytes s) with [Z.land (uint16 s) 255;
                               Z.land (Z.shiftr (uint16 s) 8) 255].
  cbn [app readSamples]. rewrite IH. f_equal.
  change [Z.land (uint16 s) 255; Z.land (Z.shiftr (uint16 s) 8) 255]
    with (sampleBytes s).
  rewrite getUint16_sampleBytes. by apply wrap16_uint16.
Qed.

(** X15. [writeWavHeader] appends exactly 44 bytes to the buffer it is
    given and leaves what was there; the size and rate fields hold their
    arguments reduced modulo 2^32 (the conversions to [uint32] truncate),
    whatever the data size and the sample rate. *)
Theorem wav_header_fields_wrap w dataSize rate :
  let buf := writeWavHeader w dataSize rate in
  let at_ (k n : nat) := field buf (length w + k) n in
  take (length w) buf = w /\
  length buf = (length w + 44)%nat /\
  at_ 0%nat 4%nat = bytes "RIFF" /\
  getUint32 (at_ 4%nat 4%nat) = (36 + dataSize) mod 2 ^ 32 /\
  at_ 8%nat 4%nat = bytes "WAVE" /\
  at_ 12%nat 4%nat = bytes "fmt " /\
  getUint32 (at_ 16%nat 4%nat) = 16 /\
  getUint16 (at_ 20%nat 2%nat) = 1 /\
  getUint16 (at_ 22%nat 2%nat) = 1 /\
  getUint32 (at_ 24%nat 4%nat) = rate mod 2 ^ 32 /\
  getUint32 (at_ 28%nat 4%nat) = (rate * 2) mod 2 ^ 32 /\
  getUint16 (at_ 32%nat 2%nat) = 2 /\
  getUint16 (at_ 34%nat 2%nat) = 16 /\
  at_ 36%nat 4%nat = bytes "data" /\
  getUint32 (at_ 40%nat 4%nat) = dataSize mod 2 ^ 32.
Proof.
  intros buf at_. unfold at_, buf, field.
  split; [rewrite writeWavHeader_bytes; apply take_app_length|].
  split; [apply length_writeWavHeader|].
  rewrite writeWavHeader_bytes. rewrite !drop_app_add.
  unfold int_add, int_mul. 
  pose proof (uint32_wrap64 (36 + dataSize)) as H1.
  pose proof (uint32_wrap64 (rate * 2)) as H2.
  pose proof (uint32_range (wrap64 (36 + dataSize))) as R1.
  pose proof (uint32_range rate) as R2.
  pose proof (uint32_range (wrap64 (rate * 2))) as R3.
  pose proof (uint32_range dataSize) as R4.
  change (rate mod 2 ^ 32) with (uint32 rate).
  change (dataSize mod 2 ^ 32) with (uint32 dataSize).
  rewrite <- H1, <- H2.
  generalize dependent (uint32 (wrap64 (36 + dataSize))).
  generalize dependent (uint32 (wrap64 (rate * 2))).
  generalize dependent (uint32 rate). generalize dependent (uint32 dataSize).
  intros v4 R4 v2 R2 v3 _ R3 v1 _ R1.
  change (bytes "RIFF") with [82; 73; 70; 70].
  change (bytes "WAVE") with [87; 65; 86; 69].
  change (bytes "fmt ") with [102; 109; 116; 32].
  change (bytes "data") with [100; 97; 116; 97].
  unfold putUint32. cbn [app take drop].
  rewrite !getUint32_bytes by done.
  repeat split; reflexivity.
Qed.

(** X16. The data chunk is read back as written: for samples that are
    signed 16-bit values, the bytes after the 44 header bytes of the
    buffer of [main], taken two by two as little-endian signed values,
    are the samples, and the buffer has 44 + 2 x len(samples) bytes. *)
Theorem wav_samples_round_trip samples total :
  Forall isInt16 samples ->
  readSamples (drop 44 (wavBuffer samples total)) = samples /\
  length (wavBuffer samples total) = (44 + 2 * length samples)%nat.
Proof.
  intros Hs. rewrite wavBuffer_bytes. split.
  - rewrite drop_app_length' by by rewrite length_writeWavHeader.
    by apply readSamples_bytes.
  - rewrite length_app, length_writeWavHeader, length_samples_bytes. done.
Qed.

Section Output.
Context `{GoRuntime}.







End Output.

(** ** The table *)

(** X18. [morseCodeMap] is injective: two characters with the same code
    are the same character.  Its keys are upper-case letters, digits and
    the four punctuation marks [/ ? . ,]: every key is an ASCII character
    that upper-casing leaves alone, and the space is not a key. *)
Theorem morse_codes_distinct c1 c2 morse :
  morseCodeMap !! c1 = Some morse -> morseCodeMap !! c2 = Some morse ->
  c1 = c2 /\ asciiUpper c1 = c1 /\ c1 <> rune " " /\
  (rune "A" <= c1 <= rune "Z" \/ rune "0" <= c1 <= rune "9" \/
   c1 = rune "/" \/ c1 = rune "?" \/ c1 = rune "." \/ c1 = rune ",").
Proof.
  unfold morseCodeMap.
  intros H1%elem_of_list_to_map_2 H2%elem_of_list_to_map_2. revert H1 H2.
  match goal with
  | |- _ ∈ ?l -> _ =>
      assert (Hall : forallb (fun x : Z * string =>
                        forallb (fun y : Z * string =>
                                   implb (String.eqb x.2 y.2) (x.1 =? y.1)) l
                        && (asciiUpper x.1 =? x.1) && negb (x.1 =? rune " ")
                        && (((rune "A" <=? x.1) && (x.1 <=? rune "Z"))
                            || ((rune "0" <=? x.1) && (x.1 <=? rune "9"))
                            || (x.1 =? rune "/") || (x.1 =? rune "?")
                            || (x.1 =? rune ".") || (x.1 =? rune ","))) l = true)
        by (vm_compute; reflexivity)
  end.
  rewrite forallb_forall in Hall.
  intros H1%list_elem_of_In H2%list_elem_of_In.
  specialize (Hall _ H1). cbn [fst snd] in Hall.
  rewrite !andb_true_iff in Hall. destruct Hall as [[[Hinj Hup] Hsp] Hkey].
  rewrite forallb_forall in Hinj. specialize (Hinj _ H2). cbn [fst snd] in Hinj.
  rewrite String.eqb_refl in Hinj. cbn [implb] in Hinj.
  apply Z.eqb_eq in Hinj, Hup. apply negb_true_iff, Z.eqb_neq in Hsp.
  repeat split; try done.
  rewrite !orb_true_iff, !andb_true_iff, !Z.leb_le, !Z.eqb_eq in Hkey.
  tauto.
Qed.

(** ** The data size that [main] passes to [writeWavHeader] *)

Lemma header_size_fields dataSize rate body :
  getUint32 (field (writeWavHeader [] dataSize rate ++ body) 4 4)
  = (36 + dataSize) mod 2 ^ 32 /\
  getUint32 (field (writeWavHeader [] dataSize rate ++ body) 40 4)
  = dataSize mod 2 ^ 32.
Proof.
  rewrite writeWavHeader_bytes. unfold int_add, int_mul.
  rewrite <- (uint32_wrap64 (36 + dataSize)).
  change (dataSize mod 2 ^ 32) with (uint32 dataSize).
  pose proof (uint32_range (wrap64 (36 + dataSize))) as R1.
  pose proof (uint32_range dataSize) as R4.
  generalize dependent (uint32 (wrap64 (36 + dataSize))).
  generalize dependent (uint32 dataSize).
  generalize (uint32 (wrap64 (rate * 2))). generalize (uint32 rate).
  intros v2 v3 v4 R4 v1 R1.
  change (bytes "RIFF") with [82; 73; 70; 70].
  change (bytes "WAVE") with [87; 65; 86; 69].
  change (bytes "fmt ") with [102; 109; 116; 32].
  change (bytes "data") with [100; 97; 116; 97].
  unfold putUint32, field. cbn [app take drop].
  rewrite !getUint32_bytes by done. done.
Qed.

Section DataSize.
Context `{GoRuntime}.

Lemma generate_total_bound text wpm freq samples total :
  is_int wpm -> slen text < 2 ^ 32 ->
  Pregen.generateMorseAudio text wpm freq = Some (samples, total)
  \/ Inline.generateMorseAudio text wpm freq = Some (samples, total) ->
  0 <= total <= 2 ^ 61.
Proof.
  intros Hint Hlen Hgen.
  destruct (Z.le_gt_cases 0 (timeUnit wpm)) as [Ht|Ht].
  - rewrite Pregen_generate_rendering, Inline_generate_rendering in Hgen by done.
    assert (total = len (rendering text wpm freq)) as ->
      by (destruct Hgen as [Hg|Hg]; congruence).
    by apply len_rendering.
  - destruct Hgen as [Hg|Hg].
    + unfold Pregen.generateMorseAudio in Hg.
      rewrite Pregen_run_negative in Hg by (done || lia). discriminate Hg.
    + rewrite Inline_generate_negative in Hg by (done || lia).
      assert (Hoff : Forall (fun ic : Z * Z => 0 <= ic.1)
                            (rangeString (strings_ToUpper text))).
      { eapply Forall_impl; [apply rangeString_offsets|]. intros ic; simpl; lia. }
      assert (Hn : len (rangeString (strings_ToUpper text)) < 2 ^ 34).
      { pose proof (rangeString_length (strings_ToUpper text)).
        pose proof (strings_ToUpper_length text). unfold len, slen in *. lia. }
      pose proof (len_nonneg (rangeString (strings_ToUpper text))) as Hnn.
      rewrite sizePass_sum in Hg by (done || unfold intMin, intMax; lia).
      cbn [mbind option_bind] in Hg.
      pose proof (sumOf_segmentSize_negative wpm text
                    (rangeString (strings_ToUpper text)) Hint ltac:(lia)) as Hsum.
      destruct (forallb _ (rangeString (strings_ToUpper text))).
      * rewrite Z.add_0_l, Hsum in Hg.
        change (make 0) with (Some (@nil Z)) in Hg.
        cbn [mbind option_bind] in Hg. injection Hg as _ <-. lia.
      * rewrite make_negative in Hg by lia. discriminate Hg.
Qed.

(** X19. The byte count [totalSamples*2] that [main] passes to
    [writeWavHeader] never overflows [int] for a text shorter than
    4 GiB, but the two size fields of the header hold it reduced modulo
    2^32: beyond 2^32 - 36 bytes of data the RIFF size is no longer the
    size of what follows. *)
Theorem data_size_field text wpm freq samples total :
  is_int wpm -> slen text < 2 ^ 32 ->
  Pregen.generateMorseAudio text wpm freq = Some (samples, total)
  \/ Inline.generateMorseAudio text wpm freq = Some (samples, total) ->
  0 <= total <= 2 ^ 61 /\
  int_mul total 2 = total * 2 /\
  getUint32 (field (wavBuffer samples total) 4 4) = (36 + total * 2) mod 2 ^ 32 /\
  getUint32 (field (wavBuffer samples total) 40 4) = (total * 2) mod 2 ^ 32.
Proof.
  intros Hint Hlen Hgen.
  pose proof (generate_total_bound _ _ _ _ _ Hint Hlen Hgen) as Hb.
  assert (Hm : int_mul total 2 = total * 2).
  { apply wrap64_id. unfold is_int, intMin, intMax. lia. }
  split; [exact Hb|]. split; [exact Hm|].
  rewrite wavBuffer_bytes, Hm. apply header_size_fields.
Qed.

End DataSize.

(** ** Ratios in samples *)

(** X20. Each duration is converted to samples on its own, and each
    conversion truncates: in samples a dash is three dots plus at most
    two samples, a word gap seven dots plus at most six, and the ratios
    3 and 7 are exact when the time unit is a multiple of 10 ms. *)
Theorem sample_ratios wpm :
  is_int wpm -> 0 <= timeUnit wpm ->
  let n1 := msToSamples (timeUnit wpm) in
  let n3 := msToSamples (timeUnit wpm * 3) in
  let n7 := msToSamples (timeUnit wpm * 7) in
  3 * n1 <= n3 <= 3 * n1 + 2 /\
  7 * n1 <= n7 <= 7 * n1 + 6 /\
  (timeUnit wpm mod 10 = 0 -> n3 = 3 * n1 /\ n7 = 7 * n1).
Proof.
  intros Hint Ht n1 n3 n7.
  destruct (msToSamples_unit wpm Hint) as (H1 & H3 & H7).
  fold n1 in H1. fold n3 in H3. fold n7 in H7.
  rewrite Z.quot_div_nonneg in H1, H3, H7 by lia.
  clearbody n1 n3 n7. set (t := timeUnit wpm) in *. clearbody t.
  subst n1 n3 n7. split; [|split].
  - Z.div_mod_to_equations. lia.
  - Z.div_mod_to_equations. lia.
  - intros Hmod. revert Hmod. Z.div_mod_to_equations. lia.
Qed.

Lemma sample_ratios_witness :
  is_int 171 /\ 0 <= timeUnit 171 /\
  3 * msToSamples (timeUnit 171) <= msToSamples (timeUnit 171 * 3)
    <= 3 * msToSamples (timeUnit 171) + 2 /\
  msToSamples (timeUnit 171) = 308 /\ msToSamples (timeUnit 171 * 3) = 926.
Proof.
  assert (Hi : is_int 171) by (unfold is_int, intMin, intMax; lia).
  assert (Ht : 0 <= timeUnit 171) by (vm_compute; discriminate).
  split; [exact Hi|]. split; [exact Ht|].
  destruct (sample_ratios 171 Hi Ht) as (H3 & _).
  split; [exact H3|]. split; vm_compute; reflexivity.
Defined.

(** ** What the generator reads of the original text *)

Lemma index_None s i : 0 <= i -> index s i = None <-> slen s <= i.
Proof.
  intros Hi. rewrite index_bytes by done. rewrite lookup_ge_None.
  rewrite <- len_bytes. unfold len. lia.
Qed.

Section OriginalText.
Context `{GoRuntime}.

Lemma charGapFollows_spaces t1 t2 i :
  slen t1 = slen t2 ->
  (forall k, index t1 k = Some (rune " ") <-> index t2 k = Some (rune " ")) ->
  charGapFollows t1 i = charGapFollows t2 i.
Proof.
  intros Hlen Hsp. unfold charGapFollows. rewrite <- Hlen.
  destruct (Z.ltb_spec i (slen t1 - 1)) as [Hi|Hi]; [|done].
  destruct (Z.lt_ge_cases (i + 1) 0) as [Hneg|Hpos].
  { unfold index. by destruct (Z.ltb_spec (i + 1) 0); [|lia]. }
  specialize (Hsp (i + 1)).
  destruct (index t1 (i + 1)) as [b1|] eqn:E1.
  2:{ apply index_None in E1; [lia|done]. }
  destruct (index t2 (i + 1)) as [b2|] eqn:E2.
  2:{ apply index_None in E2; [lia|done]. }
  cbn [mbind option_bind]. do 2 f_equal.
  destruct (Z.eqb_spec b1 (rune " ")) as [->|N1];
    destruct (Z.eqb_spec b2 (rune " ")) as [->|N2]; try done.
  - destruct Hsp as [Hsp _]. specialize (Hsp eq_refl). congruence.
  - destruct Hsp as [_ Hsp]. specialize (Hsp eq_refl). congruence.
Qed.

(** X21. Of the original text the generator reads nothing but its
    length and the places of its spaces (in [len(text)] and
    [text[i+1] != ' ']); everything else comes from
    [strings.ToUpper(text)].  Two texts with the same upper-cased form,
    the same length and spaces at the same byte offsets get the same
    result from either version, for every speed and frequency. *)
Theorem text_read_through_spaces t1 t2 wpm freq :
  strings_ToUpper t1 = strings_ToUpper t2 ->
  slen t1 = slen t2 ->
  (forall k, index t1 k = Some (rune " ") <-> index t2 k = Some (rune " ")) ->
  Pregen.generateMorseAudio t1 wpm freq = Pregen.generateMorseAudio t2 wpm freq /\
  Inline.generateMorseAudio t1 wpm freq = Inline.generateMorseAudio t2 wpm freq.
Proof.
  intros Hup Hlen Hsp.
  pose proof (fun i => charGapFollows_spaces t1 t2 i Hlen Hsp) as Hgap.
  split.
  - unfold Pregen.generateMorseAudio, Pregen.run.
    destruct (Pregen.newMorseAudio wpm freq) as [morse|]; [|done].
    cbn [mbind option_bind]. rewrite Hup.
    rewrite (forEach_ext (Pregen.sizeStep morse t1) (Pregen.sizeStep morse t2)).
    2:{ apply Forall_true. intros [i c] tot. unfold Pregen.sizeStep.
        by rewrite Hgap. }
    destruct (forEach (Pregen.sizeStep morse t2) _ 0) as [tot|]; [|done].
    cbn [mbind option_bind].
    destruct (make tot) as [s|]; [|done]. cbn [mbind option_bind].
    rewrite (forEach_ext (Pregen.fillStep morse t1) (Pregen.fillStep morse t2));
      [done|].
    apply Forall_true. intros [i c] [s' cs]. unfold Pregen.fillStep.
    by rewrite Hgap.
  - unfold Inline.generateMorseAudio, Inline.run.
    destruct (calculateMorseTiming wpm) as [[[[[d1 d2] d3] d4] d5]|]; [|done].
    cbn [mbind option_bind]. rewrite Hup.
    rewrite (forEach_ext (Inline.sizeStep _ _ _ _ _ t1)
               (Inline.sizeStep (msToSamples d1) (msToSamples d2)
                  (msToSamples d3) (msToSamples d4) (msToSamples d5) t2)).
    2:{ apply Forall_true. intros [i c] tot. unfold Inline.sizeStep.
        by rewrite Hgap. }
    destruct (forEach (Inline.sizeStep _ _ _ _ _ t2) _ 0) as [tot|]; [|done].
    cbn [mbind option_bind].
    destruct (make tot) as [s|]; [|done]. cbn [mbind option_bind].
    rewrite (forEach_ext (Inline.fillStep _ _ _ _ _ _ t1)
               (Inline.fillStep (msToSamples d1) (msToSamples d2)
                  (msToSamples d3) (msToSamples d4) (msToSamples d5)
                  freq t2)); [done|].
    apply Forall_true. intros [i c] st. unfold Inline.fillStep.
    by rewrite Hgap.
Qed.

End OriginalText.

(** ** Speed and length *)

Lemma sumOf_le {A} (f g : A -> Z) l :
  (forall x, f x <= g x) -> sumOf f l <= sumOf g l.
Proof.
  intros Hfg. induction l as [|x l IH]; [done|].
  rewrite !sumOf_cons. specialize (Hfg x). lia.
Qed.

Lemma markSize_mono d D g d' D' g' morse ie :
  d <= d' -> D <= D' -> g <= g' ->
  markSize d D g morse ie <= markSize d' D' g' morse ie.
Proof.
  intros Hd HD Hg. unfold markSize.
  destruct (ie.2 =? rune "."); [|destruct (ie.2 =? rune "-")];
    destruct (ie.1 <? slen morse - 1); lia.
Qed.

Lemma counts_monotone w1 w2 :
  is_int w1 -> is_int w2 -> timeUnit w2 <= timeUnit w1 ->
  msToSamples (timeUnit w2) <= msToSamples (timeUnit w1) /\
  msToSamples (timeUnit w2 * 3) <= msToSamples (timeUnit w1 * 3) /\
  msToSamples (timeUnit w2 * 7) <= msToSamples (timeUnit w1 * 7).
Proof.
  intros H1 H2 Hle.
  destruct (msToSamples_unit w1 H1) as (-> & -> & ->).
  destruct (msToSamples_unit w2 H2) as (-> & -> & ->).
  repeat split; apply Z.quot_le_mono; lia.
Qed.

Lemma segmentSize_mono w1 w2 text ic :
  is_int w1 -> is_int w2 -> timeUnit w2 <= timeUnit w1 ->
  segmentSize w2 text ic <= segmentSize w1 text ic.
Proof.
  intros H1 H2 Hle. destruct (counts_monotone w1 w2 H1 H2 Hle) as (M1 & M3 & M7).
  unfold segmentSize. destruct (ic.2 =? rune " "); [done|].
  destruct (morseCodeMap !! ic.2) as [morse|]; [|done].
  pose proof (sumOf_le
                (markSize (msToSamples (timeUnit w2)) (msToSamples (timeUnit w2 * 3))
                          (msToSamples (timeUnit w2)) morse)
                (markSize (msToSamples (timeUnit w1)) (msToSamples (timeUnit w1 * 3))
                          (msToSamples (timeUnit w1)) morse)
                (rangeString morse)
                (fun ie => markSize_mono _ _ _ _ _ _ morse ie M1 M3 M1)).
  destruct (gapAfter text ic.1); lia.
Qed.

Section SpeedAndLength.
Context `{GoRuntime}.

(** X22. A higher speed never lengthens the audio: as long as
    [wpm * 50] does not overflow, the sample count at the higher of
    two speeds is at most the count at the lower one, for the same
    text and whatever the frequencies. *)
Theorem faster_is_shorter text w1 w2 f1 f2 :
  0 < w1 <= w2 -> w2 <= intMax / 50 -> slen text < 2 ^ 32 ->
  exists n1 n2,
    snd <$> Pregen.generateMorseAudio text w1 f1 = Some n1 /\
    snd <$> Pregen.generateMorseAudio text w2 f2 = Some n2 /\
    snd <$> Inline.generateMorseAudio text w1 f1 = Some n1 /\
    snd <$> Inline.generateMorseAudio text w2 f2 = Some n2 /\
    0 <= n2 <= n1.
Proof.
  intros Hw1 Hw2 Hlen.
  assert (Hi1 : is_int w1) by (apply is_int_plain; lia).
  assert (Hi2 : is_int w2) by (apply is_int_plain; lia).
  destruct (timeUnit_plain w1 ltac:(lia)) as [Ht1 Hp1].
  destruct (timeUnit_plain w2 ltac:(lia)) as [Ht2 Hp2].
  assert (Hle : timeUnit w2 <= timeUnit w1).
  { rewrite Ht1, Ht2. apply Z.div_le_compat_l; lia. }
  exists (renderingSize text w1), (renderingSize text w2).
  rewrite !Pregen_generate_rendering, !Inline_generate_rendering by done.
  cbn [fmap option_fmap option_map snd].
  rewrite !len_rendering_size by done. repeat split.
  - rewrite <- (len_rendering_size text w2 f2) by done. apply len_nonneg.
  - unfold renderingSize. apply sumOf_le. intros ic. by apply segmentSize_mono.
Qed.

End SpeedAndLength.

Lemma text_read_through_spaces_witness :
  @strings_ToUpper exampleRuntime "e t" = @strings_ToUpper exampleRuntime "E T" /\
  slen "e t" = slen "E T" /\
  @Pregen.generateMorseAudio exampleRuntime "e t" 1200 600
  = @Pregen.generateMorseAudio exampleRuntime "E T" 1200 600 /\
  @Inline.generateMorseAudio exampleRuntime "e t" 1200 600
  = @Inline.generateMorseAudio exampleRuntime "E T" 1200 600.
Proof.
  assert (Hup : @strings_ToUpper exampleRuntime "e t"
                = @strings_ToUpper exampleRuntime "E T") by reflexivity.
  assert (Hlen : slen "e t" = slen "E T") by reflexivity.
  assert (Hsp : forall k, index "e t" k = Some (rune " ")
                          <-> index "E T" k = Some (rune " ")).
  { intros k. unfold index. destruct (k <? 0); [done|].
    destruct (Z.to_nat k) as [|[|[|n]]]; vm_compute; split; congruence. }
  split; [exact Hup|]. split; [exact Hlen|].
  exact (@text_read_through_spaces exampleRuntime "e t" "E T" 1200 600 Hup Hlen Hsp).
Defined.

Lemma faster_is_shorter_witness :
  0 < 600 <= 1200 /\ 1200 <= intMax / 50 /\ slen "E" < 2 ^ 32 /\
  exists n1 n2,
    snd <$> @Pregen.generateMorseAudio exampleRuntime "E" 600 600 = Some n1 /\
    snd <$> @Pregen.generateMorseAudio exampleRuntime "E" 1200 800 = Some n2 /\
    0 <= n2 <= n1.
Proof.
  assert (H1 : 0 < 600 <= 1200) by lia.
  assert (H2 : 1200 <= intMax / 50) by (vm_compute; congruence).
  assert (Hs : slen "E" < 2 ^ 32) by (vm_compute; reflexivity).
  split; [exact H1|]. split; [exact H2|]. split; [exact Hs|].
  destruct (@faster_is_shorter exampleRuntime "E" 600 1200 600 800 H1 H2 Hs)
    as (n1 & n2 & Ha & Hb & _ & _ & Hle).
  exists n1, n2. split; [exact Ha|]. split; [exact Hb|exact Hle].
Defined.

(** ** Finite floats

    No product of the tone expression overflows: the conversion of an
    [int] and its product with [2*math.Pi] are zero or finite. *)

Lemma digits2_pos_le p k : 0 <= k -> Zpos p < 2 ^ k -> Zpos (digits2_pos p) <= k.
Proof.
  revert k. induction p as [p IH|p IH|]; intros k Hk Hp; cbn [digits2_pos].
  - assert (k <> 0) by (intros ->; change (2 ^ 0) with 1 in Hp; lia).
    replace k with (Z.succ (k - 1)) in Hp by lia.
    rewrite Z.pow_succ_r in Hp by lia.
    specialize (IH (k - 1) ltac:(lia) ltac:(lia)). lia.
  - assert (k <> 0) by (intros ->; change (2 ^ 0) with 1 in Hp; lia).
    replace k with (Z.succ (k - 1)) in Hp by lia.
    rewrite Z.pow_succ_r in Hp by lia.
    specialize (IH (k - 1) ltac:(lia) ltac:(lia)). lia.
  - assert (k <> 0) by (intros ->; change (2 ^ 0) with 1 in Hp; lia). lia.
Qed.

Lemma Zdigits2_le m k : 0 <= k -> 0 <= m < 2 ^ k -> 0 <= Zdigits2 m <= k.
Proof.
  intros Hk Hm. destruct m as [|p|p]; cbn [Zdigits2]; [lia| |lia].
  split; [lia|]. apply digits2_pos_le; lia.
Qed.

Lemma shr_1_bound mrs M : 0 <= shr_m mrs <= M -> 0 <= shr_m (shr_1 mrs) <= M.
Proof.
  destruct mrs as [m r s]. cbn [shr_m]. intros Hm.
  destruct m as [|[p|p|]|p]; cbn [shr_1 shr_m]; lia.
Qed.

Lemma iter_pos_bound p mrs M :
  0 <= shr_m mrs <= M -> 0 <= shr_m (SpecFloat.iter_pos shr_1 p mrs) <= M.
Proof.
  revert mrs. induction p as [p IH|p IH|]; intros mrs Hm; cbn [SpecFloat.iter_pos].
  - apply IH, IH, shr_1_bound, Hm.
  - apply IH, IH, Hm.
  - apply shr_1_bound, Hm.
Qed.

Lemma shr_record_of_loc_m m l : shr_m (shr_record_of_loc m l) = m.
Proof. by destruct l as [|[]]. Qed.

Lemma shr_fexp_bound m e l k :
  0 <= k -> 0 <= m < 2 ^ k ->
  0 <= shr_m (shr_fexp 53 1024 m e l).1 <= m /\
  e <= (shr_fexp 53 1024 m e l).2 <= Z.max e (-1074) + k.
Proof.
  intros Hk Hm. pose proof (Zdigits2_le m k Hk Hm) as Hd.
  unfold shr_fexp, shr, fexp, emin.
  change (3 - 1024 - 53) with (-1074).
  destruct (Z.max (Zdigits2 m + e - 53) (-1074) - e) as [|n|n] eqn:En;
    cbn [fst snd].
  - rewrite shr_record_of_loc_m. lia.
  - split; [|lia]. apply iter_pos_bound. rewrite shr_record_of_loc_m. lia.
  - rewrite shr_record_of_loc_m. lia.
Qed.

Lemma round_nearest_even_bound mx lx :
  mx <= round_nearest_even mx lx <= mx + 1.
Proof. destruct lx as [|[]]; cbn [round_nearest_even]; [lia| |lia|lia].
  destruct (Z.even mx); lia. Qed.

Lemma binary_round_aux_finite sx mx ex lx k E :
  0 <= k -> 0 <= mx < 2 ^ k -> ex <= E -> -1074 <= E -> E + 2 * k + 1 <= 971 ->
  finite_within (mx + 1) (E + 2 * k + 1) (binary_round_aux 53 1024 sx mx ex lx).
Proof.
  intros Hk Hm Hex HE Hfit. unfold binary_round_aux.
  pose proof (shr_fexp_bound mx ex lx k Hk Hm) as [Hm1 He1].
  destruct (shr_fexp 53 1024 mx ex lx) as [mrs' e']. cbn [fst snd] in Hm1, He1.
  pose proof (round_nearest_even_bound (shr_m mrs') (loc_of_shr_record mrs')) as Hr.
  set (m' := round_nearest_even (shr_m mrs') (loc_of_shr_record mrs')) in *.
  assert (Hm' : 0 <= m' < 2 ^ (k + 1)).
  { rewrite Z.pow_add_r by lia. change (2 ^ 1) with 2. lia. }
  pose proof (shr_fexp_bound m' e' loc_Exact (k + 1) ltac:(lia) Hm') as [Hm2 He2].
  destruct (shr_fexp 53 1024 m' e' loc_Exact) as [mrs'' e'']. cbn [fst snd] in Hm2, He2.
  destruct (shr_m mrs'') as [|m|m] eqn:Em; cbn [finite_within]; [done| |lia].
  change (1024 - 53) with 971.
  destruct (Z.leb_spec e'' 971); cbn [finite_within]; lia.
Qed.

Lemma pos_iter_xO m d : Zpos (Pos.iter xO m d) = Zpos m * 2 ^ Zpos d.
Proof.
  induction d as [|d IH] using Pos.peano_ind.
  - cbn [Pos.iter]. change (2 ^ 1) with 2. lia.
  - rewrite Pos.iter_succ, Pos2Z.inj_succ, Z.pow_succ_r by lia.
    rewrite Pos2Z.inj_xO, IH. lia.
Qed.

Lemma binary_round_finite sx m :
  Zpos m <= 2 ^ 63 ->
  finite_within (2 ^ 117) 300 (binary_round 53 1024 sx m 0).
Proof.
  intros Hm. unfold binary_round, shl_align, fexp, emin.
  change (3 - 1024 - 53) with (-1074).
  pose proof (digits2_pos_le m 64 ltac:(lia) ltac:(lia)) as Hd.
  assert (Hd0 : 0 < Zpos (digits2_pos m)) by lia.
  destruct (Z.max (Zpos (digits2_pos m) + 0 - 53) (-1074) - 0) as [|n|n] eqn:En.
  - pose proof (binary_round_aux_finite sx (Zpos m) 0 loc_Exact 64 0
                  ltac:(lia) ltac:(lia) ltac:(lia) ltac:(lia) ltac:(lia)) as Hf.
    destruct (binary_round_aux 53 1024 sx (Zpos m) 0 loc_Exact);
      cbn [finite_within] in *; lia.
  - pose proof (binary_round_aux_finite sx (Zpos m) 0 loc_Exact 64 0
                  ltac:(lia) ltac:(lia) ltac:(lia) ltac:(lia) ltac:(lia)) as Hf.
    destruct (binary_round_aux 53 1024 sx (Zpos m) 0 loc_Exact);
      cbn [finite_within] in *; lia.
  - assert (Hn : Zpos n <= 52) by lia.
    assert (Hz : Zpos (Pos.iter xO m n) < 2 ^ 116).
    { rewrite pos_iter_xO.
      assert (2 ^ Zpos n <= 2 ^ 52) by (apply Z.pow_le_mono_r; lia).
      change (2 ^ 116) with (2 ^ 64 * 2 ^ 52). nia. }
    pose proof (binary_round_aux_finite sx (Zpos (Pos.iter xO m n))
                  (Z.max (Zpos (digits2_pos m) + 0 - 53) (-1074)) loc_Exact 116 11
                  ltac:(lia) ltac:(lia) ltac:(lia) ltac:(lia) ltac:(lia)) as Hf.
    destruct (binary_round_aux 53 1024 sx _ _ loc_Exact);
      cbn [finite_within] in *; lia.
Qed.

Lemma f64_of_int_finite z :
  is_int z -> finite_within (2 ^ 117) 300 (f64_of_int z).
Proof.
  unfold is_int, intMin, intMax, f64_of_int, binary_normalize. intros Hz.
  destruct z as [|m|m]; [done| |]; apply binary_round_finite; lia.
Qed.

Lemma twoPi_mul_finite x :
  finite_within (2 ^ 117) 300 x -> finite_within (2 ^ 171) 800 (f64_mul twoPi x).
Proof.
  destruct x as [s| | |s m e]; cbn [finite_within]; try done.
  intros [Hm He]. unfold f64_mul, twoPi, SFmul.
  pose proof (binary_round_aux_finite (xorb false s)
                (Zpos (7074237752028440 * m)) (-50 + e) loc_Exact 170 250
                ltac:(lia)) as Hf.
  assert (Hp : 0 <= Zpos (7074237752028440 * m) < 2 ^ 170).
  { rewrite Pos2Z.inj_mul. change (2 ^ 170) with (2 ^ 53 * 2 ^ 117). nia. }
  specialize (Hf Hp ltac:(lia) ltac:(lia) ltac:(lia)).
  destruct (binary_round_aux 53 1024 _ _ _ loc_Exact); cbn [finite_within] in *;
    try done.
  change (2 ^ 171) with (2 * 2 ^ 170). lia.
Qed.

(** ** The conversion [int16(x)] discards the fraction *)

Lemma wrap16_id z : - 2 ^ 15 <= z < 2 ^ 15 -> wrap16 z = z.
Proof.
  unfold wrap16. change (2 ^ 15) with 32768. change (2 ^ 16) with 65536.
  intros Hz. rewrite Z.mod_small by lia. lia.
Qed.

Lemma int16_of_f64_fraction s m p :
  Zpos m < 2 ^ 15 * 2 ^ Zpos p ->
  let t := int16_of_f64 (S754_finite s m (Zneg p)) in
  Z.abs t * 2 ^ Zpos p <= Zpos m < (Z.abs t + 1) * 2 ^ Zpos p /\
  (if s then t <= 0 else 0 <= t).
Proof.
  intros Hm t. unfold t, int16_of_f64, int_of_f64, f64_trunc.
  rewrite Z.shiftr_div_pow2 by lia.
  assert (Hp : 0 < 2 ^ Zpos p) by (apply Z.pow_pos_nonneg; lia).
  set (a := Zpos m / 2 ^ Zpos p).
  assert (Ha : 0 <= a < 2 ^ 15).
  { split; [apply Z.div_pos; lia|]. apply Z.div_lt_upper_bound; lia. }
  pose proof (Z.mul_div_le (Zpos m) (2 ^ Zpos p) Hp) as Hlo.
  pose proof (Z.mul_succ_div_gt (Zpos m) (2 ^ Zpos p) Hp) as Hhi.
  fold a in Hlo, Hhi. change (2 ^ 15) with 32768 in Ha.
  assert (Hr : forall z, -32768 <= z < 32768 ->
                         (intMin <=? z) && (z <=? intMax) = true).
  { intros z Hz. unfold intMin, intMax. apply andb_true_iff.
    rewrite !Z.leb_le. lia. }
  destruct s.
  - rewrite Hr by lia. rewrite wrap16_id by (change (2 ^ 15) with 32768; lia).
    rewrite Z.abs_opp, Z.abs_eq by lia. split; [nia|lia].
  - rewrite Hr by lia. rewrite wrap16_id by (change (2 ^ 15) with 32768; lia).
    rewrite Z.abs_eq by lia. split; [nia|lia].
Qed.

Section Amplitude.
Context `{GoRuntime}.

Lemma toneSample_product freq i :
  toneSample freq i = int16_of_f64 (toneProduct freq i).
Proof. reflexivity. Qed.

(** Sample 0 of a tone: the argument of the sine is a zero. *)
Lemma toneSample_0 freq :
  (forall s, exists s', math_Sin (S754_zero s) = S754_zero s') ->
  is_int freq -> toneSample freq 0 = 0.
Proof.
  intros Hsin Hfreq. rewrite toneSample_product. unfold toneProduct, toneArg.
  pose proof (twoPi_mul_finite _ (f64_of_int_finite freq Hfreq)) as Hx.
  change (f64_of_int 0) with (S754_zero false).
  assert (Hz : exists s, f64_mul (f64_mul twoPi (f64_of_int freq))
                                 (S754_zero false) = S754_zero s).
  { destruct (f64_mul twoPi (f64_of_int freq)) as [s| | |s m e];
      cbn [finite_within] in Hx; try done; by eexists. }
  destruct Hz as [s ->].
  assert (f64_div (S754_zero s) (f64_of_int sampleRate) = S754_zero s) as ->
    by (by destruct s).
  destruct (Hsin s) as [s' ->]. by destruct s'.
Qed.

(** Where a mark of a character stands in the rendering. *)
Lemma rendering_mark text wpm freq before i c after morse mb j e ma :
  is_int wpm -> 0 <= timeUnit wpm ->
  rangeString (strings_ToUpper text) = before ++ (i, c) :: after ->
  morseCodeMap !! c = Some morse ->
  rangeString morse = mb ++ (j, e) :: ma ->
  exists pre post,
    rendering text wpm freq
    = pre ++ tone freq (if e =? rune "-" then msToSamples (timeUnit wpm * 3)
                        else msToSamples (timeUnit wpm)) ++ post /\
    len pre = sumOf (segmentSize wpm text) before
              + sumOf (markSize (msToSamples (timeUnit wpm))
                                (msToSamples (timeUnit wpm * 3))
                                (msToSamples (timeUnit wpm)) morse) mb.
Proof.
  intros Hint Ht Hsplit Hc Hmorse.
  pose proof (morseCodeMap_wellFormed _ _ Hc) as Hwf.
  pose proof (rangeString_marks morse Hwf) as Hmarks.
  rewrite Hmorse, Forall_app, Forall_cons in Hmarks.
  destruct Hmarks as (_ & He & _). cbn [snd] in He.
  set (dot := tone freq (msToSamples (timeUnit wpm))).
  set (dash := tone freq (msToSamples (timeUnit wpm * 3))).
  set (gap := silence (msToSamples (timeUnit wpm))).
  exists (mjoin (segment wpm freq text <$> before)
          ++ mjoin (markAudio dot dash gap morse <$> mb)).
  exists ((if j <? slen morse - 1 then gap else [])
          ++ mjoin (markAudio dot dash gap morse <$> ma)
          ++ (if gapAfter text i then silence (msToSamples (timeUnit wpm * 3))
              else [])
          ++ mjoin (segment wpm freq text <$> after)).
  split.
  - unfold rendering. rewrite Hsplit, fmap_app, fmap_cons, join_app, mjoin_cons.
    rewrite <- !app_assoc. f_equal.
    unfold segment at 1. cbn [fst snd].
    rewrite (known_not_space _ _ Hc), Hc.
    fold dot dash gap. unfold charAudio.
    rewrite Hmorse, fmap_app, fmap_cons, join_app, mjoin_cons.
    rewrite <- !app_assoc. f_equal. unfold markAudio at 1. cbn [fst snd].
    rewrite <- !app_assoc. f_equal.
    destruct He as [-> | ->]; reflexivity.
  - rewrite len_app. f_equal.
    + apply len_join_sum, Forall_true. intros ic. by apply len_segment_size.
    + apply len_join_sum, Forall_true. intros ie. by apply len_markAudio_size.
Qed.

(** C9. Within every tone segment (dot or dash), at frequency [freq],
    sample [k] is [int16(math.Sin(2*pi*freq*k/44100) * 32767)] with [k]
    counted from the start of the segment: the phase restarts at zero
    with every mark and is not continued across marks.  The conversion
    discards the fraction of the product (it truncates towards zero, it
    does not round to the nearest integer), and sample 0 of every
    segment is 0, the sine of a zero being a zero.  Both versions; the
    position of the segment is the sum of the sizes before it. *)
Theorem tone_amplitude text wpm freq before i c after morse mb j e ma :
  (forall s, exists s', math_Sin (S754_zero s) = S754_zero s') ->
  is_int wpm -> 0 <= timeUnit wpm -> slen text < 2 ^ 32 -> is_int freq ->
  rangeString (strings_ToUpper text) = before ++ (i, c) :: after ->
  morseCodeMap !! c = Some morse ->
  rangeString morse = mb ++ (j, e) :: ma ->
  let n := if e =? rune "-" then msToSamples (timeUnit wpm * 3)
           else msToSamples (timeUnit wpm) in
  exists pre seg post,
    fst <$> Pregen.generateMorseAudio text wpm freq = Some (pre ++ seg ++ post) /\
    fst <$> Inline.generateMorseAudio text wpm freq = Some (pre ++ seg ++ post) /\
    len pre = sumOf (segmentSize wpm text) before
              + sumOf (markSize (msToSamples (timeUnit wpm))
                                (msToSamples (timeUnit wpm * 3))
                                (msToSamples (timeUnit wpm)) morse) mb /\
    len seg = n /\
    (forall k, 0 <= k < n ->
       seg !! Z.to_nat k = Some (int16_of_f64 (toneProduct freq k))) /\
    (0 < n -> seg !! 0%nat = Some 0) /\
    (forall k s m p t,
       0 <= k < n -> toneProduct freq k = S754_finite s m (Zneg p) ->
       Zpos m < 2 ^ 15 * 2 ^ Zpos p ->
       seg !! Z.to_nat k = Some t ->
       Z.abs t * 2 ^ Zpos p <= Zpos m < (Z.abs t + 1) * 2 ^ Zpos p /\
       (if s then t <= 0 else 0 <= t)).
Proof.
  intros Hsin Hint Ht Hlen Hfreq Hsplit Hc Hmorse n.
  destruct (rendering_mark text wpm freq before i c after morse mb j e ma
              Hint Ht Hsplit Hc Hmorse) as (pre & post & Hr & Hpre).
  fold n in Hr.
  assert (Hn : 0 <= n).
  { destruct (counts_nonneg wpm Hint Ht) as (H1 & H3 & _).
    unfold n. destruct (e =? rune "-"); lia. }
  assert (Hk : forall k, 0 <= k < n ->
               tone freq n !! Z.to_nat k = Some (int16_of_f64 (toneProduct freq k))).
  { intros k Hk. rewrite tone_lookup by done. by rewrite toneSample_product. }
  exists pre, (tone freq n), post.
  rewrite Pregen_generate_rendering, Inline_generate_rendering by done.
  cbn [fmap option_fmap option_map fst]. rewrite Hr.
  split; [done|]. split; [done|]. split; [exact Hpre|].
  split; [by apply len_tone|]. split; [exact Hk|]. split.
  - intros Hpos. change 0%nat with (Z.to_nat 0). rewrite (Hk 0) by lia.
    rewrite <- toneSample_product. f_equal. by apply toneSample_0.
  - intros k s m p t Hkn Hprod Hm Ht'. rewrite Hk in Ht' by done.
    injection Ht' as <-. rewrite Hprod. by apply int16_of_f64_fraction.
Qed.

End Amplitude.

(** ** The further properties at concrete inputs *)

Lemma timeUnit_1200 : 0 <= timeUnit 1200.
Proof. vm_compute. discriminate. Defined.



Lemma last_character_without_gap_witness :
  is_int 1200 /\ 0 <= timeUnit 1200 /\ slen "Et" < 2 ^ 32 /\
  isASCII "E" = true /\ byteVal "t" < 128 /\
  morseCodeMap !! asciiUpper (byteVal "t") = Some "-"%string /\
  @Pregen.generateMorseAudio exampleRuntime "t" 1200 600
  = Some (@letterAudio exampleRuntime 1200 600 "-",
          len (@letterAudio exampleRuntime 1200 600 "-")).
Proof.
  assert (Hs : slen ("E" ++ "t") < 2 ^ 32) by (vm_compute; reflexivity).
  assert (Hc : byteVal "t" < 128) by (vm_compute; reflexivity).
  assert (Hm : morseCodeMap !! asciiUpper (byteVal "t") = Some "-"%string)
    by (vm_compute; reflexivity).
  split; [exact is_int_1200|]. split; [exact timeUnit_1200|].
  split; [exact Hs|]. split; [reflexivity|]. split; [exact Hc|]. split; [exact Hm|].
  destruct (@last_character_without_gap exampleRuntime "E" "t" "-" 1200 600
              is_int_1200 timeUnit_1200 Hs eq_refl Hc Hm) as (Hp & _).
  exact Hp.
Defined.


Lemma spaces_are_word_gaps_witness :
  is_int 1200 /\ 0 <= timeUnit 1200 /\ Z.of_nat 2 < 2 ^ 32 /\
  @Pregen.generateMorseAudio exampleRuntime "  " 1200 600
  = Some (replicate (2 * Z.to_nat (msToSamples (timeUnit 1200 * 7))) 0,
          Z.of_nat 2 * msToSamples (timeUnit 1200 * 7)).
Proof.
  assert (Hn : Z.of_nat 2 < 2 ^ 32) by (vm_compute; reflexivity).
  split; [exact is_int_1200|]. split; [exact timeUnit_1200|]. split; [exact Hn|].
  destruct (@spaces_are_word_gaps exampleRuntime 2 1200 600 is_int_1200
              timeUnit_1200 Hn) as [Hp _].
  exact Hp.
Defined.

Lemma newMorseAudio_1200 :
  @Pregen.newMorseAudio exampleRuntime 1200 600
  = Some (@pregenerated exampleRuntime 1200 600).
Proof. apply newMorseAudio_pregenerated; [exact is_int_1200|exact timeUnit_1200]. Defined.

Lemma dot_is_prefix_of_dash_witness :
  is_int 1200 /\
  @Pregen.newMorseAudio exampleRuntime 1200 600
  = Some (@pregenerated exampleRuntime 1200 600) /\
  Pregen.dotSamples (@pregenerated exampleRuntime 1200 600)
    `prefix_of` Pregen.dashSamples (@pregenerated exampleRuntime 1200 600).
Proof.
  split; [exact is_int_1200|]. split; [exact newMorseAudio_1200|].
  destruct (@dot_is_prefix_of_dash exampleRuntime 1200 600 _ is_int_1200
              newMorseAudio_1200) as [Hp _].
  exact Hp.
Defined.

Lemma letter_length_witness :
  is_int 1200 /\
  @Pregen.newMorseAudio exampleRuntime 1200 600
  = Some (@pregenerated exampleRuntime 1200 600) /\
  match morseCodeMap !! rune "S" with
  | Some morse =>
      exists a,
        Pregen.charSamples (@pregenerated exampleRuntime 1200 600) !! rune "S"
        = Some a /\
        len a
        = countMark (rune ".") morse
            * len (Pregen.dotSamples (@pregenerated exampleRuntime 1200 600))
          + countMark (rune "-") morse
            * len (Pregen.dashSamples (@pregenerated exampleRuntime 1200 600))
          + (slen morse - 1)
            * len (Pregen.elementGap (@pregenerated exampleRuntime 1200 600))
  | None =>
      Pregen.charSamples (@pregenerated exampleRuntime 1200 600) !! rune "S" = None
  end.
Proof.
  split; [exact is_int_1200|]. split; [exact newMorseAudio_1200|].
  exact (@letter_length exampleRuntime 1200 600 _ (rune "S") is_int_1200
           newMorseAudio_1200).
Defined.

Lemma tone_phase_restarts_witness :
  is_int 1200 /\ 0 <= timeUnit 1200 /\ slen "e" < 2 ^ 32 /\
  rangeString (@strings_ToUpper exampleRuntime "e") = [] ++ (0, rune "E") :: [] /\
  morseCodeMap !! rune "E" = Some "."%string /\
  rangeString "." = [] ++ (0, rune ".") :: [] /\
  exists pre post,
    len pre = 0 /\
    fst <$> @Pregen.generateMorseAudio exampleRuntime "e" 1200 600
    = Some (pre ++ (@toneSample exampleRuntime 600
                      <$> seqZ 0 (msToSamples (timeUnit 1200))) ++ post) /\
    fst <$> @Inline.generateMorseAudio exampleRuntime "e" 1200 600
    = Some (pre ++ (@toneSample exampleRuntime 600
                      <$> seqZ 0 (msToSamples (timeUnit 1200))) ++ post).
Proof.
  assert (Hs : slen "e" < 2 ^ 32) by (vm_compute; reflexivity).
  assert (Hr : rangeString (@strings_ToUpper exampleRuntime "e")
               = [] ++ (0, rune "E") :: []) by (vm_compute; reflexivity).
  assert (Hm : morseCodeMap !! rune "E" = Some "."%string)
    by (vm_compute; reflexivity).
  assert (Hc : rangeString "." = [] ++ (0, rune ".") :: [])
    by (vm_compute; reflexivity).
  split; [exact is_int_1200|]. split; [exact timeUnit_1200|]. split; [exact Hs|].
  split; [exact Hr|]. split; [exact Hm|]. split; [exact Hc|].
  exact (@tone_phase_restarts exampleRuntime "e" 1200 600 [] 0 (rune "E") []
           "." [] 0 (rune ".") [] is_int_1200 timeUnit_1200 Hs Hr Hm Hc).
Defined.

Lemma fast_speed_is_silent_witness :
  1200 < 1201 <= intMax / 50 /\
  calculateMorseTiming 1201 = Some (0, 0, 0, 0, 0) /\
  @Pregen.generateMorseAudio exampleRuntime "SOS" 1201 600 = Some ([], 0).
Proof.
  assert (Hw : 1200 < 1201 <= intMax / 50) by (vm_compute; split; congruence).
  assert (Hs : slen "SOS" < 2 ^ 32) by (vm_compute; reflexivity).
  split; [exact Hw|].
  destruct (@fast_speed_is_silent exampleRuntime 1201 Hw) as [Ht Hall].
  split; [exact Ht|]. destruct (Hall "SOS"%string 600 Hs) as [Hp _]. exact Hp.
Defined.

Lemma time_unit_closed_form_witness :
  0 < 20 <= 25 /\ 25 <= intMax / 50 /\
  exists t1 t2,
    calculateMorseTiming 20 = Some (t1, t1 * 3, t1, t1 * 3, t1 * 7) /\
    calculateMorseTiming 25 = Some (t2, t2 * 3, t2, t2 * 3, t2 * 7) /\
    t1 = 60000 / (20 * 50) /\ t2 = 60000 / (25 * 50) /\
    0 <= t2 <= t1 /\ t1 <= 1200.
Proof.
  assert (H1 : 0 < 20 <= 25) by lia.
  assert (H2 : 25 <= intMax / 50) by (vm_compute; congruence).
  split; [exact H1|]. split; [exact H2|].
  exact (@time_unit_closed_form 20 25 H1 H2).
Defined.

Lemma sample_count_frequency_independent_witness :
  is_int 1200 /\ 0 <= timeUnit 1200 /\ slen "SOS" < 2 ^ 32 /\
  snd <$> @Pregen.generateMorseAudio exampleRuntime "SOS" 1200 600
  = Some (@renderingSize exampleRuntime "SOS" 1200) /\
  snd <$> @Pregen.generateMorseAudio exampleRuntime "SOS" 1200 800
  = Some (@renderingSize exampleRuntime "SOS" 1200).
Proof.
  assert (Hs : slen "SOS" < 2 ^ 32) by (vm_compute; reflexivity).
  split; [exact is_int_1200|]. split; [exact timeUnit_1200|]. split; [exact Hs|].
  destruct (@sample_count_frequency_independent exampleRuntime "SOS" 1200 600 800
              is_int_1200 timeUnit_1200 Hs) as (H1 & H2 & _).
  split; [exact H1|exact H2].
Defined.


Lemma is_int_overflowing : is_int 8116567392432202711.
Proof. unfold is_int, intMin, intMax. lia. Defined.

Lemma negative_timing_witness :
  is_int 8116567392432202711 /\ timeUnit 8116567392432202711 < 0 /\
  slen "!" < 2 ^ 32 /\
  @Pregen.generateMorseAudio exampleRuntime "!" 8116567392432202711 600 = None /\
  @Inline.generateMorseAudio exampleRuntime "!" 8116567392432202711 600
  = Some ([], 0).
Proof.
  assert (Ht : timeUnit 8116567392432202711 < 0) by (vm_compute; reflexivity).
  assert (Hs : slen "!" < 2 ^ 32) by (vm_compute; reflexivity).
  split; [exact is_int_overflowing|]. split; [exact Ht|]. split; [exact Hs|].
  destruct (@negative_timing exampleRuntime "!" 8116567392432202711 600
              is_int_overflowing Ht Hs) as (_ & Hp & Hi).
  split; [exact Hp|exact Hi].
Defined.

Lemma wav_samples_round_trip_witness :
  Forall isInt16 [0; -1; 32767; -32768] /\
  readSamples (drop 44 (wavBuffer [0; -1; 32767; -32768] 4))
  = [0; -1; 32767; -32768].
Proof.
  assert (Hs : Forall isInt16 [0; -1; 32767; -32768]).
  { repeat constructor; vm_compute; congruence. }
  split; [exact Hs|].
  destruct (wav_samples_round_trip [0; -1; 32767; -32768] 4 Hs) as [Hr _].
  exact Hr.
Defined.

Lemma generate_E_1200 :
  @Pregen.generateMorseAudio exampleRuntime "E" 1200 600
  = Some (@rendering exampleRuntime "E" 1200 600, 44).
Proof. vm_compute. reflexivity. Defined.


Lemma morse_codes_distinct_witness :
  morseCodeMap !! rune "S" = Some "..."%string /\
  rune "S" = rune "S" /\ asciiUpper (rune "S") = rune "S" /\ rune "S" <> rune " ".
Proof.
  assert (Hm : morseCodeMap !! rune "S" = Some "..."%string)
    by (vm_compute; reflexivity).
  split; [exact Hm|].
  destruct (morse_codes_distinct (rune "S") (rune "S") "..." Hm Hm)
    as (H1 & H2 & H3 & _).
  split; [exact H1|]. split; [exact H2|exact H3].
Defined.

Lemma data_size_field_witness :
  is_int 1200 /\ slen "E" < 2 ^ 32 /\
  @Pregen.generateMorseAudio exampleRuntime "E" 1200 600
  = Some (@rendering exampleRuntime "E" 1200 600, 44) /\
  0 <= 44 <= 2 ^ 61 /\ int_mul 44 2 = 44 * 2 /\
  getUint32 (field (wavBuffer (@rendering exampleRuntime "E" 1200 600) 44) 4 4)
  = (36 + 44 * 2) mod 2 ^ 32 /\
  getUint32 (field (wavBuffer (@rendering exampleRuntime "E" 1200 600) 44) 40 4)
  = (44 * 2) mod 2 ^ 32.
Proof.
  assert (Hs : slen "E" < 2 ^ 32) by (vm_compute; reflexivity).
  split; [exact is_int_1200|]. split; [exact Hs|]. split; [exact generate_E_1200|].
  exact (@data_size_field exampleRuntime "E" 1200 600 _ 44 is_int_1200 Hs
           (or_introl generate_E_1200)).
Defined.

(** ** The amplitude at concrete inputs *)

Lemma exampleSin_zero :
  forall s, exists s', @math_Sin exampleRuntime (S754_zero s) = S754_zero s'.
Proof. intros [|]; eexists; vm_compute; reflexivity. Defined.

Lemma is_int_600 : is_int 600.
Proof. unfold is_int, intMin, intMax. lia. Defined.

Lemma tone_amplitude_witness :
  (forall s, exists s', @math_Sin exampleRuntime (S754_zero s) = S754_zero s') /\
  is_int 1200 /\ 0 <= timeUnit 1200 /\ slen "e" < 2 ^ 32 /\ is_int 600 /\
  rangeString (@strings_ToUpper exampleRuntime "e") = [] ++ (0, rune "E") :: [] /\
  morseCodeMap !! rune "E" = Some "."%string /\
  rangeString "." = [] ++ (0, rune ".") :: [] /\
  exists pre seg post,
    fst <$> @Pregen.generateMorseAudio exampleRuntime "e" 1200 600
    = Some (pre ++ seg ++ post) /\
    fst <$> @Inline.generateMorseAudio exampleRuntime "e" 1200 600
    = Some (pre ++ seg ++ post) /\
    len pre = 0 /\ len seg = msToSamples (timeUnit 1200) /\
    (0 < msToSamples (timeUnit 1200) -> seg !! 0%nat = Some 0).
Proof.
  assert (Hs : slen "e" < 2 ^ 32) by (vm_compute; reflexivity).
  assert (Hr : rangeString (@strings_ToUpper exampleRuntime "e")
               = [] ++ (0, rune "E") :: []) by (vm_compute; reflexivity).
  assert (Hm : morseCodeMap !! rune "E" = Some "."%string)
    by (vm_compute; reflexivity).
  assert (Hc : rangeString "." = [] ++ (0, rune ".") :: [])
    by (vm_compute; reflexivity).
  split; [exact exampleSin_zero|].
  split; [exact is_int_1200|]. split; [exact timeUnit_1200|]. split; [exact Hs|].
  split; [exact is_int_600|].
  split; [exact Hr|]. split; [exact Hm|]. split; [exact Hc|].
  destruct (@tone_amplitude exampleRuntime "e" 1200 600 [] 0 (rune "E") []
              "." [] 0 (rune ".") [] exampleSin_zero is_int_1200 timeUnit_1200
              Hs is_int_600 Hr Hm Hc)
    as (pre & seg & post & Hp & Hi & Hpre & Hseg & _ & H0 & _).
  exists pre, seg, post.
  split; [exact Hp|]. split; [exact Hi|]. split; [exact Hpre|].
  split; [exact Hseg|exact H0].
Defined.

(** C9, as stated, fails: the amplitude is not rounded.  At 600 Hz the
    product [math.Sin(...) * 32767] of sample 1 is about 2797.69, with
    the sine taken from below (x - x^3/6) as from above
    (x - x^3/6 + x^5/120): the nearest integer is 2798, the sample is
    2797, in the table of [newMorseAudio] and in the output of both
    versions. *)
Lemma amplitude_truncated_not_rounded :
  @toneProduct exampleRuntime 600 1 = S754_finite false 6152190234322397 (-41) /\
  @toneProduct upperRuntime 600 1 = S754_finite false 6152192975567720 (-41) /\
  (2 * 2797 + 1) * 2 ^ 41 <= 2 * 6152190234322397 /\
  6152190234322397 <= 6152192975567720 /\
  6152192975567720 < 2798 * 2 ^ 41 /\
  @toneSample exampleRuntime 600 1 = 2797 /\
  @toneSample upperRuntime 600 1 = 2797 /\
  (m ← @Pregen.newMorseAudio exampleRuntime 1200 600; Pregen.dotSamples m !! 1%nat)
  = Some 2797 /\
  (r ← @Pregen.generateMorseAudio exampleRuntime "E" 1200 600; r.1 !! 1%nat)
  = Some 2797 /\
  (r ← @Inline.generateMorseAudio exampleRuntime "E" 1200 600; r.1 !! 1%nat)
  = Some 2797 /\
  (r ← @Pregen.generateMorseAudio upperRuntime "E" 1200 600; r.1 !! 1%nat)
  = Some 2797 /\
  (r ← @Inline.generateMorseAudio upperRuntime "E" 1200 600; r.1 !! 1%nat)
  = Some 2797 /\
  2797 <> 2798.
Proof.
  repeat (split; [vm_compute; first [reflexivity | discriminate]|]).
  discriminate.
Qed.
